(** * codec: encoded-span scanner and Unicode decoder

    A shallow embedding of the byte-level scanner [findEncodingMatches]
    and of the Unicode decoder [decodeUnicode] of the [codec] package,
    followed by the properties the specification states about them.

    Go strings are byte sequences: they are modelled as [list ascii]
    (an [ascii] is exactly one byte).  Positions are Go [int]s that the
    code keeps between [0] and [len(data)], so they are modelled as
    [nat]; every read [data[k]] of the source sits behind a bound check
    of a short-circuit [&&], and so does every [byteAt] below. *)

From Stdlib Require Import List Ascii String Arith Bool Lia ZArith Sorted.
Import ListNotations.

Local Open Scope char_scope.
Local Open Scope bool_scope.
Local Open Scope nat_scope.

(** ** Byte strings *)

Definition bytes := list ascii.

(** A string literal as the byte sequence it denotes. *)
Definition str (s : string) : bytes := list_ascii_of_string s.

(** [data[i]]; the default byte is returned for no read the source
    performs, all of them being in range. *)
Definition byteAt (data : bytes) (i : nat) : ascii := nth i data zero.

Definition newline : ascii := "010".
Definition tab : ascii := "009".
Definition backslash : ascii := "\".

(** ** Classifier tables (the [init] function) *)

Definition inRange (lo hi c : ascii) : bool :=
  (nat_of_ascii lo <=? nat_of_ascii c) && (nat_of_ascii c <=? nat_of_ascii hi).

(** [isHexChar]: set for '0'..'9', 'A'..'F', 'a'..'f'. *)
Definition isHexChar (c : ascii) : bool :=
  inRange "0" "9" c || inRange "A" "F" c || inRange "a" "f" c.

(** [isB64NotHex]: set for 'G'..'Z', 'g'..'z', '_', '/', '+', '-'. *)
Definition isB64NotHex (c : ascii) : bool :=
  inRange "G" "Z" c || inRange "g" "z" c ||
  Ascii.eqb c "_" || Ascii.eqb c "/" || Ascii.eqb c "+" || Ascii.eqb c "-".

(** [isB64Char]: set wherever one of the two tables above is. *)
Definition isB64Char (c : ascii) : bool :=
  inRange "0" "9" c || inRange "A" "F" c || inRange "a" "f" c ||
  inRange "G" "Z" c || inRange "g" "z" c ||
  Ascii.eqb c "_" || Ascii.eqb c "/" || Ascii.eqb c "+" || Ascii.eqb c "-".

(** [isWhitespace]: space, tab, newline, carriage return, form feed,
    vertical tab. *)
Definition isWhitespace (c : ascii) : bool :=
  Ascii.eqb c " " || Ascii.eqb c tab || Ascii.eqb c newline ||
  Ascii.eqb c "013" || Ascii.eqb c "012" || Ascii.eqb c "011".

(** ** Encodings and matches *)

(** [encodingKind] is an [int] holding one of four power-of-two flags. *)
Inductive encodingKind := percentKind | unicodeKind | hexKind | base64Kind.

Definition kindFlag (k : encodingKind) : Z :=
  match k with
  | percentKind => 1
  | unicodeKind => 2
  | hexKind => 4
  | base64Kind => 8
  end%Z.

(** The [encoding] struct; its [decode] field, a function reference the
    scanner never calls, is left out. *)
Record encoding := mkEncoding { kind : encodingKind; precedence : Z }.

Definition encodings : list encoding :=
  [ mkEncoding percentKind 4;
    mkEncoding unicodeKind 3;
    mkEncoding hexKind 2;
    mkEncoding base64Kind 1 ].

(** [encodings[k]] for the four constant indices the scanner uses. *)
Definition encodingAt (k : nat) : encoding :=
  nth k encodings (mkEncoding base64Kind 1).

Record startEnd := mkStartEnd { start : nat; end_ : nat }.

(** [encodingMatch] embeds a [startEnd] next to its [encoding]. *)
Record encodingMatch := mkMatch { enc : encoding; span : startEnd }.

Definition mstart (m : encodingMatch) : nat := start (span m).
Definition mend (m : encodingMatch) : nat := end_ (span m).
Definition mkind (m : encodingMatch) : encodingKind := kind (enc m).

(** ** The scanner *)

Section Scanner.

Variable data : bytes.

Local Abbreviation n := (List.length data).

Definition hexAt (i : nat) : bool := isHexChar (byteAt data i).

(** --- Percent encoding: %XX --- *)

(** [data[j] == '%' && j+2 < n && isHexChar[data[j+1]] &&
    isHexChar[data[j+2]]], the test of both the outer and the inner
    loop. *)
Definition isPercentTriplet (j : nat) : bool :=
  Ascii.eqb (byteAt data j) "%" && (j + 2 <? n) && hexAt (j + 1) && hexAt (j + 2).

(** [for j < n && data[j] != '\n' { ...; j++ }]: [k] counts the
    iterations left, at most [n - j]. *)
Fixpoint percentScan (k j lastPercentEnd : nat) : nat :=
  match k with
  | 0 => lastPercentEnd
  | S k' =>
      if (j <? n) && negb (Ascii.eqb (byteAt data j) newline)
      then percentScan k' (S j) (if isPercentTriplet j then j + 3 else lastPercentEnd)
      else lastPercentEnd
  end.

Definition tryPercent (i : nat) : option (encodingMatch * nat) :=
  if isPercentTriplet i then
    let lastPercentEnd := percentScan (n - (i + 3)) (i + 3) (i + 3) in
    Some (mkMatch (encodingAt 0) (mkStartEnd i lastPercentEnd), lastPercentEnd)
  else None.

(** --- Unicode code points: U+XXXX --- *)

(** [ws+5 < n && data[ws] == 'U' && data[ws+1] == '+' &&] four hex
    digits. *)
Definition isCodePoint (i : nat) : bool :=
  (i + 5 <? n) && Ascii.eqb (byteAt data i) "U" && Ascii.eqb (byteAt data (i + 1)) "+" &&
  hexAt (i + 2) && hexAt (i + 3) && hexAt (i + 4) && hexAt (i + 5).

(** [afterHex >= n || isWhitespace[data[afterHex]]] *)
Definition wsOrEnd (afterHex : nat) : bool :=
  (n <=? afterHex) || isWhitespace (byteAt data afterHex).

(** [for ws < n && isWhitespace[data[ws]] { ws++ }] *)
Fixpoint skipWhitespace (k ws : nat) : nat :=
  match k with
  | 0 => ws
  | S k' =>
      if (ws <? n) && isWhitespace (byteAt data ws)
      then skipWhitespace k' (S ws)
      else ws
  end.

(** The loop that consumes further U+XXXX groups; it returns [end]. *)
Fixpoint codePointLoop (fuel j end' : nat) : nat :=
  match fuel with
  | 0 => end'
  | S fuel' =>
      if j <? n then
        if negb (isWhitespace (byteAt data j)) then end'
        else
          let ws := skipWhitespace (n - j) j in
          if isCodePoint ws && wsOrEnd (ws + 6)
          then codePointLoop fuel' (ws + 6) (ws + 6)
          else end'
      else end'
  end.

Definition tryCodePoint (i : nat) : option (encodingMatch * nat) :=
  if isCodePoint i && wsOrEnd (i + 6) then
    let end' := codePointLoop n (i + 6) (i + 6) in
    Some (mkMatch (encodingAt 1) (mkStartEnd i end'), end')
  else None.

(** --- Unicode escapes: \uXXXX or \\uXXXX --- *)

Definition isU (c : ascii) : bool := Ascii.eqb c "u" || Ascii.eqb c "U".

(** Two backslashes, [u] or [U], four hex digits, from [j] on. *)
Definition doubleEscapeChars (j : nat) : bool :=
  Ascii.eqb (byteAt data j) backslash && Ascii.eqb (byteAt data (j + 1)) backslash &&
  isU (byteAt data (j + 2)) &&
  hexAt (j + 3) && hexAt (j + 4) && hexAt (j + 5) && hexAt (j + 6).

(** One backslash, [u] or [U], four hex digits, from [j] on. *)
Definition singleEscapeChars (j : nat) : bool :=
  Ascii.eqb (byteAt data j) backslash && isU (byteAt data (j + 1)) &&
  hexAt (j + 2) && hexAt (j + 3) && hexAt (j + 4) && hexAt (j + 5).

(** The loop that consumes further escapes of either form (the same
    loop follows both the double and the single form); it returns
    [end]. *)
Fixpoint escapeLoop (fuel j end' : nat) : nat :=
  match fuel with
  | 0 => end'
  | S fuel' =>
      if j <? n then
        if (j + 6 <? n) && doubleEscapeChars j
        then escapeLoop fuel' (j + 7) (j + 7)
        else if (j + 5 <? n) && singleEscapeChars j
        then escapeLoop fuel' (j + 6) (j + 6)
        else end'
      else end'
  end.

Definition tryEscape (i : nat) : option (encodingMatch * nat) :=
  if Ascii.eqb (byteAt data i) backslash then
    if (i + 7 <? n) && doubleEscapeChars i then
      let end' := escapeLoop n (i + 7) (i + 7) in
      Some (mkMatch (encodingAt 1) (mkStartEnd i end'), end')
    else if (i + 5 <? n) && singleEscapeChars i then
      let end' := escapeLoop n (i + 6) (i + 6) in
      Some (mkMatch (encodingAt 1) (mkStartEnd i end'), end')
    else None
  else None.

(** --- Hex / Base64 runs --- *)

(** [for i < n && isB64Char[data[i]] { ...; i++ }] *)
Fixpoint runLoop (k i : nat) (allHex : bool) : nat * bool :=
  match k with
  | 0 => (i, allHex)
  | S k' =>
      if (i <? n) && isB64Char (byteAt data i)
      then runLoop k' (S i) (if isB64NotHex (byteAt data i) then false else allHex)
      else (i, allHex)
  end.

(** [for eqCount < 2 && end < n && data[end] == '=' { eqCount++; end++ }];
    two iterations at most. *)
Fixpoint padLoop (k eqCount end' : nat) : nat * nat :=
  match k with
  | 0 => (eqCount, end')
  | S k' =>
      if (eqCount <? 2) && (end' <? n) && Ascii.eqb (byteAt data end') "="
      then padLoop k' (S eqCount) (S end')
      else (eqCount, end')
  end.

(** The run branch always ends in [continue]: it yields the match it
    appended, if any, and the position the cursor is left at. *)
Definition tryRun (i : nat) : option (option encodingMatch * nat) :=
  let c := byteAt data i in
  if isB64Char c then
    let start := i in
    let '(i', allHex) := runLoop (n - S i) (S i) (negb (isB64NotHex c)) in
    let runLen := i' - start in
    let '(_, end') := padLoop 2 0 i' in
    if allHex && (32 <=? runLen) then
      Some (Some (mkMatch (encodingAt 2) (mkStartEnd start (start + runLen))), i')
    else if 16 <=? runLen then
      Some (Some (mkMatch (encodingAt 3) (mkStartEnd start end')), i')
    else Some (None, i')
  else None.

(** One iteration of the main loop at cursor [i < n]: the match it
    appends to [all], if any, and the new cursor. *)
Definition scanStep (i : nat) : option encodingMatch * nat :=
  match tryPercent i with
  | Some (m, i') => (Some m, i')
  | None =>
      match tryCodePoint i with
      | Some (m, i') => (Some m, i')
      | None =>
          match tryEscape i with
          | Some (m, i') => (Some m, i')
          | None =>
              match tryRun i with
              | Some r => r
              | None => (None, S i)
              end
          end
      end
  end.

(** The branches of one iteration, with the tests that lead to each. *)
Inductive StepCase (i : nat) : option encodingMatch -> nat -> Prop :=
| StepPercent :
    isPercentTriplet i = true ->
    let e := percentScan (n - (i + 3)) (i + 3) (i + 3) in
    StepCase i (Some (mkMatch (encodingAt 0) (mkStartEnd i e))) e
| StepCodePoint :
    isPercentTriplet i = false ->
    isCodePoint i = true -> wsOrEnd (i + 6) = true ->
    let e := codePointLoop n (i + 6) (i + 6) in
    StepCase i (Some (mkMatch (encodingAt 1) (mkStartEnd i e))) e
| StepDouble :
    Ascii.eqb (byteAt data i) backslash = true ->
    i + 7 < n -> doubleEscapeChars i = true ->
    let e := escapeLoop n (i + 7) (i + 7) in
    StepCase i (Some (mkMatch (encodingAt 1) (mkStartEnd i e))) e
| StepSingle :
    Ascii.eqb (byteAt data i) backslash = true ->
    (i + 7 <? n) && doubleEscapeChars i = false ->
    i + 5 < n -> singleEscapeChars i = true ->
    let e := escapeLoop n (i + 6) (i + 6) in
    StepCase i (Some (mkMatch (encodingAt 1) (mkStartEnd i e))) e
| StepRun i' allHex eqCount e :
    isPercentTriplet i = false ->
    isCodePoint i && wsOrEnd (i + 6) = false ->
    isB64Char (byteAt data i) = true ->
    runLoop (n - S i) (S i) (negb (isB64NotHex (byteAt data i))) = (i', allHex) ->
    padLoop 2 0 i' = (eqCount, e) ->
    StepCase i
      (if allHex && (32 <=? i' - i)
       then Some (mkMatch (encodingAt 2) (mkStartEnd i (i + (i' - i))))
       else if 16 <=? i' - i
       then Some (mkMatch (encodingAt 3) (mkStartEnd i e))
       else None) i'
| StepSkip :
    isPercentTriplet i = false ->
    isCodePoint i && wsOrEnd (i + 6) = false ->
    tryEscape i = None ->
    isB64Char (byteAt data i) = false ->
    StepCase i None (S i).

(** [for i < n { ... }], threading the cursor and the slice [all]. *)
Fixpoint scanLoop (fuel i : nat) (all : list encodingMatch) : list encodingMatch :=
  match fuel with
  | 0 => all
  | S fuel' =>
      if i <? n then
        let '(om, i') := scanStep i in
        scanLoop fuel' i' (match om with Some m => all ++ [m] | None => all end)
      else all
  end.

(** The slice [all] when the main loop ends; every iteration moves
    the cursor forward, so [n] iterations are enough
    ([scanLoop_fuel]). *)
Definition scanMatches : list encodingMatch := scanLoop n 0 [].

(** The matches the main loop appends from cursor [i] on. *)
Definition scanFrom (i : nat) : list encodingMatch := scanLoop (n - i) i [].

(** [reaches fuel i target]: the cursor, now at [i], stands at [target]
    now or after some iterations of the main loop. *)
Fixpoint reaches (fuel i target : nat) : bool :=
  (i =? target) ||
  match fuel with
  | 0 => false
  | S fuel' => (i <? n) && reaches fuel' (snd (scanStep i)) target
  end.

(** The main loop starts an iteration with its cursor at [target]
    (or ends there). *)
Definition cursorReaches (target : nat) : bool := reaches n 0 target.

End Scanner.

(** [ChainFrom lo l]: the spans of [l] are non-empty, start at or
    after [lo], and each starts at or after the end of the one before. *)
Inductive ChainFrom : nat -> list encodingMatch -> Prop :=
| ChainNil lo : ChainFrom lo []
| ChainCons lo m l :
    lo <= mstart m -> mstart m < mend m -> ChainFrom (mend m) l ->
    ChainFrom lo (m :: l).

(** ** Conflict filter and [findEncodingMatches] *)

Section Filter.

(** [m.overlaps(o)]: a method of [startEnd] that the scanner calls and
    that is declared in another file of the package; the filter is
    defined for any such test, and [overlaps] below fixes one. *)
Variable ovl : startEnd -> startEnd -> bool.

(** [m.overlaps(o.startEnd) && o.encoding.precedence > m.encoding.precedence]
    for the neighbour [o := all[k]]. *)
Definition outrankedBy (all : list encodingMatch) (m : encodingMatch) (k : nat) : bool :=
  match nth_error all k with
  | Some o => ovl (span m) (span o) && (precedence (enc o) >? precedence (enc m))%Z
  | None => false
  end.

(** [for i, m := range all { ... }]: [rest] is what the range still has
    to visit, [i] the index of its head. *)
Fixpoint filterLoop (all : list encodingMatch) (i : nat)
    (rest filtered : list encodingMatch) : list encodingMatch :=
  match rest with
  | [] => filtered
  | m :: rest' =>
      if (0 <? i) && outrankedBy all m (i - 1) then filterLoop all (S i) rest' filtered
      else if (i + 1 <? List.length all) && outrankedBy all m (i + 1)
      then filterLoop all (S i) rest' filtered
      else filterLoop all (S i) rest' (filtered ++ [m])
  end.

Definition findEncodingMatches (data : bytes) : list encodingMatch :=
  if List.length data =? 0 then []
  else
    let all := scanMatches data in
    let totalMatches := List.length all in
    if totalMatches <=? 1 then all
    else filterLoop all 0 all [].

End Filter.

(** Modelled from the spec: the method [overlaps] of [startEnd], which
    [findEncodingMatches] calls and which is declared in a file of the
    package that this development does not have.  The data model says
    that a span is the interval [[start, end)] and that "two spans
    overlap if their intervals intersect". *)
Definition overlaps (s o : startEnd) : bool :=
  Nat.max (start s) (start o) <? Nat.min (end_ s) (end_ o).

(** A second overlap test, on closed intervals: under it two spans that
    merely touch are in conflict.  It is an instance on which the
    filter does remove a candidate of the scanner. *)
Definition overlapsClosed (s o : startEnd) : bool :=
  (start o <=? end_ s) && (start s <=? end_ o).

(** ** The Unicode decoder *)

(** Modelled from the spec: the table [hexMap], which [parseHex4] reads
    and which is declared in a file of the package that this
    development does not have: the value of a hex digit, and [0xff]
    for every byte that is not one ("parses exactly four hex digits
    per unit"). *)
Definition hexMap (c : ascii) : Z :=
  let v := Z.of_nat (nat_of_ascii c) in
  if inRange "0" "9" c then v - 48
  else if inRange "A" "F" c then v - 55
  else if inRange "a" "f" c then v - 87
  else 255.

Definition byteOfZ (z : Z) : ascii := ascii_of_N (Z.to_N (z mod 256)).

(** [utf8.EncodeRune] of the Go standard library, on [uint32(r)]:
    one to four bytes, the surrogates and the values above [MaxRune]
    being replaced by [RuneError] (U+FFFD). *)
Definition encodeRune (r : Z) : bytes :=
  let i := (r mod 2 ^ 32)%Z in
  let three (x : Z) :=
    [ byteOfZ (Z.lor 224 (Z.shiftr x 12));
      byteOfZ (Z.lor 128 (Z.land (Z.shiftr x 6) 63));
      byteOfZ (Z.lor 128 (Z.land x 63)) ] in
  if (i <=? 127)%Z then [byteOfZ i]
  else if (i <=? 2047)%Z then
    [ byteOfZ (Z.lor 192 (Z.shiftr i 6)); byteOfZ (Z.lor 128 (Z.land i 63)) ]
  else if (1114111 <? i)%Z || ((55296 <=? i)%Z && (i <=? 57343)%Z) then three 65533%Z
  else if (i <=? 65535)%Z then three i
  else
    [ byteOfZ (Z.lor 240 (Z.shiftr i 18));
      byteOfZ (Z.lor 128 (Z.land (Z.shiftr i 12) 63));
      byteOfZ (Z.lor 128 (Z.land (Z.shiftr i 6) 63));
      byteOfZ (Z.lor 128 (Z.land i 63)) ].

Section Decoder.

Variable s : bytes.

Local Abbreviation n := (List.length s).

(** [for i := 0; i < 4; i++ { ... }] of [parseHex4]; [val] is a rune
    (an [int32]) that stays below [2^16]. *)
Fixpoint parseHex4Loop (k offset i : nat) (val : Z) : option Z :=
  match k with
  | 0 => Some val
  | S k' =>
      let d := hexMap (byteAt s (offset + i)) in
      if (d =? 255)%Z then None
      else parseHex4Loop k' offset (S i) (Z.lor (Z.shiftl val 4) d)
  end.

(** [(rune, bool)] as an option: [None] is [(0, false)]. *)
Definition parseHex4 (offset : nat) : option Z :=
  if n <? offset + 4 then None else parseHex4Loop 4 offset 0 0%Z.

(** The unit test of [decodeUnicodeCodePoints]:
    [i+5 < n && s[i] == 'U' && s[i+1] == '+'], then [parseHex4(s, i+2)]. *)
Definition codePointUnit (i : nat) : option Z :=
  if (i + 5 <? n) && Ascii.eqb (byteAt s i) "U" && Ascii.eqb (byteAt s (i + 1)) "+"
  then parseHex4 (i + 2)
  else None.

(** The cursor after a decoded unit that ended at [i]: one separator
    (space or tab) is skipped when "U+" and six more bytes follow. *)
Definition skipSeparator (i : nat) : nat :=
  if (i <? n) && (Ascii.eqb (byteAt s i) " " || Ascii.eqb (byteAt s i) tab) then
    if (i + 6 <? n) && Ascii.eqb (byteAt s (i + 1)) "U" && Ascii.eqb (byteAt s (i + 2)) "+"
    then S i
    else i
  else i.

(** One iteration of the loop of [decodeUnicodeCodePoints] at cursor
    [i < n]: the bytes it writes to the builder, whether it sets
    [changed], and the new cursor. *)
Definition codePointsStep (i : nat) : bytes * bool * nat :=
  match codePointUnit i with
  | Some r => (encodeRune r, true, skipSeparator (i + 6))
  | None => ([byteAt s i], false, S i)
  end.

(** The two unit tests of [decodeUnicodeEscapes], tried in this order
    at a backslash. *)
Definition doubleEscapeUnit (i : nat) : option Z :=
  if (i + 6 <? n) && Ascii.eqb (byteAt s (i + 1)) backslash && isU (byteAt s (i + 2))
  then parseHex4 (i + 3)
  else None.

Definition singleEscapeUnit (i : nat) : option Z :=
  if (i + 5 <? n) && isU (byteAt s (i + 1))
  then parseHex4 (i + 2)
  else None.

(** One iteration of the loop of [decodeUnicodeEscapes]. *)
Definition escapesStep (i : nat) : bytes * bool * nat :=
  if Ascii.eqb (byteAt s i) backslash then
    match doubleEscapeUnit i with
    | Some r => (encodeRune r, true, i + 7)
    | None =>
        match singleEscapeUnit i with
        | Some r => (encodeRune r, true, i + 6)
        | None => ([byteAt s i], false, S i)
        end
    end
  else ([byteAt s i], false, S i).

(** [for i < n { ... }], the loop both decoders run around their own
    iteration, threading the cursor, the builder and [changed]. *)
Fixpoint decodeLoop (step : nat -> bytes * bool * nat) (fuel i : nat)
    (buf : bytes) (changed : bool) : bytes * bool :=
  match fuel with
  | 0 => (buf, changed)
  | S fuel' =>
      if i <? n then
        let '(out, set, i') := step i in
        decodeLoop step fuel' i' (buf ++ out) (changed || set)
      else (buf, changed)
  end.

(** What the loop writes, and whether it sets [changed], from cursor
    [i] on. *)
Definition decodeFrom (step : nat -> bytes * bool * nat) (i : nat) : bytes * bool :=
  decodeLoop step (n - i) i [] false.

Definition decodeUnicodeCodePoints : bytes :=
  let '(buf, changed) := decodeLoop codePointsStep n 0 [] false in
  if negb changed then s else buf.

Definition decodeUnicodeEscapes : bytes :=
  let '(buf, changed) := decodeLoop escapesStep n 0 [] false in
  if negb changed then s else buf.

End Decoder.

(** [strings.HasPrefix] and [strings.Contains] of the Go standard
    library. *)
Fixpoint hasPrefix (s prefix : bytes) : bool :=
  match prefix, s with
  | [], _ => true
  | _ :: _, [] => false
  | c :: prefix', d :: s' => Ascii.eqb c d && hasPrefix s' prefix'
  end.

Fixpoint contains (s substr : bytes) : bool :=
  hasPrefix s substr ||
  match s with
  | [] => false
  | _ :: s' => contains s' substr
  end.

Definition decodeUnicode (encodedValue : bytes) : bytes :=
  if contains encodedValue (str "U+") then decodeUnicodeCodePoints encodedValue
  else if contains encodedValue (str "\u") || contains encodedValue (str "\U")
  then decodeUnicodeEscapes encodedValue
  else encodedValue.

(** ** Runs and padding, for the statements below *)

(** Every byte of [data] from [i] up to [e] (excluded) satisfies [f]. *)
Definition allBetween (f : ascii -> bool) (data : bytes) (i e : nat) : bool :=
  forallb (fun x => f (byteAt data x)) (seq i (e - i)).

(** [i .. e) is a run of base64-alphabet bytes that the next byte, if
    any, does not continue. *)
Definition isRun (data : bytes) (i e : nat) : bool :=
  (i <? e) && (e <=? List.length data) && allBetween isB64Char data i e &&
  ((List.length data <=? e) || negb (isB64Char (byteAt data e))).

(** The number of '=' right after position [e], two at most. *)
Definition padCount (data : bytes) (e : nat) : nat :=
  if (e <? List.length data) && Ascii.eqb (byteAt data e) "=" then
    if (S e <? List.length data) && Ascii.eqb (byteAt data (S e)) "=" then 2 else 1
  else 0.

Definition hexMatch (i e : nat) : encodingMatch :=
  mkMatch (mkEncoding hexKind 2) (mkStartEnd i e).

Definition base64Match (i e : nat) : encodingMatch :=
  mkMatch (mkEncoding base64Kind 1) (mkStartEnd i e).

Definition unicodeMatch (i e : nat) : encodingMatch :=
  mkMatch (mkEncoding unicodeKind 3) (mkStartEnd i e).

Definition percentMatch (i e : nat) : encodingMatch :=
  mkMatch (mkEncoding percentKind 4) (mkStartEnd i e).

(** [CodePointSpan data i e]: from [i] to [e] the text is a sequence
    of [U+XXXX] groups, each followed by whitespace or by the end of
    the text, with a run of whitespace between two groups. *)
Inductive CodePointSpan (data : bytes) : nat -> nat -> Prop :=
| SpanFirst i :
    isCodePoint data i = true -> wsOrEnd data (i + 6) = true ->
    CodePointSpan data i (i + 6)
| SpanNext i e ws :
    CodePointSpan data i e -> e < ws ->
    allBetween isWhitespace data e ws = true ->
    isCodePoint data ws = true -> wsOrEnd data (ws + 6) = true ->
    CodePointSpan data i (ws + 6).

(** No further group can be appended to the span that ends at [e]:
    after whitespace from [e] on there is no group that qualifies. *)
Definition spanMaximal (data : bytes) (e : nat) : Prop :=
  forall ws, e < ws -> allBetween isWhitespace data e ws = true ->
    isCodePoint data ws && wsOrEnd data (ws + 6) = false.

(** ** Escape units, for the statements below *)

(** Four hex digits at [k], all inside [s]. *)
Definition hexQuad (s : bytes) (k : nat) : bool :=
  (k + 4 <=? List.length s) &&
  isHexChar (byteAt s k) && isHexChar (byteAt s (k + 1)) &&
  isHexChar (byteAt s (k + 2)) && isHexChar (byteAt s (k + 3)).

(** The number the four digits at [k] denote in base 16. *)
Definition quadValue (s : bytes) (k : nat) : Z :=
  (4096 * hexMap (byteAt s k) + 256 * hexMap (byteAt s (k + 1)) +
   16 * hexMap (byteAt s (k + 2)) + hexMap (byteAt s (k + 3)))%Z.

(** A unit whose four characters parse, in each of the three forms:
    [U+XXXX], [\uXXXX] and [\\uXXXX] ([u] or [U]). *)
Definition codePointAt (s : bytes) (i : nat) : bool :=
  Ascii.eqb (byteAt s i) "U" && Ascii.eqb (byteAt s (i + 1)) "+" && hexQuad s (i + 2).

Definition singleEscapeAt (s : bytes) (i : nat) : bool :=
  Ascii.eqb (byteAt s i) backslash && isU (byteAt s (i + 1)) && hexQuad s (i + 2).

Definition doubleEscapeAt (s : bytes) (i : nat) : bool :=
  Ascii.eqb (byteAt s i) backslash && Ascii.eqb (byteAt s (i + 1)) backslash &&
  isU (byteAt s (i + 2)) && hexQuad s (i + 3).

(** The length of the escape that starts at [j]: 7 for the double
    form, 6 for the single form, 0 when no escape starts there. *)
Definition escapeLenAt (data : bytes) (j : nat) : nat :=
  if doubleEscapeAt data j then 7 else if singleEscapeAt data j then 6 else 0.

(** [EscapeSeq data i e]: from [i] to [e] the text is one escape after
    the other, of either form, with nothing between them. *)
Inductive EscapeSeq (data : bytes) : nat -> nat -> Prop :=
| EscapeOne i :
    0 < escapeLenAt data i -> EscapeSeq data i (i + escapeLenAt data i)
| EscapeSnoc i e :
    EscapeSeq data i e -> 0 < escapeLenAt data e ->
    EscapeSeq data i (e + escapeLenAt data e).

(** No position of [s] starts a unit whose four characters parse. *)
Definition noValidUnit (s : bytes) : bool :=
  forallb (fun i => negb (codePointAt s i || singleEscapeAt s i || doubleEscapeAt s i))
          (seq 0 (List.length s)).

(** [esc] is the text of one backslash escape: [\uXXXX] or [\\uXXXX]. *)
Definition isEscapeText (esc : bytes) : bool :=
  (List.length esc =? 6) && singleEscapeAt esc 0 ||
  (List.length esc =? 7) && doubleEscapeAt esc 0.

(** [g] is the text of one code point: [U+XXXX]. *)
Definition isCodePointText (g : bytes) : bool :=
  (List.length g =? 6) && codePointAt g 0.

(** The separator the code-point routine drops between two groups:
    exactly one space or one tab.  Any other whitespace between two
    groups is kept as it is. *)
Definition droppedSeparator (sep : bytes) : bool :=
  match sep with
  | [c] => Ascii.eqb c " " || Ascii.eqb c tab
  | _ => false
  end.

Definition keptSeparator (sep : bytes) : bytes :=
  if droppedSeparator sep then [] else sep.

(** The code point a unit text denotes: its last four bytes read in
    base 16. *)
Definition unitValue (t : bytes) : Z := quadValue t (List.length t - 4).

(** ** Combined kinds and matched text *)

Definition encodingNames : list string :=
  ["percent"; "unicode"; "hex"; "base64"]%string.

(** [for i := 0; i < len(encodingNames); i++ { ... }] of the method
    [kinds]: [int(e) & int(math.Pow(2, float64(i)))] is [e land 2^i],
    the power being exact for the four indices; a Go [int] is a
    two's-complement integer, on which [&] is [Z.land]. *)
Fixpoint kindsLoop (k i : nat) (e : Z) (kinds : list Z) : list Z :=
  match k with
  | 0 => kinds
  | S k' =>
      let kind := Z.land e (2 ^ Z.of_nat i) in
      kindsLoop k' (S i) e (if (kind =? 0)%Z then kinds else kinds ++ [kind])
  end.

Definition kinds (e : Z) : list Z :=
  kindsLoop (List.length encodingNames) 0 e [].

(** The kinds of a list or'd together, as a segment accumulates them. *)
Definition orKinds (ks : list encodingKind) : Z :=
  fold_right (fun k acc => Z.lor (kindFlag k) acc) 0%Z ks.

(** [data[m.start:m.end]], the text a match is decoded from. *)
Definition slice (data : bytes) (m : encodingMatch) : bytes :=
  firstn (mend m - mstart m) (skipn (mstart m) data).

(** No position of [data] shows one of the four patterns the scanner
    looks for: a percent triplet, a [U+XXXX] group, a backslash escape,
    sixteen base64-alphabet bytes in a row. *)
Definition quietText (data : bytes) : bool :=
  forallb (fun p =>
             negb (isPercentTriplet data p) && negb (isCodePoint data p) &&
             (escapeLenAt data p =? 0) &&
             negb ((p + 16 <=? List.length data) &&
                   allBetween isB64Char data p (p + 16)))
          (seq 0 (List.length data)).

(** The test the code-point routine makes behind a decoded group, [t]
    being the text behind the group: [i < n && (s[i] == ' ' || s[i] ==
    '\t')] and [i+6 < n && s[i+1] == 'U' && s[i+2] == '+'].  When it
    holds the routine skips the first byte of [t]. *)
Definition sepDropped (t : bytes) : bool :=
  match t with
  | c :: t' =>
      (Ascii.eqb c " " || Ascii.eqb c tab) && (6 <=? List.length t') &&
      hasPrefix t' (str "U+")
  | [] => false
  end.

(** What the code-point routine goes on with behind a decoded group. *)
Definition dropSeparator (t : bytes) : bytes :=
  if sepDropped t then tl t else t.

(** ** Units and other bytes, for the statements on the decoder *)

(** An escape whose four characters parse starts at [i], in either
    form. *)
Definition escapeUnitAt (s : bytes) (i : nat) : bool :=
  singleEscapeAt s i || doubleEscapeAt s i.

(** No unit, in the sense of [unitAt], starts at a position of [s]
    before [k]. *)
Definition noUnitBefore (unitAt : bytes -> nat -> bool) (s : bytes) (k : nat) : bool :=
  forallb (fun i => negb (unitAt s i)) (seq 0 k).

(** The units that [decodeUnicode] looks for in [s]: code points when
    [s] contains [U+], escapes otherwise. *)
Definition routineUnitAt (s : bytes) : bytes -> nat -> bool :=
  if contains s (str "U+") then codePointAt else escapeUnitAt.

(** No position of [s] starts a unit of the routine that
    [decodeUnicode] runs on [s]. *)
Definition noRoutineUnit (s : bytes) : bool :=
  noUnitBefore (routineUnitAt s) s (List.length s).

(** A text read from left to right as units and other bytes:
    [Other c] is one byte that is not the first byte of a unit,
    [Encoded t] the text of a unit, [EncodedSep t c] the text of a
    unit and the separator behind it that the code-point routine
    drops. *)
Inductive piece :=
| Other (c : ascii)
| Encoded (t : bytes)
| EncodedSep (t : bytes) (c : ascii).

(** The text the pieces stand for. *)
Fixpoint render (ps : list piece) : bytes :=
  match ps with
  | [] => []
  | Other c :: r => c :: render r
  | Encoded t :: r => t ++ render r
  | EncodedSep t c :: r => t ++ c :: render r
  end.

(** The pieces are the reading of their text by the escape routine:
    every unit is an escape whose four characters parse, and no such
    escape starts at a byte read as [Other]. *)
Fixpoint escapePieces (ps : list piece) : bool :=
  match ps with
  | [] => true
  | Other c :: r => negb (escapeUnitAt (c :: render r) 0) && escapePieces r
  | Encoded t :: r => isEscapeText t && escapePieces r
  | EncodedSep _ _ :: _ => false
  end.

(** The pieces are the reading of their text by the code-point
    routine: every unit is a group [U+XXXX] whose four characters
    parse, no such group starts at a byte read as [Other], and a
    separator is read with its group exactly when the routine drops
    it. *)
Fixpoint codePointPieces (ps : list piece) : bool :=
  match ps with
  | [] => true
  | Other c :: r => negb (codePointAt (c :: render r) 0) && codePointPieces r
  | Encoded t :: r => isCodePointText t && negb (sepDropped (render r)) && codePointPieces r
  | EncodedSep t c :: r =>
      isCodePointText t && sepDropped (c :: render r) && codePointPieces r
  end.

(** The text with every unit replaced by the UTF-8 encoding of its
    code point, the other bytes kept and the separators read with
    their group left out. *)
Fixpoint decoded (ps : list piece) : bytes :=
  match ps with
  | [] => []
  | Other c :: r => c :: decoded r
  | Encoded t :: r => encodeRune (unitValue t) ++ decoded r
  | EncodedSep t _ :: r => encodeRune (unitValue t) ++ decoded r
  end.

(** * Properties *)

(** ** The classifier tables *)

Ltac split_andb :=
  repeat match goal with
    | H : _ && _ = true |- _ => apply andb_prop in H; destruct H
    end.

Ltac known_byte :=
  match goal with
  | H : byteAt ?d ?x = _ |- byteAt ?d ?x <> _ => rewrite H; discriminate
  end.

Ltac by_byte c :=
  destruct c as [[] [] [] [] [] [] [] []]; vm_compute; try reflexivity; try discriminate;
  try (intuition congruence).

Lemma b64_split (c : ascii) : isB64Char c = isHexChar c || isB64NotHex c.
Proof. by_byte c. Qed.

Lemma hex_not_b64NotHex (c : ascii) : isHexChar c = true -> isB64NotHex c = false.
Proof. by_byte c. Qed.

Lemma hex_is_b64 (c : ascii) : isHexChar c = true -> isB64Char c = true.
Proof. by_byte c. Qed.

Lemma ws_not_b64 (c : ascii) : isWhitespace c = true -> isB64Char c = false.
Proof. by_byte c. Qed.

Lemma b64_not_special (c : ascii) :
  isB64Char c = true ->
  Ascii.eqb c "%" = false /\ Ascii.eqb c backslash = false /\
  Ascii.eqb c "=" = false /\ Ascii.eqb c newline = false.
Proof. by_byte c. Qed.

Lemma hex_not_U (c : ascii) : isHexChar c = true -> Ascii.eqb c "U" = false.
Proof. by_byte c. Qed.

Lemma hexQuad_bound (s : bytes) (k : nat) : hexQuad s k = true -> k + 4 <= List.length s.
Proof.
  unfold hexQuad. intros H. repeat (apply andb_prop in H; destruct H as [H ?]).
  now apply Nat.leb_le.
Qed.

(** ** The main loop as a recursion on the cursor *)

Section ScanLoop.

Variable data : bytes.

Local Abbreviation n := (List.length data).

Lemma isPercentTriplet_bound (j : nat) : isPercentTriplet data j = true -> j + 2 < n.
Proof.
  unfold isPercentTriplet. intros H.
  repeat (apply andb_prop in H; destruct H as [H ?]).
  now apply Nat.ltb_lt.
Qed.

Lemma percentScan_bounds (k j last : nat) :
  last <= n -> last <= j + 3 -> last <= percentScan data k j last <= n.
Proof.
  revert j last. induction k as [|k IH]; intros j last Hl Hj; simpl; [lia|].
  destruct ((j <? n) && negb (Ascii.eqb (byteAt data j) newline)); [|lia].
  destruct (isPercentTriplet data j) eqn:T.
  - apply isPercentTriplet_bound in T. specialize (IH (S j) (j + 3)). lia.
  - specialize (IH (S j) last). lia.
Qed.

Lemma skipWhitespace_bounds (k ws : nat) :
  ws <= n -> ws <= skipWhitespace data k ws <= n.
Proof.
  revert ws. induction k as [|k IH]; intros ws Hw; simpl; [lia|].
  destruct (ws <? n) eqn:E; simpl; [|lia].
  apply Nat.ltb_lt in E.
  destruct (isWhitespace (byteAt data ws)); [|lia].
  specialize (IH (S ws)). lia.
Qed.

Lemma isCodePoint_bound (i : nat) : isCodePoint data i = true -> i + 5 < n.
Proof.
  unfold isCodePoint. destruct (i + 5 <? n) eqn:E; simpl; [|discriminate].
  intros _. now apply Nat.ltb_lt.
Qed.

Lemma codePointLoop_bounds (fuel j e : nat) :
  e <= j -> e <= n -> e <= codePointLoop data fuel j e <= n.
Proof.
  revert j e. induction fuel as [|f IH]; intros j e Hj He; simpl; [lia|].
  destruct (j <? n) eqn:E; [|lia]. apply Nat.ltb_lt in E.
  destruct (negb (isWhitespace (byteAt data j))); [lia|].
  pose proof (skipWhitespace_bounds (n - j) j ltac:(lia)) as Hw.
  destruct (isCodePoint data (skipWhitespace data (n - j) j)) eqn:Ec; simpl; [|lia].
  apply isCodePoint_bound in Ec.
  destruct (wsOrEnd data (skipWhitespace data (n - j) j + 6)); [|lia].
  specialize (IH (skipWhitespace data (n - j) j + 6) (skipWhitespace data (n - j) j + 6)).
  lia.
Qed.

Lemma escapeLoop_bounds (fuel j e : nat) :
  e <= j -> e <= n -> e <= escapeLoop data fuel j e <= n.
Proof.
  revert j e. induction fuel as [|f IH]; intros j e Hj He; simpl; [lia|].
  destruct (j <? n) eqn:E; [|lia]. apply Nat.ltb_lt in E.
  destruct (j + 6 <? n) eqn:E6; simpl.
  - apply Nat.ltb_lt in E6.
    destruct (doubleEscapeChars data j).
    + specialize (IH (j + 7) (j + 7)). lia.
    + replace (j + 5 <? n) with true by (symmetry; apply Nat.ltb_lt; lia). simpl.
      destruct (singleEscapeChars data j); [|lia].
      specialize (IH (j + 6) (j + 6)). lia.
  - destruct (j + 5 <? n) eqn:E5; simpl; [|lia]. apply Nat.ltb_lt in E5.
    destruct (singleEscapeChars data j); [|lia].
    specialize (IH (j + 6) (j + 6)). lia.
Qed.

Lemma runLoop_bounds (k i : nat) (b : bool) :
  i <= n -> i <= fst (runLoop data k i b) <= n.
Proof.
  revert i b. induction k as [|k IH]; intros i b Hi; simpl; [lia|].
  destruct (i <? n) eqn:E; simpl; [|lia]. apply Nat.ltb_lt in E.
  destruct (isB64Char (byteAt data i)); simpl; [|lia].
  specialize (IH (S i) (if isB64NotHex (byteAt data i) then false else b)). lia.
Qed.

Lemma padLoop_bounds (k c e : nat) :
  e <= n -> e <= snd (padLoop data k c e) <= n /\ snd (padLoop data k c e) <= e + k.
Proof.
  revert c e. induction k as [|k IH]; intros c e He; simpl; [lia|].
  destruct (c <? 2); simpl; [|lia].
  destruct (e <? n) eqn:E; simpl; [|lia]. apply Nat.ltb_lt in E.
  destruct (Ascii.eqb (byteAt data e) "="); simpl; [|lia].
  specialize (IH (S c) (S e)). lia.
Qed.

Lemma scanStep_cases (i : nat) :
  StepCase data i (fst (scanStep data i)) (snd (scanStep data i)).
Proof.
  unfold scanStep, tryPercent.
  destruct (isPercentTriplet data i) eqn:Hp; [now apply StepPercent|].
  unfold tryCodePoint.
  destruct (isCodePoint data i && wsOrEnd data (i + 6)) eqn:Hc.
  { apply andb_prop in Hc. destruct Hc. now apply StepCodePoint. }
  destruct (tryEscape data i) as [[m e]|] eqn:He.
  { unfold tryEscape in He.
    destruct (Ascii.eqb (byteAt data i) backslash) eqn:Hb; [|discriminate].
    destruct ((i + 7 <? n) && doubleEscapeChars data i) eqn:Hd.
    - inversion He; subst. apply andb_prop in Hd. destruct Hd as [H7 Hd].
      apply Nat.ltb_lt in H7. now apply StepDouble.
    - destruct ((i + 5 <? n) && singleEscapeChars data i) eqn:Hs; [|discriminate].
      inversion He; subst. apply andb_prop in Hs. destruct Hs as [H5 Hs].
      apply Nat.ltb_lt in H5. now apply StepSingle. }
  unfold tryRun.
  destruct (isB64Char (byteAt data i)) eqn:Hb; [|now apply StepSkip].
  destruct (runLoop data (n - S i) (S i) (negb (isB64NotHex (byteAt data i))))
    as [i' allHex] eqn:Hr.
  destruct (padLoop data 2 0 i') as [eqCount e] eqn:Hq.
  pose proof (StepRun data i i' allHex eqCount e Hp Hc Hb Hr Hq) as H.
  destruct (allHex && (32 <=? i' - i)); [exact H|].
  destruct (16 <=? i' - i); exact H.
Qed.

Lemma scanStep_inv (i : nat) (om : option encodingMatch) (i' : nat) :
  scanStep data i = (om, i') -> StepCase data i om i'.
Proof. intros H. pose proof (scanStep_cases i) as Hc. now rewrite H in Hc. Qed.

(** Every iteration moves the cursor forward and keeps it within the
    text; a match starts at the cursor and ends at the new cursor or,
    for base64 padding, at most two bytes after it. *)
Lemma scanStep_bounds (i : nat) :
  i < n ->
  i < snd (scanStep data i) <= n /\
  forall m, fst (scanStep data i) = Some m ->
    mstart m = i /\ snd (scanStep data i) <= mend m <= n /\ i < mend m.
Proof.
  intros Hi. destruct (scanStep_cases i) as [Hp|Hp Hc Hw|Hb H7 Hd|Hb Hd H5 Hs| |].
  - apply isPercentTriplet_bound in Hp.
    pose proof (percentScan_bounds (n - (i + 3)) (i + 3) (i + 3) ltac:(lia) ltac:(lia)).
    subst e. split; [lia|]. intros m Hm. inversion Hm; subst. cbn. lia.
  - apply isCodePoint_bound in Hc.
    pose proof (codePointLoop_bounds n (i + 6) (i + 6) ltac:(lia) ltac:(lia)).
    subst e. split; [lia|]. intros m Hm. inversion Hm; subst. cbn. lia.
  - pose proof (escapeLoop_bounds n (i + 7) (i + 7) ltac:(lia) ltac:(lia)).
    subst e. split; [lia|]. intros m Hm. inversion Hm; subst. cbn. lia.
  - pose proof (escapeLoop_bounds n (i + 6) (i + 6) ltac:(lia) ltac:(lia)).
    subst e. split; [lia|]. intros m Hm. inversion Hm; subst. cbn. lia.
  - pose proof (runLoop_bounds (n - S i) (S i) (negb (isB64NotHex (byteAt data i)))
                  ltac:(lia)) as Hr.
    rewrite H2 in Hr. cbn in Hr.
    pose proof (padLoop_bounds 2 0 i' ltac:(lia)) as Hq. rewrite H3 in Hq. cbn in Hq.
    split; [lia|]. intros m Hm.
    destruct (allHex && (32 <=? i' - i)).
    + inversion Hm; subst. cbn. lia.
    + destruct (16 <=? i' - i); [|discriminate]. inversion Hm; subst. cbn. lia.
  - split; [lia|]. intros m Hm. discriminate.
Qed.

(** The accumulator only grows at its end. *)
Lemma scanLoop_acc (fuel i : nat) (all : list encodingMatch) :
  scanLoop data fuel i all = all ++ scanLoop data fuel i [].
Proof.
  revert i all. induction fuel as [|f IH]; intros i all; simpl.
  - now rewrite app_nil_r.
  - destruct (i <? n); [|now rewrite app_nil_r].
    destruct (scanStep data i) as [[m|] i'].
    + rewrite (IH i' (all ++ [m])), (IH i' [m]). now rewrite <- app_assoc.
    + apply IH.
Qed.

Lemma scanLoop_S (fuel i : nat) (all : list encodingMatch) :
  scanLoop data (S fuel) i all =
  if i <? n then
    let '(om, i') := scanStep data i in
    scanLoop data fuel i' (match om with Some m => all ++ [m] | None => all end)
  else all.
Proof. reflexivity. Qed.

(** Fuel beyond the distance to the end of the text is never used. *)
Lemma scanLoop_fuel_S (g j : nat) :
  n - j <= g -> scanLoop data (S g) j [] = scanLoop data g j [].
Proof.
  revert j. induction g as [|g IHg]; intros j Hg.
  - simpl. replace (j <? n) with false by (symmetry; apply Nat.ltb_ge; lia).
    reflexivity.
  - destruct (Nat.lt_ge_cases j n) as [Hj|Hj].
    + rewrite (scanLoop_S (S g)), (scanLoop_S g).
      replace (j <? n) with true by (symmetry; now apply Nat.ltb_lt).
      pose proof (scanStep_bounds j Hj) as [Hadv _].
      destruct (scanStep data j) as [om j']. cbn [snd] in Hadv.
      rewrite (scanLoop_acc (S g)), (scanLoop_acc g). f_equal. apply IHg. lia.
    + rewrite (scanLoop_S (S g)), (scanLoop_S g).
      replace (j <? n) with false by (symmetry; now apply Nat.ltb_ge).
      reflexivity.
Qed.

Lemma scanLoop_fuel (fuel i : nat) :
  n - i <= fuel -> scanLoop data fuel i [] = scanLoop data (n - i) i [].
Proof.
  intros Hf. replace fuel with ((fuel - (n - i)) + (n - i)) by lia.
  generalize (fuel - (n - i)) as d. intros d.
  induction d as [|d IHd]; [reflexivity|].
  cbn [Nat.add]. rewrite scanLoop_fuel_S by lia. exact IHd.
Qed.

Lemma scanMatches_scanFrom : scanMatches data = scanFrom data 0.
Proof. unfold scanMatches, scanFrom. now rewrite Nat.sub_0_r. Qed.

Lemma scanFrom_end (i : nat) : n <= i -> scanFrom data i = [].
Proof. intros Hi. unfold scanFrom. now replace (n - i) with 0 by lia. Qed.

Lemma scanFrom_step (i : nat) :
  i < n ->
  scanFrom data i =
  match fst (scanStep data i) with
  | Some m => m :: scanFrom data (snd (scanStep data i))
  | None => scanFrom data (snd (scanStep data i))
  end.
Proof.
  intros Hi. unfold scanFrom at 1.
  destruct (n - i) as [|k] eqn:Hk; [lia|]. rewrite scanLoop_S.
  replace (i <? n) with true by (symmetry; now apply Nat.ltb_lt).
  pose proof (scanStep_bounds i Hi) as [Hadv _].
  destruct (scanStep data i) as [om i']. cbn [snd] in Hadv. cbn [fst snd].
  rewrite scanLoop_acc, scanLoop_fuel by lia. fold (scanFrom data i').
  now destruct om.
Qed.

(** Induction along the cursor positions the main loop visits. *)
Lemma scanFrom_ind (P : nat -> list encodingMatch -> Prop) :
  (forall i, n <= i -> P i []) ->
  (forall i m i', i < n -> scanStep data i = (Some m, i') ->
     P i' (scanFrom data i') -> P i (m :: scanFrom data i')) ->
  (forall i i', i < n -> scanStep data i = (None, i') ->
     P i' (scanFrom data i') -> P i (scanFrom data i')) ->
  forall i, P i (scanFrom data i).
Proof.
  intros Hend Hsome Hnone i.
  remember (n - i) as d eqn:Hd. revert i Hd.
  induction d as [d IH] using lt_wf_ind. intros i Hd.
  destruct (Nat.lt_ge_cases i n) as [Hi|Hi].
  - rewrite (scanFrom_step i Hi).
    pose proof (scanStep_bounds i Hi) as [Hadv _].
    destruct (scanStep data i) as [[m|] i'] eqn:Hs; cbn [fst snd] in *.
    + apply (Hsome i m i' Hi Hs). apply (IH (n - i')); lia.
    + apply (Hnone i i' Hi Hs). apply (IH (n - i')); lia.
  - rewrite scanFrom_end by exact Hi. now apply Hend.
Qed.

(** *** Base64 padding and the next cursor positions *)

Lemma padLoop_spec (k c e : nat) :
  e <= n ->
  let r := padLoop data k c e in
  snd r - e = fst r - c /\ c <= fst r /\ e <= snd r <= n /\
  forall j, e <= j < snd r -> byteAt data j = "=".
Proof.
  revert c e. induction k as [|k IH]; intros c e He; simpl.
  - repeat split; try lia.
  - destruct (c <? 2); simpl; [|repeat split; lia].
    destruct (e <? n) eqn:E; simpl; [|repeat split; lia]. apply Nat.ltb_lt in E.
    destruct (Ascii.eqb (byteAt data e) "=") eqn:Q; simpl; [|repeat split; lia].
    apply Ascii.eqb_eq in Q.
    destruct (IH (S c) (S e) ltac:(lia)) as (H1 & H2 & H3 & H4).
    repeat split; try lia.
    intros j Hj. destruct (Nat.eq_dec j e) as [->|Hne]; [exact Q|]. apply H4. lia.
Qed.

(** At '=' the main loop only steps over the byte. *)
Lemma scanStep_at_eq (i : nat) :
  byteAt data i = "=" -> scanStep data i = (None, S i).
Proof.
  intros H.
  unfold scanStep, tryPercent, tryCodePoint, tryEscape, tryRun,
    isPercentTriplet, isCodePoint.
  rewrite H. cbn [Ascii.eqb Bool.eqb andb].
  destruct (i + 5 <? n); reflexivity.
Qed.

Lemma scanFrom_skip_eqs (e i : nat) :
  i <= e <= n -> (forall j, i <= j < e -> byteAt data j = "=") ->
  scanFrom data i = scanFrom data e.
Proof.
  intros Hie Hpad. remember (e - i) as d eqn:Hd. revert i Hie Hpad Hd.
  induction d as [|d IH]; intros i Hie Hpad Hd.
  - now replace i with e by lia.
  - rewrite scanFrom_step by lia.
    rewrite (scanStep_at_eq i) by (apply Hpad; lia). cbn [fst snd].
    apply IH; try lia. intros j Hj. apply Hpad. lia.
Qed.

(** The bytes between the new cursor and the end of a match are the
    padding the base64 branch consumed. *)
Lemma scanStep_pad (i : nat) (m : encodingMatch) (i' : nat) :
  i < n -> scanStep data i = (Some m, i') ->
  forall j, i' <= j < mend m -> byteAt data j = "=".
Proof.
  intros Hi Hs. apply scanStep_inv in Hs.
  remember (Some m) as om eqn:Hm.
  destruct Hs as [Hp|Hp Hcp Hw|Hb H7 Hd|Hb Hd H5 Hsg
                 |i' allHex eqCount e Hp Hcp Hb Hr Hq|];
    try (inversion Hm; subst; intros j Hj; cbn in Hj; lia).
  pose proof (runLoop_bounds (n - S i) (S i) (negb (isB64NotHex (byteAt data i)))
                ltac:(lia)) as Hrb.
  rewrite Hr in Hrb. cbn [fst] in Hrb.
  pose proof (padLoop_spec 2 0 i' ltac:(lia)) as Hps. rewrite Hq in Hps.
  cbn [fst snd] in Hps. destruct Hps as (_ & _ & _ & Hpad).
  destruct (allHex && (32 <=? i' - i)).
  - inversion Hm; subst. intros j Hj. cbn in Hj. lia.
  - destruct (16 <=? i' - i); [|discriminate].
    inversion Hm; subst. cbn. exact Hpad.
Qed.

End ScanLoop.

(** ** Ordered, pairwise disjoint spans *)

Lemma nth_error_lt {A : Type} (l : list A) (i : nat) (x : A) :
  nth_error l i = Some x -> i < List.length l.
Proof. intros H. apply nth_error_Some. congruence. Qed.


Lemma ChainFrom_weaken (lo lo' : nat) (l : list encodingMatch) :
  lo' <= lo -> ChainFrom lo l -> ChainFrom lo' l.
Proof.
  intros Hle H. destruct H; constructor; auto. lia.
Qed.

Lemma ChainFrom_nth (lo : nat) (l : list encodingMatch) (i : nat) (a : encodingMatch) :
  ChainFrom lo l -> nth_error l i = Some a -> lo <= mstart a /\ mstart a < mend a.
Proof.
  intros H. revert i. induction H as [|lo m l H1 H2 H3 IH]; intros i Hi.
  - destruct i; discriminate.
  - destruct i as [|i]; cbn in Hi.
    + inversion Hi; subst. lia.
    + apply IH in Hi. lia.
Qed.

Lemma ChainFrom_pairwise (lo : nat) (l : list encodingMatch) (i j : nat)
    (a b : encodingMatch) :
  ChainFrom lo l -> i < j -> nth_error l i = Some a -> nth_error l j = Some b ->
  mend a <= mstart b.
Proof.
  intros H. revert i j. induction H as [|lo m l H1 H2 H3 IH]; intros i j Hij Hi Hj.
  - destruct i; discriminate.
  - destruct j as [|j]; [lia|]. cbn in Hj.
    destruct i as [|i]; cbn in Hi.
    + inversion Hi; subst. apply (ChainFrom_nth _ _ _ _ H3) in Hj. lia.
    + apply (IH i j); auto. lia.
Qed.

Lemma scanFrom_chain (data : bytes) (i : nat) : ChainFrom i (scanFrom data i).
Proof.
  enough (H : forall e, i <= e <= List.length data ->
                (forall j, i <= j < e -> byteAt data j = "=") ->
                ChainFrom e (scanFrom data i)).
  { destruct (Nat.lt_ge_cases i (List.length data)) as [Hi|Hi].
    - apply H; [lia|]. intros j Hj. lia.
    - rewrite scanFrom_end by exact Hi. constructor. }
  apply (scanFrom_ind data (fun i l =>
    forall e, i <= e <= List.length data ->
      (forall j, i <= j < e -> byteAt data j = "=") -> ChainFrom e l)).
  - intros i0 Hi e He Hpad. constructor.
  - intros i0 m i' Hi Hs IH e He Hpad.
    assert (e = i0) as ->.
    { destruct (Nat.eq_dec e i0) as [|Hne]; [assumption|].
      rewrite scanStep_at_eq in Hs by (apply Hpad; lia). discriminate. }
    pose proof (scanStep_bounds data i0 Hi) as [Hadv Hm].
    rewrite Hs in Hadv, Hm. cbn [fst snd] in Hadv, Hm.
    destruct (Hm m eq_refl) as (Hst & Hen & Hlt).
    constructor; try lia.
    apply IH; [lia|]. exact (scanStep_pad data i0 m i' Hi Hs).
  - intros i0 i' Hi Hs IH e He Hpad.
    pose proof (scanStep_bounds data i0 Hi) as [Hadv _].
    rewrite Hs in Hadv. cbn [snd] in Hadv.
    destruct (Nat.eq_dec e i0) as [->|Hne].
    + apply (ChainFrom_weaken i'); [lia|]. apply IH; [lia|]. intros j Hj. lia.
    + rewrite scanStep_at_eq in Hs by (apply Hpad; lia). inversion Hs; subst.
      apply IH; [lia|]. intros j Hj. apply Hpad. lia.
Qed.

(** *** The filter keeps a subsequence *)

Section FilterFacts.

Variable ovl : startEnd -> startEnd -> bool.

Lemma filterLoop_acc (all : list encodingMatch) (i : nat)
    (rest filtered : list encodingMatch) :
  filterLoop ovl all i rest filtered = filtered ++ filterLoop ovl all i rest [].
Proof.
  revert i filtered. induction rest as [|m rest IH]; intros i filtered; simpl.
  - now rewrite app_nil_r.
  - destruct ((0 <? i) && outrankedBy ovl all m (i - 1)); [apply IH|].
    destruct ((i + 1 <? List.length all) && outrankedBy ovl all m (i + 1)); [apply IH|].
    rewrite (IH (S i) (filtered ++ [m])), (IH (S i) [m]). now rewrite <- app_assoc.
Qed.

Lemma filterLoop_chain (all : list encodingMatch) (i lo : nat) (rest : list encodingMatch) :
  ChainFrom lo rest -> ChainFrom lo (filterLoop ovl all i rest []).
Proof.
  intros H. revert i. induction H as [|lo m l H1 H2 H3 IH]; intros i; simpl.
  - constructor.
  - assert (Hdrop : ChainFrom lo (filterLoop ovl all (S i) l [])).
    { apply (ChainFrom_weaken (mend m)); [lia|]. apply IH. }
    destruct ((0 <? i) && outrankedBy ovl all m (i - 1)); [exact Hdrop|].
    destruct ((i + 1 <? List.length all) && outrankedBy ovl all m (i + 1)); [exact Hdrop|].
    rewrite filterLoop_acc. cbn. constructor; auto.
Qed.

Lemma findEncodingMatches_chain (data : bytes) :
  ChainFrom 0 (findEncodingMatches ovl data).
Proof.
  unfold findEncodingMatches.
  destruct (List.length data =? 0); [constructor|].
  cbv zeta. pose proof (scanFrom_chain data 0) as H.
  rewrite <- scanMatches_scanFrom in H.
  destruct (List.length (scanMatches data) <=? 1); [exact H|].
  now apply filterLoop_chain.
Qed.

(** What survives the filter sat at an index of [all] where neither
    neighbour outranked it. *)
Lemma filterLoop_In (all : list encodingMatch) (i : nat) (rest : list encodingMatch)
    (m : encodingMatch) :
  In m (filterLoop ovl all i rest []) ->
  exists k, nth_error rest k = Some m /\
    (0 <? i + k) && outrankedBy ovl all m (i + k - 1) = false /\
    (i + k + 1 <? List.length all) && outrankedBy ovl all m (i + k + 1) = false.
Proof.
  revert i. induction rest as [|x rest IH]; intros i Hin; simpl in Hin; [contradiction|].
  assert (Hlater : In m (filterLoop ovl all (S i) rest []) ->
            exists k, nth_error (x :: rest) k = Some m /\
              (0 <? i + k) && outrankedBy ovl all m (i + k - 1) = false /\
              (i + k + 1 <? List.length all) && outrankedBy ovl all m (i + k + 1) = false).
  { intros H. destruct (IH (S i) H) as (k & Hk & H1 & H2). exists (S k).
    replace (i + S k) with (S i + k) by lia. auto. }
  destruct ((0 <? i) && outrankedBy ovl all x (i - 1)) eqn:E1; [auto|].
  destruct ((i + 1 <? List.length all) && outrankedBy ovl all x (i + 1)) eqn:E2; [auto|].
  rewrite filterLoop_acc in Hin. cbn in Hin. destruct Hin as [->|Hin]; [|auto].
  exists 0. rewrite Nat.add_0_r. auto.
Qed.

End FilterFacts.

(** *** The filter under the overlap test of the data model *)

Lemma overlaps_disjoint (a b : startEnd) :
  end_ a <= start b \/ end_ b <= start a -> overlaps a b = false.
Proof. intros H. unfold overlaps. apply Nat.ltb_ge. lia. Qed.

Lemma outrankedBy_chain (lo : nat) (all : list encodingMatch) (j k : nat)
    (m : encodingMatch) :
  ChainFrom lo all -> nth_error all j = Some m -> j <> k ->
  outrankedBy overlaps all m k = false.
Proof.
  intros Hc Hj Hjk. unfold outrankedBy.
  destruct (nth_error all k) as [o|] eqn:Hk; [|reflexivity].
  rewrite overlaps_disjoint; [reflexivity|].
  destruct (Nat.lt_ge_cases j k) as [Hlt|Hge].
  - left. exact (ChainFrom_pairwise lo all j k m o Hc Hlt Hj Hk).
  - right. apply (ChainFrom_pairwise lo all k j o m Hc); auto. lia.
Qed.

Lemma filterLoop_overlaps_id (lo : nat) (all : list encodingMatch) :
  ChainFrom lo all ->
  forall rest i, (forall k, nth_error rest k = nth_error all (i + k)) ->
  filterLoop overlaps all i rest [] = rest.
Proof.
  intros Hc. induction rest as [|m rest IH]; intros i Hnth; simpl; [reflexivity|].
  assert (Hm : nth_error all i = Some m).
  { specialize (Hnth 0). rewrite Nat.add_0_r in Hnth. now rewrite <- Hnth. }
  destruct (0 <? i) eqn:E0; cbn [andb].
  - apply Nat.ltb_lt in E0.
    rewrite (outrankedBy_chain lo all i (i - 1) m Hc Hm) by lia.
    rewrite (outrankedBy_chain lo all i (i + 1) m Hc Hm) by lia.
    rewrite andb_false_r, filterLoop_acc. cbn. f_equal. apply IH.
    intros k. specialize (Hnth (S k)). cbn in Hnth. rewrite Hnth. f_equal. lia.
  - rewrite (outrankedBy_chain lo all i (i + 1) m Hc Hm) by lia.
    rewrite andb_false_r, filterLoop_acc. cbn. f_equal. apply IH.
    intros k. specialize (Hnth (S k)). cbn in Hnth. rewrite Hnth. f_equal. lia.
Qed.

(** Under that test the filter drops no candidate of the scanner. *)
Lemma findEncodingMatches_overlaps (data : bytes) :
  findEncodingMatches overlaps data = scanMatches data.
Proof.
  unfold findEncodingMatches.
  destruct (List.length data =? 0) eqn:E.
  - apply Nat.eqb_eq in E. unfold scanMatches. now rewrite E.
  - cbv zeta. destruct (List.length (scanMatches data) <=? 1); [reflexivity|].
    apply (filterLoop_overlaps_id 0).
    + rewrite scanMatches_scanFrom. apply scanFrom_chain.
    + intros k. reflexivity.
Qed.

(** With at most one candidate the filter is not run at all. *)
Lemma findEncodingMatches_single (ovl : startEnd -> startEnd -> bool) (data : bytes) :
  List.length (scanMatches data) <= 1 ->
  findEncodingMatches ovl data = scanMatches data.
Proof.
  intros H. unfold findEncodingMatches.
  destruct (List.length data =? 0) eqn:E.
  - apply Nat.eqb_eq in E. unfold scanMatches. now rewrite E.
  - cbv zeta. now replace (List.length (scanMatches data) <=? 1) with true
      by (symmetry; now apply Nat.leb_le).
Qed.

(** What the filter returns was a candidate. *)
Lemma findEncodingMatches_incl (ovl : startEnd -> startEnd -> bool) (data : bytes)
    (m : encodingMatch) :
  In m (findEncodingMatches ovl data) -> In m (scanMatches data).
Proof.
  unfold findEncodingMatches.
  destruct (List.length data =? 0); [contradiction|]. cbv zeta.
  destruct (List.length (scanMatches data) <=? 1); [auto|].
  intros H. apply filterLoop_In in H. destruct H as (k & Hk & _).
  eapply nth_error_In; eauto.
Qed.

(** ** Matches of the candidate list *)

Section Emission.

Variable data : bytes.

Local Abbreviation n := (List.length data).

Lemma reaches_scanFrom (fuel i t : nat) :
  reaches data fuel i t = true -> exists pre, scanFrom data i = pre ++ scanFrom data t.
Proof.
  revert i. induction fuel as [|f IH]; intros i H; cbn [reaches] in H;
    apply orb_prop in H; destruct H as [H|H];
    try (apply Nat.eqb_eq in H; subst; now exists []); try discriminate.
  apply andb_prop in H. destruct H as [Hi H]. apply Nat.ltb_lt in Hi.
  destruct (IH _ H) as [pre Hpre]. rewrite (scanFrom_step data i Hi).
  destruct (fst (scanStep data i)) as [m|].
  - exists (m :: pre). now rewrite Hpre.
  - now exists pre.
Qed.

(** What an iteration appends at a cursor position the loop reaches is
    a candidate, and a match under the overlap test of the data model. *)
Lemma emitted_at_cursor (i : nat) (m : encodingMatch) :
  cursorReaches data i = true -> i < n -> fst (scanStep data i) = Some m ->
  In m (scanMatches data) /\ In m (findEncodingMatches overlaps data).
Proof.
  intros Hr Hi Hm. rewrite findEncodingMatches_overlaps.
  enough (In m (scanMatches data)) by auto.
  rewrite scanMatches_scanFrom. destruct (reaches_scanFrom _ _ _ Hr) as [pre ->].
  apply in_or_app. right. rewrite (scanFrom_step data i Hi), Hm. now left.
Qed.

(** A property of what each iteration appends holds of every
    candidate. *)
Lemma scanMatches_forall (Q : encodingMatch -> Prop) :
  (forall i m i', i < n -> scanStep data i = (Some m, i') -> Q m) ->
  forall m, In m (scanMatches data) -> Q m.
Proof.
  intros Hstep m. rewrite scanMatches_scanFrom.
  apply (scanFrom_ind data (fun _ l => In m l -> Q m)).
  - intros i _ [].
  - intros i x i' Hi Hs IH [->|Hin]; [exact (Hstep i m i' Hi Hs)|auto].
  - auto.
Qed.

(** *** The run branch *)

Lemma allBetween_spec (f : ascii -> bool) (i e : nat) :
  allBetween f data i e = true <-> forall x, i <= x < e -> f (byteAt data x) = true.
Proof.
  unfold allBetween. rewrite forallb_forall. split.
  - intros H x Hx. apply H. apply in_seq. lia.
  - intros H x Hx. apply in_seq in Hx. apply H. lia.
Qed.

Lemma allBetween_step (f : ascii -> bool) (i e : nat) :
  i < e -> allBetween f data i e = f (byteAt data i) && allBetween f data (S i) e.
Proof.
  intros H. unfold allBetween. replace (e - i) with (S (e - S i)) by lia. reflexivity.
Qed.

Lemma allBetween_empty (f : ascii -> bool) (i e : nat) :
  e <= i -> allBetween f data i e = true.
Proof. intros H. unfold allBetween. now replace (e - i) with 0 by lia. Qed.

Lemma runLoop_run (k j e : nat) (b : bool) :
  j <= e <= n -> e - j <= k ->
  allBetween isB64Char data j e = true ->
  (e < n -> isB64Char (byteAt data e) = false) ->
  runLoop data k j b = (e, b && allBetween (fun c => negb (isB64NotHex c)) data j e).
Proof.
  revert j b. induction k as [|k IH]; intros j b Hj Hk Hall Hmax.
  - replace j with e by lia. cbn. now rewrite allBetween_empty, andb_true_r by lia.
  - cbn [runLoop]. destruct (Nat.eq_dec j e) as [->|Hne].
    + rewrite allBetween_empty, andb_true_r by lia.
      destruct (e <? n) eqn:E; [|reflexivity]. apply Nat.ltb_lt in E.
      now rewrite (Hmax E).
    + rewrite allBetween_step in Hall by lia. apply andb_prop in Hall.
      destruct Hall as [Hj0 Hall].
      replace (j <? n) with true by (symmetry; apply Nat.ltb_lt; lia).
      rewrite Hj0. cbn [andb]. rewrite (IH (S j)) by (auto; lia).
      rewrite (allBetween_step _ j e) by lia.
      destruct (isB64NotHex (byteAt data j)); cbn [negb andb].
      * now rewrite andb_false_r.
      * reflexivity.
Qed.

Lemma padLoop_padCount (e : nat) :
  e <= n -> padLoop data 2 0 e = (padCount data e, e + padCount data e).
Proof.
  intros He. unfold padCount, padLoop.
  change (0 <? 2) with true. change (1 <? 2) with true. cbn [andb].
  destruct ((e <? n) && Ascii.eqb (byteAt data e) "="); [|now rewrite Nat.add_0_r].
  destruct ((S e <? n) && Ascii.eqb (byteAt data (S e)) "=").
  - f_equal. lia.
  - f_equal. lia.
Qed.

Lemma isRun_inv (i e : nat) :
  isRun data i e = true ->
  i < e /\ e <= n /\ allBetween isB64Char data i e = true /\
  (e < n -> isB64Char (byteAt data e) = false).
Proof.
  unfold isRun. intros H. apply andb_prop in H. destruct H as [H Hmax].
  split_andb.
  repeat match goal with
    | Hx : (_ <? _) = true |- _ => apply Nat.ltb_lt in Hx
    | Hx : (_ <=? _) = true |- _ => apply Nat.leb_le in Hx
    end.
  repeat split; auto. intros He. apply orb_prop in Hmax. destruct Hmax as [Hx|Hx].
  - apply Nat.leb_le in Hx. lia.
  - now apply negb_true_iff in Hx.
Qed.

(** The iteration at the first byte of a run that is not taken as a
    [U+XXXX] group. *)
Lemma scanStep_run (i e : nat) :
  isRun data i e = true ->
  isCodePoint data i && wsOrEnd data (i + 6) = false ->
  scanStep data i =
  (if allBetween isHexChar data i e && (32 <=? e - i) then Some (hexMatch i e)
   else if 16 <=? e - i then Some (base64Match i (e + padCount data e))
   else None, e).
Proof.
  intros Hrun Hcp. apply isRun_inv in Hrun. destruct Hrun as (Hie & Hen & Hall & Hmax).
  pose proof Hall as Hall'. rewrite allBetween_step in Hall' by lia.
  apply andb_prop in Hall'. destruct Hall' as [Hb Hrest].
  destruct (b64_not_special _ Hb) as (Hpc & Hbs & _ & _).
  unfold scanStep, tryPercent, isPercentTriplet. rewrite Hpc. cbn [andb].
  unfold tryCodePoint. rewrite Hcp.
  unfold tryEscape. rewrite Hbs.
  unfold tryRun. rewrite Hb.
  rewrite (runLoop_run (n - S i) (S i) e) by (auto; lia).
  rewrite padLoop_padCount by lia.
  replace (i + (e - i)) with e by lia.
  assert (Hhex : negb (isB64NotHex (byteAt data i)) &&
                 allBetween (fun c => negb (isB64NotHex c)) data (S i) e
                 = allBetween isHexChar data i e).
  { rewrite <- (allBetween_step (fun c => negb (isB64NotHex c))) by lia.
    apply eq_true_iff_eq. rewrite !allBetween_spec. rewrite allBetween_spec in Hall.
    split; intros H x Hx; specialize (H x Hx); specialize (Hall x Hx);
      rewrite b64_split in Hall.
    - apply negb_true_iff in H. rewrite H in Hall. now rewrite orb_false_r in Hall.
    - apply negb_true_iff. now apply hex_not_b64NotHex. }
  rewrite Hhex. unfold hexMatch, base64Match.
  destruct (allBetween isHexChar data i e && (32 <=? e - i)); [reflexivity|].
  destruct (16 <=? e - i); reflexivity.
Qed.

(** A run of 16 bytes or more is never taken as a [U+XXXX] group: its
    seventh byte is not whitespace. *)
Lemma long_run_not_codePoint (i e : nat) :
  isRun data i e = true -> 7 <= e - i ->
  isCodePoint data i && wsOrEnd data (i + 6) = false.
Proof.
  intros Hrun Hlen. apply isRun_inv in Hrun. destruct Hrun as (Hie & Hen & Hall & Hmax).
  rewrite allBetween_spec in Hall. specialize (Hall (i + 6) ltac:(lia)).
  unfold wsOrEnd. replace (n <=? i + 6) with false by (symmetry; apply Nat.leb_gt; lia).
  destruct (isWhitespace (byteAt data (i + 6))) eqn:W.
  - apply ws_not_b64 in W. congruence.
  - apply andb_false_r.
Qed.

(** From a byte of the alphabet on there is a run. *)
Lemma run_exists (i : nat) :
  i < n -> isB64Char (byteAt data i) = true -> exists e, isRun data i e = true.
Proof.
  intros Hi Hb.
  enough (H : forall d j, d = n - j -> i < j <= n ->
                allBetween isB64Char data i j = true ->
                exists e, isRun data i e = true).
  { apply (H (n - S i) (S i) eq_refl ltac:(lia)).
    rewrite allBetween_step, allBetween_empty, Hb by lia. reflexivity. }
  induction d as [|d IH]; intros j Hd Hj Hall.
  - exists j. unfold isRun. rewrite Hall.
    replace (i <? j) with true by (symmetry; apply Nat.ltb_lt; lia).
    replace (j <=? n) with true by (symmetry; apply Nat.leb_le; lia).
    replace (n <=? j) with true by (symmetry; apply Nat.leb_le; lia). reflexivity.
  - destruct (isB64Char (byteAt data j)) eqn:Hbj.
    + apply (IH (S j)); try lia.
      apply allBetween_spec. intros x Hx. destruct (Nat.eq_dec x j) as [->|]; [exact Hbj|].
      rewrite allBetween_spec in Hall. apply Hall. lia.
    + exists j. unfold isRun. rewrite Hall, Hbj.
      replace (i <? j) with true by (symmetry; apply Nat.ltb_lt; lia).
      replace (j <=? n) with true by (symmetry; apply Nat.leb_le; lia).
      cbn. apply orb_true_r.
Qed.

(** Every Base64 candidate spans a run of 16 bytes or more and the
    padding that follows it; every Hex candidate spans an all-hex run
    of 32 bytes or more and no padding. *)
Lemma run_matches_sound (i : nat) (m : encodingMatch) (i' : nat) :
  i < n -> scanStep data i = (Some m, i') ->
  (mkind m = base64Kind ->
     exists e, isRun data i e = true /\ 16 <= e - i /\
       m = base64Match i (e + padCount data e)) /\
  (mkind m = hexKind ->
     exists e, isRun data i e = true /\ 32 <= e - i /\
       allBetween isHexChar data i e = true /\ m = hexMatch i e).
Proof.
  intros Hi Hs. pose proof (scanStep_inv data i _ _ Hs) as Hc.
  remember (Some m) as om eqn:Hom in Hc.
  destruct Hc as [Hp|Hp Hcp Hw|Hb H7 Hd|Hb Hd H5 Hsg
                 |j allHex eqCount e Hp Hcp Hb Hr Hq|];
    try (inversion Hom; subst m; split; intros Hk; vm_compute in Hk; discriminate Hk).
  clear Hr Hq Hom.
  destruct (run_exists i Hi Hb) as [r Hrun].
  rewrite (scanStep_run i r Hrun Hcp) in Hs.
  destruct (allBetween isHexChar data i r && (32 <=? r - i)) eqn:Hx.
  - inversion Hs; subst m. split; intros Hk; [vm_compute in Hk; discriminate Hk|].
    apply andb_prop in Hx. destruct Hx as [Hx1 Hx2]. apply Nat.leb_le in Hx2.
    exists r. subst. auto.
  - destruct (16 <=? r - i) eqn:H16; inversion Hs; subst m.
    split; intros Hk; [|vm_compute in Hk; discriminate Hk].
    apply Nat.leb_le in H16. exists r. subst. auto.
Qed.

(** *** What each kind of candidate comes from *)

Lemma step_kinds (i : nat) (m : encodingMatch) (i' : nat) :
  i < n -> scanStep data i = (Some m, i') ->
  (mkind m = percentKind ->
     isPercentTriplet data i = true /\
     m = percentMatch i (percentScan data (n - (i + 3)) (i + 3) (i + 3)) /\ i' = mend m) /\
  (mkind m = unicodeKind ->
     (isCodePoint data i = true /\ wsOrEnd data (i + 6) = true /\
      m = unicodeMatch i (codePointLoop data n (i + 6) (i + 6)) /\ i' = mend m) \/
     (byteAt data i = backslash /\ i' = mend m /\
      ((i + 7 < n /\ doubleEscapeChars data i = true /\
        m = unicodeMatch i (escapeLoop data n (i + 7) (i + 7))) \/
       (i + 5 < n /\ singleEscapeChars data i = true /\
        m = unicodeMatch i (escapeLoop data n (i + 6) (i + 6)))))).
Proof.
  intros Hi Hs. pose proof (scanStep_inv data i _ _ Hs) as Hc.
  remember (Some m) as om eqn:Hom in Hc.
  destruct Hc as [Hp|Hp Hcp Hw|Hb H7 Hd|Hb Hd H5 Hsg
                 |j allHex eqCount e Hp Hcp Hb Hr Hq|].
  - inversion Hom; subst m. split; intros Hk; [|vm_compute in Hk; discriminate Hk].
    cbn. auto.
  - inversion Hom; subst m. split; intros Hk; [vm_compute in Hk; discriminate Hk|].
    left. cbn. auto.
  - apply Ascii.eqb_eq in Hb. inversion Hom; subst m. split; intros Hk;
      [vm_compute in Hk; discriminate Hk|]. right. cbn. auto 10.
  - apply Ascii.eqb_eq in Hb. inversion Hom; subst m. split; intros Hk;
      [vm_compute in Hk; discriminate Hk|]. right. cbn. auto 10.
  - destruct (allHex && (32 <=? j - i)).
    + inversion Hom; subst m. split; intros Hk; vm_compute in Hk; discriminate Hk.
    + destruct (16 <=? j - i); [|discriminate].
      inversion Hom; subst m. split; intros Hk; vm_compute in Hk; discriminate Hk.
  - discriminate.
Qed.

(** *** The code-point branch *)

Lemma skipWhitespace_spec (k ws : nat) :
  ws <= n -> n - ws <= k ->
  let r := skipWhitespace data k ws in
  ws <= r <= n /\ allBetween isWhitespace data ws r = true /\
  (r < n -> isWhitespace (byteAt data r) = false).
Proof.
  revert ws. induction k as [|k IH]; intros ws Hw Hk; cbn [skipWhitespace].
  - cbv zeta. rewrite allBetween_empty by lia. repeat split; try lia.
  - destruct (ws <? n) eqn:E; cbn [andb].
    + apply Nat.ltb_lt in E. destruct (isWhitespace (byteAt data ws)) eqn:W.
      * destruct (IH (S ws) ltac:(lia) ltac:(lia)) as (H1 & H2 & H3).
        cbv zeta. repeat split; try lia; auto.
        rewrite allBetween_step, W, H2 by lia. reflexivity.
      * cbv zeta. rewrite allBetween_empty by lia. repeat split; try lia. auto.
    + apply Nat.ltb_ge in E. cbv zeta. rewrite allBetween_empty by lia.
      repeat split; try lia.
Qed.

Lemma codePoint_not_ws (ws : nat) :
  isCodePoint data ws = true -> isWhitespace (byteAt data ws) = false /\ ws + 5 < n.
Proof.
  intros H. pose proof (isCodePoint_bound data ws H). split; [|lia].
  unfold isCodePoint in H. split_andb.
  match goal with Hu : Ascii.eqb (byteAt data ws) "U" = true |- _ =>
    apply Ascii.eqb_eq in Hu; rewrite Hu end. reflexivity.
Qed.

Lemma codePointLoop_spec (fuel j i : nat) :
  n - j <= fuel -> j <= n -> CodePointSpan data i j ->
  CodePointSpan data i (codePointLoop data fuel j j) /\
  spanMaximal data (codePointLoop data fuel j j).
Proof.
  revert j. induction fuel as [|f IH]; intros j Hf Hj Hspan.
  - cbn [codePointLoop]. split; [exact Hspan|].
    intros ws Hws _. destruct (isCodePoint data ws) eqn:C; [|reflexivity].
    apply isCodePoint_bound in C. lia.
  - cbn [codePointLoop]. destruct (j <? n) eqn:E.
    + apply Nat.ltb_lt in E.
      destruct (isWhitespace (byteAt data j)) eqn:W; cbn [negb].
      * pose proof (skipWhitespace_spec (n - j) j ltac:(lia) ltac:(lia)) as Hsk.
        cbv zeta in Hsk. set (ws := skipWhitespace data (n - j) j) in *.
        destruct Hsk as (Hr & Hall & Hstop).
        assert (Hlt : j < ws).
        { destruct (Nat.eq_dec ws j) as [Eq|]; [|lia].
          rewrite Eq in Hstop. rewrite (Hstop E) in W. discriminate. }
        destruct (isCodePoint data ws && wsOrEnd data (ws + 6)) eqn:C.
        -- apply andb_prop in C. destruct C as [C1 C2].
           pose proof (isCodePoint_bound data ws C1).
           apply IH; try lia. now apply (SpanNext data i j ws).
        -- split; [exact Hspan|].
           intros ws' Hws' Hall'.
           destruct (isCodePoint data ws') eqn:C'; [|reflexivity].
           destruct (codePoint_not_ws ws' C') as [Wn Hb].
           assert (ws' = ws).
           { rewrite allBetween_spec in Hall, Hall'.
             destruct (Nat.lt_trichotomy ws' ws) as [Hl|[He|Hg]]; [|exact He|].
             - specialize (Hall ws' ltac:(lia)). congruence.
             - specialize (Hall' ws ltac:(lia)). rewrite Hstop in Hall' by lia.
               discriminate. }
           subst ws'. rewrite C' in C. exact C.
      * split; [exact Hspan|].
        intros ws Hws Hall. rewrite allBetween_spec in Hall.
        specialize (Hall j ltac:(lia)). congruence.
    + apply Nat.ltb_ge in E. split; [exact Hspan|].
      intros ws Hws _. destruct (isCodePoint data ws) eqn:C; [|reflexivity].
      apply isCodePoint_bound in C. lia.
Qed.

Lemma CodePointSpan_ends (i e : nat) :
  CodePointSpan data i e ->
  isCodePoint data i = true /\ wsOrEnd data (i + 6) = true /\
  i + 6 <= e <= n /\ isCodePoint data (e - 6) = true /\ wsOrEnd data e = true.
Proof.
  induction 1 as [i Hc Hw|i e ws Hspan IH Hlt Hall Hc Hw].
  - pose proof (isCodePoint_bound data i Hc).
    replace (i + 6 - 6) with i by lia. repeat split; auto; lia.
  - destruct IH as (H1 & H2 & H3 & _).
    pose proof (isCodePoint_bound data ws Hc).
    replace (ws + 6 - 6) with ws by lia. repeat split; auto; lia.
Qed.

(** *** The percent branch *)

Lemma percentTriplet_bytes (p : nat) :
  isPercentTriplet data p = true ->
  byteAt data p = "%" /\ isHexChar (byteAt data (p + 1)) = true /\
  isHexChar (byteAt data (p + 2)) = true /\ p + 2 < n.
Proof.
  intros H. pose proof (isPercentTriplet_bound data p H).
  unfold isPercentTriplet, hexAt in H. split_andb.
  match goal with Hb : Ascii.eqb _ "%" = true |- _ => apply Ascii.eqb_eq in Hb end.
  auto.
Qed.

Lemma hex_not_newline (c : ascii) : isHexChar c = true -> c <> newline.
Proof. intros H ->. discriminate. Qed.

Lemma hex_not_percent (c : ascii) : isHexChar c = true -> c <> "%".
Proof. intros H ->. discriminate. Qed.

(** The inner loop returns [last] or the end of a triplet of the line,
    and no triplet of the line ends after what it returns. *)
Lemma percentScan_spec (k j last : nat) :
  n - j <= k -> last <= n -> last <= j + 3 ->
  let e := percentScan data k j last in
  (e = last \/
   exists p, j <= p /\ e = p + 3 /\ isPercentTriplet data p = true /\
     forall x, j <= x <= p -> byteAt data x <> newline) /\
  (forall p, j <= p -> isPercentTriplet data p = true ->
     (forall x, j <= x <= p -> byteAt data x <> newline) -> p + 3 <= e).
Proof.
  revert j last. induction k as [|k IH]; intros j last Hk Hl Hj; cbn [percentScan]; cbv zeta.
  - split; [now left|]. intros p Hp Ht _. apply isPercentTriplet_bound in Ht. lia.
  - destruct ((j <? n) && negb (Ascii.eqb (byteAt data j) newline)) eqn:E.
    + apply andb_prop in E. destruct E as [Ejn Enl]. apply Nat.ltb_lt in Ejn.
      apply negb_true_iff, Ascii.eqb_neq in Enl.
      set (last' := if isPercentTriplet data j then j + 3 else last).
      assert (Hl' : last' <= n /\ last' <= S j + 3 /\ last <= last').
      { unfold last'. destruct (isPercentTriplet data j) eqn:T; [|lia].
        apply isPercentTriplet_bound in T. lia. }
      destruct (IH (S j) last' ltac:(lia) ltac:(lia) ltac:(lia)) as [IH1 IH2].
      split.
      * destruct IH1 as [Heq|(p & Hp & Hep & Ht & Hnl)].
        -- rewrite Heq. unfold last'. destruct (isPercentTriplet data j) eqn:T; [|now left].
           right. exists j. repeat split; auto. intros x Hx.
           now replace x with j by lia.
        -- right. exists p. repeat split; auto; try lia. intros x Hx.
           destruct (Nat.eq_dec x j) as [->|]; [exact Enl|]. apply Hnl. lia.
      * intros p Hp Ht Hnl. destruct (Nat.eq_dec p j) as [->|Hne].
        -- pose proof (percentScan_bounds data k (S j) last' ltac:(lia) ltac:(lia)).
           unfold last' in *. rewrite Ht in *. lia.
        -- apply IH2; auto; try lia. intros x Hx. apply Hnl. lia.
    + split; [now left|]. intros p Hp Ht Hnl.
      apply isPercentTriplet_bound in Ht.
      apply andb_false_iff in E. destruct E as [E|E].
      * apply Nat.ltb_ge in E. lia.
      * apply negb_false_iff, Ascii.eqb_eq in E. exfalso. apply (Hnl j); [lia|exact E].
Qed.

(** Where a Percent candidate starts and ends. *)
Lemma percent_match_shape (i : nat) :
  isPercentTriplet data i = true ->
  let e := percentScan data (n - (i + 3)) (i + 3) (i + 3) in
  i + 3 <= e <= n /\ isPercentTriplet data (e - 3) = true /\
  (forall x, i <= x < e -> byteAt data x <> newline) /\
  (forall p, i + 3 <= p -> isPercentTriplet data p = true ->
     (forall x, i + 3 <= x <= p -> byteAt data x <> newline) -> p + 3 <= e).
Proof.
  intros Ht. cbv zeta.
  destruct (percentTriplet_bytes i Ht) as (B0 & B1 & B2 & Hb).
  pose proof (percentScan_bounds data (n - (i + 3)) (i + 3) (i + 3) ltac:(lia) ltac:(lia))
    as Hbd.
  destruct (percentScan_spec (n - (i + 3)) (i + 3) (i + 3) ltac:(lia) ltac:(lia) ltac:(lia))
    as [H1 H2].
  assert (Hfirst : forall x, i <= x < i + 3 -> byteAt data x <> newline).
  { intros x Hx. destruct (Nat.eq_dec x i) as [->|]; [rewrite B0; discriminate|].
    destruct (Nat.eq_dec x (i + 1)) as [->|]; [now apply hex_not_newline|].
    replace x with (i + 2) by lia. now apply hex_not_newline. }
  split; [lia|]. split; [|split].
  - destruct H1 as [->|(p & Hp & -> & Hpt & _)].
    + now replace (i + 3 - 3) with i by lia.
    + now replace (p + 3 - 3) with p by lia.
  - intros x Hx. destruct (Nat.lt_ge_cases x (i + 3)) as [Hlt|Hge]; [apply Hfirst; lia|].
    destruct H1 as [Heq|(p & Hp & Heq & Hpt & Hnl)]; [lia|].
    destruct (Nat.le_gt_cases x p) as [Hle|Hgt]; [apply Hnl; lia|].
    destruct (percentTriplet_bytes p Hpt) as (_ & P1 & P2 & _).
    destruct (Nat.eq_dec x (p + 1)) as [->|]; [now apply hex_not_newline|].
    replace x with (p + 2) by lia. now apply hex_not_newline.
  - exact H2.
Qed.

(** *** No '%' is stepped over outside a Percent candidate *)

Lemma ws_not_percent (c : ascii) : isWhitespace c = true -> c <> "%".
Proof. intros H ->. discriminate. Qed.

Lemma b64_not_percent (c : ascii) : isB64Char c = true -> c <> "%".
Proof. intros H ->. discriminate. Qed.

Lemma codePoint_no_percent (i x : nat) :
  isCodePoint data i = true -> i <= x < i + 6 -> byteAt data x <> "%".
Proof.
  intros H Hx. unfold isCodePoint, hexAt in H. split_andb.
  repeat match goal with
    | Hb : Ascii.eqb _ _ = true |- _ => apply Ascii.eqb_eq in Hb
    end.
  destruct (Nat.eq_dec x i) as [->|]; [known_byte|].
  destruct (Nat.eq_dec x (i + 1)) as [->|]; [known_byte|].
  destruct (Nat.eq_dec x (i + 2)) as [->|]; [now apply hex_not_percent|].
  destruct (Nat.eq_dec x (i + 3)) as [->|]; [now apply hex_not_percent|].
  destruct (Nat.eq_dec x (i + 4)) as [->|]; [now apply hex_not_percent|].
  replace x with (i + 5) by lia. now apply hex_not_percent.
Qed.

Lemma CodePointSpan_no_percent (i e : nat) :
  CodePointSpan data i e -> forall x, i <= x < e -> byteAt data x <> "%".
Proof.
  induction 1 as [i Hc Hw|i e ws Hspan IH Hlt Hall Hc Hw]; intros x Hx.
  - now apply (codePoint_no_percent i).
  - destruct (Nat.lt_ge_cases x e) as [H1|H1]; [apply IH; lia|].
    destruct (Nat.lt_ge_cases x ws) as [H2|H2].
    + rewrite allBetween_spec in Hall. apply ws_not_percent, Hall. lia.
    + apply (codePoint_no_percent ws); auto. lia.
Qed.

Lemma isU_not_percent (c : ascii) : isU c = true -> c <> "%".
Proof. intros H ->. discriminate. Qed.

Lemma singleEscape_no_percent (j x : nat) :
  singleEscapeChars data j = true -> j <= x < j + 6 -> byteAt data x <> "%".
Proof.
  intros H Hx. unfold singleEscapeChars, hexAt in H. split_andb.
  match goal with Hb : Ascii.eqb _ backslash = true |- _ => apply Ascii.eqb_eq in Hb end.
  destruct (Nat.eq_dec x j) as [->|]; [known_byte|].
  destruct (Nat.eq_dec x (j + 1)) as [->|]; [now apply isU_not_percent|].
  destruct (Nat.eq_dec x (j + 2)) as [->|]; [now apply hex_not_percent|].
  destruct (Nat.eq_dec x (j + 3)) as [->|]; [now apply hex_not_percent|].
  destruct (Nat.eq_dec x (j + 4)) as [->|]; [now apply hex_not_percent|].
  replace x with (j + 5) by lia. now apply hex_not_percent.
Qed.

Lemma doubleEscape_no_percent (j x : nat) :
  doubleEscapeChars data j = true -> j <= x < j + 7 -> byteAt data x <> "%".
Proof.
  intros H Hx. unfold doubleEscapeChars, hexAt in H. split_andb.
  repeat match goal with
    | Hb : Ascii.eqb _ backslash = true |- _ => apply Ascii.eqb_eq in Hb
    end.
  destruct (Nat.eq_dec x j) as [->|]; [known_byte|].
  destruct (Nat.eq_dec x (j + 1)) as [->|]; [known_byte|].
  destruct (Nat.eq_dec x (j + 2)) as [->|]; [now apply isU_not_percent|].
  destruct (Nat.eq_dec x (j + 3)) as [->|]; [now apply hex_not_percent|].
  destruct (Nat.eq_dec x (j + 4)) as [->|]; [now apply hex_not_percent|].
  destruct (Nat.eq_dec x (j + 5)) as [->|]; [now apply hex_not_percent|].
  replace x with (j + 6) by lia. now apply hex_not_percent.
Qed.

Lemma escapeLoop_no_percent (fuel j : nat) :
  forall x, j <= x < escapeLoop data fuel j j -> byteAt data x <> "%".
Proof.
  revert j. induction fuel as [|f IH]; intros j x Hx; cbn [escapeLoop] in Hx; [lia|].
  destruct (j <? n); [|lia].
  destruct ((j + 6 <? n) && doubleEscapeChars data j) eqn:D.
  - apply andb_prop in D. destruct D as [_ D].
    destruct (Nat.lt_ge_cases x (j + 7)) as [H|H].
    + apply (doubleEscape_no_percent j); auto. lia.
    + apply (IH (j + 7)). lia.
  - destruct ((j + 5 <? n) && singleEscapeChars data j) eqn:S1; [|lia].
    apply andb_prop in S1. destruct S1 as [_ S1].
    destruct (Nat.lt_ge_cases x (j + 6)) as [H|H].
    + apply (singleEscape_no_percent j); auto. lia.
    + apply (IH (j + 6)). lia.
Qed.

(** A triplet that an iteration steps over lies in the Percent
    candidate this iteration appends. *)
Lemma step_percent_cover (i : nat) (om : option encodingMatch) (i' p : nat) :
  i < n -> scanStep data i = (om, i') ->
  i <= p < i' -> isPercentTriplet data p = true ->
  exists m, om = Some m /\ mkind m = percentKind /\ mstart m <= p /\ p + 3 <= mend m.
Proof.
  intros Hi Hs Hp Ht.
  destruct (percentTriplet_bytes p Ht) as (Bp & _ & _ & _).
  pose proof (scanStep_inv data i _ _ Hs) as Hc.
  destruct Hc as [Hpt|Hpt Hcp Hw|Hb H7 Hd|Hb Hd H5 Hsg
                 |j allHex eqCount e Hpt Hcp Hb Hr Hq|Hpt Hcp He Hb].
  - subst e. destruct (percent_match_shape i Hpt) as (Hbd & _ & Hnl & Hlast).
    destruct (percentTriplet_bytes i Hpt) as (_ & B1 & B2 & _).
    eexists. split; [reflexivity|]. split; [reflexivity|]. cbn. split; [lia|].
    destruct (Nat.eq_dec p i) as [->|]; [lia|].
    destruct (Nat.eq_dec p (i + 1)) as [->|]; [now apply hex_not_percent in B1|].
    destruct (Nat.eq_dec p (i + 2)) as [->|]; [now apply hex_not_percent in B2|].
    apply Hlast; auto; try lia. intros x Hx. apply Hnl. lia.
  - subst e. exfalso.
    pose proof (isCodePoint_bound data i Hcp).
    destruct (codePointLoop_spec n (i + 6) i ltac:(lia) ltac:(lia)
                (SpanFirst data i Hcp Hw)) as [Hspan _].
    exact (CodePointSpan_no_percent _ _ Hspan p Hp Bp).
  - subst e. exfalso.
    destruct (Nat.lt_ge_cases p (i + 7)) as [H|H].
    + exact (doubleEscape_no_percent i p Hd ltac:(lia) Bp).
    + exact (escapeLoop_no_percent n (i + 7) p ltac:(lia) Bp).
  - subst e. exfalso.
    destruct (Nat.lt_ge_cases p (i + 6)) as [H|H].
    + exact (singleEscape_no_percent i p Hsg ltac:(lia) Bp).
    + exact (escapeLoop_no_percent n (i + 6) p ltac:(lia) Bp).
  - exfalso. destruct (run_exists i Hi Hb) as [r Hrun].
    rewrite (scanStep_run i r Hrun Hcp) in Hs. inversion Hs; subst.
    apply isRun_inv in Hrun. destruct Hrun as (_ & _ & Hall & _).
    rewrite allBetween_spec in Hall. exact (b64_not_percent _ (Hall p Hp) Bp).
  - replace p with i in Ht by lia. congruence.
Qed.

(** Every triplet of the text lies in a Percent candidate. *)
Lemma percent_covered (p : nat) :
  isPercentTriplet data p = true ->
  exists m, In m (scanMatches data) /\ mkind m = percentKind /\
    mstart m <= p /\ p + 3 <= mend m.
Proof.
  intros Ht. rewrite scanMatches_scanFrom.
  enough (H : forall i, i <= p ->
                exists m, In m (scanFrom data i) /\ mkind m = percentKind /\
                  mstart m <= p /\ p + 3 <= mend m) by (apply (H 0); lia).
  intros i. apply (scanFrom_ind data (fun i l => i <= p ->
    exists m, In m l /\ mkind m = percentKind /\ mstart m <= p /\ p + 3 <= mend m)).
  - intros j Hj Hjp. apply isPercentTriplet_bound in Ht. lia.
  - intros j m j' Hj Hs IH Hjp.
    destruct (Nat.lt_ge_cases p j') as [Hlt|Hge].
    + destruct (step_percent_cover j _ j' p Hj Hs ltac:(lia) Ht) as (m' & Hm' & Hk & H1 & H2).
      inversion Hm'; subst m'. exists m. cbn. auto.
    + destruct (IH Hge) as (m' & Hin & Hrest). exists m'. cbn. auto.
  - intros j j' Hj Hs IH Hjp.
    destruct (Nat.lt_ge_cases p j') as [Hlt|Hge].
    + destruct (step_percent_cover j _ j' p Hj Hs ltac:(lia) Ht) as (m' & Hm' & _).
      discriminate.
    + exact (IH Hge).
Qed.

(** *** The escape branch *)

Lemma doubleEscape_test (j : nat) :
  (j + 6 <? n) && doubleEscapeChars data j = doubleEscapeAt data j.
Proof.
  unfold doubleEscapeChars, doubleEscapeAt, hexQuad, hexAt.
  replace (j + 3 + 4 <=? n) with (j + 6 <? n)
    by (destruct (j + 6 <? n) eqn:E; symmetry;
        [apply Nat.ltb_lt in E; apply Nat.leb_le|apply Nat.ltb_ge in E; apply Nat.leb_gt];
        lia).
  replace (j + 3 + 1) with (j + 4) by lia. replace (j + 3 + 2) with (j + 5) by lia.
  replace (j + 3 + 3) with (j + 6) by lia.
  destruct (j + 6 <? n), (Ascii.eqb (byteAt data j) backslash),
    (Ascii.eqb (byteAt data (j + 1)) backslash), (isU (byteAt data (j + 2))),
    (isHexChar (byteAt data (j + 3))), (isHexChar (byteAt data (j + 4))),
    (isHexChar (byteAt data (j + 5))), (isHexChar (byteAt data (j + 6))); reflexivity.
Qed.

Lemma singleEscape_test (j : nat) :
  (j + 5 <? n) && singleEscapeChars data j = singleEscapeAt data j.
Proof.
  unfold singleEscapeChars, singleEscapeAt, hexQuad, hexAt.
  replace (j + 2 + 4 <=? n) with (j + 5 <? n)
    by (destruct (j + 5 <? n) eqn:E; symmetry;
        [apply Nat.ltb_lt in E; apply Nat.leb_le|apply Nat.ltb_ge in E; apply Nat.leb_gt];
        lia).
  replace (j + 2 + 1) with (j + 3) by lia. replace (j + 2 + 2) with (j + 4) by lia.
  replace (j + 2 + 3) with (j + 5) by lia.
  destruct (j + 5 <? n), (Ascii.eqb (byteAt data j) backslash),
    (isU (byteAt data (j + 1))),
    (isHexChar (byteAt data (j + 2))), (isHexChar (byteAt data (j + 3))),
    (isHexChar (byteAt data (j + 4))), (isHexChar (byteAt data (j + 5))); reflexivity.
Qed.

Lemma escapeLenAt_bound (j : nat) : 0 < escapeLenAt data j -> j + escapeLenAt data j <= n.
Proof.
  unfold escapeLenAt. destruct (doubleEscapeAt data j) eqn:D.
  - intros _. unfold doubleEscapeAt in D. split_andb.
    match goal with Hq : hexQuad _ _ = true |- _ => apply hexQuad_bound in Hq end. lia.
  - destruct (singleEscapeAt data j) eqn:S1; [|lia].
    intros _. unfold singleEscapeAt in S1. split_andb.
    match goal with Hq : hexQuad _ _ = true |- _ => apply hexQuad_bound in Hq end. lia.
Qed.

(** The merging loop runs to the end of the escapes that follow one
    another. *)
Lemma escapeLoop_spec (fuel j i : nat) :
  n - j <= fuel -> EscapeSeq data i j ->
  EscapeSeq data i (escapeLoop data fuel j j) /\
  escapeLenAt data (escapeLoop data fuel j j) = 0.
Proof.
  revert j. induction fuel as [|f IH]; intros j Hf Hseq; cbn [escapeLoop].
  - split; [exact Hseq|].
    destruct (escapeLenAt data j) eqn:L; [reflexivity|].
    pose proof (escapeLenAt_bound j ltac:(lia)). lia.
  - destruct (j <? n) eqn:E.
    + rewrite doubleEscape_test, singleEscape_test.
      destruct (doubleEscapeAt data j) eqn:D.
      * assert (L : escapeLenAt data j = 7) by (unfold escapeLenAt; now rewrite D).
        apply IH; [lia|]. rewrite <- L. apply EscapeSnoc; [exact Hseq|lia].
      * destruct (singleEscapeAt data j) eqn:S1.
        -- assert (L : escapeLenAt data j = 6) by (unfold escapeLenAt; now rewrite D, S1).
           apply IH; [lia|]. rewrite <- L. apply EscapeSnoc; [exact Hseq|lia].
        -- split; [exact Hseq|]. unfold escapeLenAt. now rewrite D, S1.
    + apply Nat.ltb_ge in E. split; [exact Hseq|].
      destruct (escapeLenAt data j) eqn:L; [reflexivity|].
      pose proof (escapeLenAt_bound j ltac:(lia)). lia.
Qed.

(** At a backslash only the escape branch can append a match. *)
Lemma scanStep_at_backslash (i : nat) :
  byteAt data i = backslash ->
  scanStep data i =
  match tryEscape data i with
  | Some (m, i') => (Some m, i')
  | None => (None, S i)
  end.
Proof.
  intros Hb.
  unfold scanStep, tryPercent, isPercentTriplet, tryCodePoint, isCodePoint, tryRun.
  rewrite Hb.
  change (Ascii.eqb backslash "%") with false.
  change (Ascii.eqb backslash "U") with false.
  change (isB64Char backslash) with false.
  cbn [andb]. rewrite andb_false_r. cbn [andb]. reflexivity.
Qed.

(** The iteration at an escape, except for the double form that ends
    the text. *)
Lemma scanStep_escape (i : nat) :
  0 < escapeLenAt data i ->
  ~ (doubleEscapeAt data i = true /\ i + 7 = n) ->
  exists e, scanStep data i = (Some (unicodeMatch i e), e) /\
    EscapeSeq data i e /\ escapeLenAt data e = 0.
Proof.
  intros Hlen Hnot.
  pose proof (escapeLenAt_bound i Hlen) as Hbd.
  assert (Hb : byteAt data i = backslash).
  { unfold escapeLenAt in Hlen.
    destruct (doubleEscapeAt data i) eqn:D.
    - unfold doubleEscapeAt in D. split_andb.
      match goal with Hx : Ascii.eqb (byteAt data i) _ = true |- _ =>
        now apply Ascii.eqb_eq in Hx end.
    - destruct (singleEscapeAt data i) eqn:S1; [|lia].
      unfold singleEscapeAt in S1. split_andb.
      match goal with Hx : Ascii.eqb (byteAt data i) _ = true |- _ =>
        now apply Ascii.eqb_eq in Hx end. }
  rewrite (scanStep_at_backslash i Hb). unfold tryEscape. rewrite Hb.
  change (Ascii.eqb backslash backslash) with true. cbv iota.
  pose proof (doubleEscape_test i) as Hd. pose proof (singleEscape_test i) as Hs.
  unfold escapeLenAt in Hlen, Hbd.
  destruct (doubleEscapeAt data i) eqn:D.
  - assert (H7 : i + 7 < n) by (destruct (Nat.eq_dec (i + 7) n); [tauto|lia]).
    replace (i + 6 <? n) with true in Hd by (symmetry; apply Nat.ltb_lt; lia).
    cbn [andb] in Hd. rewrite Hd.
    replace (i + 7 <? n) with true by (symmetry; now apply Nat.ltb_lt). cbn [andb].
    assert (L : escapeLenAt data i = 7) by (unfold escapeLenAt; now rewrite D).
    pose proof (EscapeOne data i ltac:(lia)) as Hone. rewrite L in Hone.
    destruct (escapeLoop_spec n (i + 7) i ltac:(lia) Hone) as [H1 H2].
    eexists. split; [reflexivity|]. auto.
  - destruct (singleEscapeAt data i) eqn:S1; [|lia].
    assert (Hdc : (i + 7 <? n) && doubleEscapeChars data i = false).
    { destruct (i + 7 <? n) eqn:E7; [|reflexivity]. apply Nat.ltb_lt in E7.
      replace (i + 6 <? n) with true in Hd by (symmetry; apply Nat.ltb_lt; lia).
      cbn [andb] in Hd |- *. exact Hd. }
    rewrite Hdc, Hs.
    assert (L : escapeLenAt data i = 6) by (unfold escapeLenAt; now rewrite D, S1).
    pose proof (EscapeOne data i ltac:(lia)) as Hone. rewrite L in Hone.
    destruct (escapeLoop_spec n (i + 6) i ltac:(lia) Hone) as [H1 H2].
    eexists. split; [reflexivity|]. auto.
Qed.

End Emission.

Lemma allBetween_whole (f : ascii -> bool) (data : bytes) :
  allBetween f data 0 (List.length data) = forallb f data.
Proof.
  apply eq_true_iff_eq. rewrite allBetween_spec, forallb_forall. split.
  - intros H c Hc. destruct (In_nth _ _ zero Hc) as (x & Hx & <-). apply H. lia.
  - intros H x Hx. apply H. apply nth_In. lia.
Qed.

Lemma isCodePointText_scan (data : bytes) :
  forallb isB64Char data = true ->
  isCodePoint data 0 && wsOrEnd data 6 = isCodePointText data.
Proof.
  intros Hall. unfold isCodePointText, isCodePoint, wsOrEnd, codePointAt, hexQuad, hexAt.
  cbn [Nat.add].
  destruct (Nat.lt_ge_cases 6 (List.length data)) as [H6|H6].
  - replace (List.length data =? 6) with false by (symmetry; apply Nat.eqb_neq; lia).
    replace (List.length data <=? 6) with false by (symmetry; apply Nat.leb_gt; lia).
    rewrite <- allBetween_whole, allBetween_spec in Hall.
    specialize (Hall 6 ltac:(lia)).
    destruct (isWhitespace (byteAt data 6)) eqn:W.
    + apply ws_not_b64 in W. congruence.
    + cbn. apply andb_false_r.
  - replace (List.length data <=? 6) with true by (symmetry; apply Nat.leb_le; lia).
    cbn [orb]. rewrite andb_true_r.
    destruct (Nat.eq_dec (List.length data) 6) as [E|E].
    + rewrite E. cbn.
      destruct (Ascii.eqb (byteAt data 0) "U"), (Ascii.eqb (byteAt data 1) "+"),
        (isHexChar (byteAt data 2)), (isHexChar (byteAt data 3)),
        (isHexChar (byteAt data 4)), (isHexChar (byteAt data 5)); reflexivity.
    + replace (List.length data =? 6) with false by (symmetry; now apply Nat.eqb_neq).
      replace (5 <? List.length data) with false by (symmetry; apply Nat.ltb_ge; lia).
      reflexivity.
Qed.

(** A text made of base64-alphabet bytes only is one run, unless it is
    one [U+XXXX] group. *)
Lemma whole_text_run (data : bytes) :
  data <> [] -> forallb isB64Char data = true ->
  scanMatches data =
  if isCodePointText data then [unicodeMatch 0 6]
  else if forallb isHexChar data && (32 <=? List.length data)
  then [hexMatch 0 (List.length data)]
  else if 16 <=? List.length data then [base64Match 0 (List.length data)]
  else [].
Proof.
  intros Hne Hall.
  assert (Hn : 0 < List.length data) by (destruct data; [contradiction|cbn; lia]).
  rewrite scanMatches_scanFrom, (scanFrom_step data 0 Hn).
  pose proof (isCodePointText_scan data Hall) as Hcp.
  destruct (isCodePointText data) eqn:Hg.
  - assert (Hlen : List.length data = 6).
    { unfold isCodePointText in Hg. apply andb_prop in Hg. now apply Nat.eqb_eq. }
    unfold scanStep, tryPercent, isPercentTriplet.
    replace (0 + 2 <? List.length data) with true by (rewrite Hlen; reflexivity).
    assert (HU : byteAt data 0 = "U").
    { unfold isCodePointText, codePointAt in Hg. split_andb. now apply Ascii.eqb_eq. }
    rewrite HU. cbn [Ascii.eqb Bool.eqb andb].
    unfold tryCodePoint. cbn [Nat.add]. rewrite Hcp. cbn [fst snd].
    rewrite Hlen. cbn [codePointLoop]. rewrite Hlen. cbn.
    rewrite scanFrom_end by lia. reflexivity.
  - assert (Hrun : isRun data 0 (List.length data) = true).
    { unfold isRun. rewrite allBetween_whole, Hall, Nat.leb_refl.
      replace (0 <? List.length data) with true by (symmetry; now apply Nat.ltb_lt).
      reflexivity. }
    rewrite (scanStep_run data 0 _ Hrun Hcp). cbn [fst snd].
    rewrite scanFrom_end by lia. rewrite allBetween_whole, Nat.sub_0_r.
    unfold padCount. rewrite Nat.ltb_irrefl. cbn [andb]. rewrite Nat.add_0_r.
    destruct (forallb isHexChar data && (32 <=? List.length data)); [reflexivity|].
    destruct (16 <=? List.length data); reflexivity.
Qed.

Lemma whole_text_matches (ovl : startEnd -> startEnd -> bool) (data : bytes) :
  data <> [] -> forallb isB64Char data = true ->
  findEncodingMatches ovl data =
  if isCodePointText data then [unicodeMatch 0 6]
  else if forallb isHexChar data && (32 <=? List.length data)
  then [hexMatch 0 (List.length data)]
  else if 16 <=? List.length data then [base64Match 0 (List.length data)]
  else [].
Proof.
  intros Hne Hall. rewrite findEncodingMatches_single; rewrite whole_text_run by assumption.
  - reflexivity.
  - destruct (isCodePointText data); [cbn; lia|].
    destruct (forallb isHexChar data && (32 <=? List.length data)); [cbn; lia|].
    destruct (16 <=? List.length data); cbn; lia.
Qed.

Lemma forallb_hex_b64 (data : bytes) :
  forallb isHexChar data = true -> forallb isB64Char data = true.
Proof.
  rewrite !forallb_forall. intros H c Hc. now apply hex_is_b64, H.
Qed.

(** ** The decoding loops as a recursion on the cursor *)

Lemma skipn_byteAt (s : bytes) (i : nat) :
  i < List.length s -> skipn i s = byteAt s i :: skipn (S i) s.
Proof.
  revert i. induction s as [|c l IH]; intros i Hi; [cbn in Hi; lia|].
  destruct i as [|i]; [reflexivity|]. cbn in Hi.
  cbn [skipn]. rewrite IH by lia. reflexivity.
Qed.


Section DecodeLoop.

Variable s : bytes.
Variable step : nat -> bytes * bool * nat.

Local Abbreviation n := (List.length s).

(** Both iterations move the cursor forward. *)
Hypothesis step_advances : forall i, i < n -> i < snd (step i).

(** Both iterations either set [changed] or copy the byte under the
    cursor and step over it. *)
Hypothesis step_copies :
  forall i, i < n -> snd (fst (step i)) = false -> step i = ([byteAt s i], false, S i).

Lemma decodeLoop_S (fuel i : nat) (buf : bytes) (changed : bool) :
  decodeLoop s step (S fuel) i buf changed =
  if i <? n then
    let '(out, set, i') := step i in
    decodeLoop s step fuel i' (buf ++ out) (changed || set)
  else (buf, changed).
Proof. reflexivity. Qed.

Lemma decodeLoop_acc (fuel i : nat) (buf : bytes) (changed : bool) :
  decodeLoop s step fuel i buf changed =
  (buf ++ fst (decodeLoop s step fuel i [] false),
   changed || snd (decodeLoop s step fuel i [] false)).
Proof.
  revert i buf changed. induction fuel as [|f IH]; intros i buf changed.
  - cbn. now rewrite app_nil_r, orb_false_r.
  - rewrite !decodeLoop_S. destruct (i <? n).
    + destruct (step i) as [[out set] i'].
      rewrite (IH i' (buf ++ out)), (IH i' ([] ++ out)). cbn [fst snd app].
      now rewrite <- app_assoc, orb_assoc.
    + cbn. now rewrite app_nil_r, orb_false_r.
Qed.

Lemma decodeLoop_fuel_S (g j : nat) :
  n - j <= g -> decodeLoop s step (S g) j [] false = decodeLoop s step g j [] false.
Proof.
  revert j. induction g as [|g IHg]; intros j Hg.
  - rewrite decodeLoop_S. now replace (j <? n) with false by (symmetry; apply Nat.ltb_ge; lia).
  - rewrite (decodeLoop_S (S g)), (decodeLoop_S g).
    destruct (Nat.lt_ge_cases j n) as [Hj|Hj].
    + replace (j <? n) with true by (symmetry; now apply Nat.ltb_lt).
      pose proof (step_advances j Hj) as Hadv.
      destruct (step j) as [[out set] j']. cbn [snd] in Hadv.
      rewrite (decodeLoop_acc (S g)), (decodeLoop_acc g). now rewrite IHg by lia.
    + now replace (j <? n) with false by (symmetry; now apply Nat.ltb_ge).
Qed.

Lemma decodeLoop_fuel (fuel i : nat) :
  n - i <= fuel -> decodeLoop s step fuel i [] false = decodeFrom s step i.
Proof.
  intros Hf. unfold decodeFrom. replace fuel with ((fuel - (n - i)) + (n - i)) by lia.
  generalize (fuel - (n - i)) as d. intros d.
  induction d as [|d IHd]; [reflexivity|].
  cbn [Nat.add]. rewrite decodeLoop_fuel_S by lia. exact IHd.
Qed.

Lemma decodeFrom_end (i : nat) : n <= i -> decodeFrom s step i = ([], false).
Proof. intros Hi. unfold decodeFrom. now replace (n - i) with 0 by lia. Qed.

Lemma decodeFrom_step (i : nat) :
  i < n ->
  decodeFrom s step i =
  (fst (fst (step i)) ++ fst (decodeFrom s step (snd (step i))),
   snd (fst (step i)) || snd (decodeFrom s step (snd (step i)))).
Proof.
  intros Hi. unfold decodeFrom at 1.
  destruct (n - i) as [|k] eqn:Hk; [lia|]. rewrite decodeLoop_S.
  replace (i <? n) with true by (symmetry; now apply Nat.ltb_lt).
  pose proof (step_advances i Hi) as Hadv.
  destruct (step i) as [[out set] i']. cbn [fst snd] in *.
  rewrite decodeLoop_acc, decodeLoop_fuel by lia. reflexivity.
Qed.

(** When [changed] is never set, the builder holds a copy of the input. *)
Lemma decodeFrom_unchanged (i : nat) :
  snd (decodeFrom s step i) = false -> fst (decodeFrom s step i) = skipn i s.
Proof.
  remember (n - i) as d eqn:Hd. revert i Hd.
  induction d as [d IH] using lt_wf_ind. intros i Hd Hch.
  destruct (Nat.lt_ge_cases i n) as [Hi|Hi].
  - rewrite decodeFrom_step in Hch |- * by exact Hi. cbn [fst snd] in *.
    apply orb_false_elim in Hch. destruct Hch as [Hset Hrest].
    rewrite (step_copies i Hi Hset) in Hrest |- *. cbn [fst snd] in *.
    rewrite (IH (n - S i)) by (auto; lia).
    now rewrite (skipn_byteAt s i) by lia.
  - rewrite decodeFrom_end by exact Hi. now rewrite skipn_all2.
Qed.

(** A position that no iteration jumps over is one the cursor stands
    at: what is written from an earlier cursor ends with what is
    written from there. *)
Lemma decodeFrom_through (p : nat) :
  (forall i, i < p -> i < n -> snd (step i) <= p) ->
  forall i, i <= p -> exists pre, fst (decodeFrom s step i) = pre ++ fst (decodeFrom s step p).
Proof.
  intros Hjump i. remember (p - i) as d eqn:Hd. revert i Hd.
  induction d as [d IH] using lt_wf_ind. intros i Hd Hip.
  destruct (Nat.eq_dec i p) as [->|Hne]; [now exists []|].
  destruct (Nat.lt_ge_cases i n) as [Hi|Hi].
  - rewrite (decodeFrom_step i Hi). cbn [fst].
    pose proof (step_advances i Hi). pose proof (Hjump i ltac:(lia) Hi).
    destruct (IH (p - snd (step i)) ltac:(lia) (snd (step i)) eq_refl ltac:(lia))
      as [pre Hpre].
    exists (fst (fst (step i)) ++ pre). now rewrite Hpre, app_assoc.
  - exists []. now rewrite !decodeFrom_end by lia.
Qed.

(** A stretch of bytes at which every iteration only copies is copied
    as it is. *)
Lemma decodeFrom_copy (p L : nat) :
  p + L <= n ->
  (forall k, k < L -> step (p + k) = ([byteAt s (p + k)], false, S (p + k))) ->
  fst (decodeFrom s step p) = firstn L (skipn p s) ++ fst (decodeFrom s step (p + L)).
Proof.
  revert p. induction L as [|L IH]; intros p Hp Hcopy.
  - now rewrite Nat.add_0_r.
  - rewrite decodeFrom_step by lia.
    pose proof (Hcopy 0 ltac:(lia)) as H0. rewrite Nat.add_0_r in H0.
    rewrite H0. cbn [fst snd].
    rewrite (IH (S p)) by (try lia; intros k Hk; replace (S p + k) with (p + S k) by lia;
                           apply Hcopy; lia).
    replace (S p + L) with (p + S L) by lia.
    rewrite (skipn_byteAt s p) by lia. reflexivity.
Qed.

End DecodeLoop.

(** ** The unit tests of the decoder *)

Lemma hexMap_255 (c : ascii) : (hexMap c =? 255)%Z = negb (isHexChar c).
Proof. by_byte c. Qed.

Lemma hexMap_range (c : ascii) : isHexChar c = true -> (0 <= hexMap c < 16)%Z.
Proof.
  destruct c as [[] [] [] [] [] [] [] []]; vm_compute; try discriminate;
    intros _; split; congruence.
Qed.

Lemma lor_shiftl_digit (v d : Z) :
  (0 <= d < 16)%Z -> Z.lor (Z.shiftl v 4) d = (16 * v + d)%Z.
Proof.
  intros Hd.
  assert (Hland : Z.land (Z.shiftl v 4) d = 0%Z).
  { replace d with (Z.land d (Z.ones 4)) at 1
      by (rewrite Z.land_ones by lia; apply Z.mod_small; cbn; lia).
    rewrite (Z.land_comm d), Z.land_assoc, Z.land_ones by lia.
    rewrite Z.shiftl_mul_pow2 by lia. rewrite Z.mod_mul by (cbn; lia).
    apply Z.land_0_l. }
  rewrite <- Z.lxor_lor by exact Hland.
  rewrite <- Z.add_nocarry_lxor by exact Hland.
  rewrite Z.shiftl_mul_pow2 by lia. change (2 ^ 4)%Z with 16%Z. lia.
Qed.

Lemma parseHex4_spec (s : bytes) (k : nat) :
  parseHex4 s k = if hexQuad s k then Some (quadValue s k) else None.
Proof.
  unfold parseHex4, hexQuad.
  destruct (List.length s <? k + 4) eqn:E.
  - apply Nat.ltb_lt in E.
    now replace (k + 4 <=? List.length s) with false by (symmetry; apply Nat.leb_gt; lia).
  - apply Nat.ltb_ge in E.
    replace (k + 4 <=? List.length s) with true by (symmetry; apply Nat.leb_le; lia).
    cbn [parseHex4Loop andb]. rewrite Nat.add_0_r, !hexMap_255.
    destruct (isHexChar (byteAt s k)) eqn:H0; cbn [negb andb]; [|reflexivity].
    destruct (isHexChar (byteAt s (k + 1))) eqn:H1; cbn [negb andb]; [|reflexivity].
    destruct (isHexChar (byteAt s (k + 2))) eqn:H2; cbn [negb andb]; [|reflexivity].
    destruct (isHexChar (byteAt s (k + 3))) eqn:H3; cbn [negb andb]; [|reflexivity].
    apply hexMap_range in H0, H1, H2, H3.
    rewrite !lor_shiftl_digit by assumption.
    unfold quadValue. f_equal. lia.
Qed.

Lemma codePointUnit_spec (s : bytes) (i : nat) :
  codePointUnit s i = if codePointAt s i then Some (quadValue s (i + 2)) else None.
Proof.
  unfold codePointUnit, codePointAt. rewrite parseHex4_spec.
  destruct (hexQuad s (i + 2)) eqn:Q.
  - apply hexQuad_bound in Q.
    replace (i + 5 <? List.length s) with true by (symmetry; apply Nat.ltb_lt; lia).
    cbn [andb]. rewrite andb_true_r.
    now destruct (Ascii.eqb (byteAt s i) "U" && Ascii.eqb (byteAt s (i + 1)) "+").
  - rewrite andb_false_r.
    now destruct ((i + 5 <? List.length s) && Ascii.eqb (byteAt s i) "U" &&
                  Ascii.eqb (byteAt s (i + 1)) "+").
Qed.

Lemma singleEscapeUnit_spec (s : bytes) (i : nat) :
  Ascii.eqb (byteAt s i) backslash = true ->
  singleEscapeUnit s i = if singleEscapeAt s i then Some (quadValue s (i + 2)) else None.
Proof.
  intros Hb. unfold singleEscapeUnit, singleEscapeAt. rewrite parseHex4_spec, Hb.
  cbn [andb]. destruct (hexQuad s (i + 2)) eqn:Q.
  - apply hexQuad_bound in Q.
    replace (i + 5 <? List.length s) with true by (symmetry; apply Nat.ltb_lt; lia).
    cbn [andb]. rewrite andb_true_r. now destruct (isU (byteAt s (i + 1))).
  - rewrite andb_false_r.
    now destruct ((i + 5 <? List.length s) && isU (byteAt s (i + 1))).
Qed.

Lemma doubleEscapeUnit_spec (s : bytes) (i : nat) :
  Ascii.eqb (byteAt s i) backslash = true ->
  doubleEscapeUnit s i = if doubleEscapeAt s i then Some (quadValue s (i + 3)) else None.
Proof.
  intros Hb. unfold doubleEscapeUnit, doubleEscapeAt. rewrite parseHex4_spec, Hb.
  cbn [andb]. destruct (hexQuad s (i + 3)) eqn:Q.
  - apply hexQuad_bound in Q.
    replace (i + 6 <? List.length s) with true by (symmetry; apply Nat.ltb_lt; lia).
    cbn [andb]. rewrite andb_true_r.
    now destruct (Ascii.eqb (byteAt s (i + 1)) backslash && isU (byteAt s (i + 2))).
  - rewrite andb_false_r.
    now destruct ((i + 6 <? List.length s) && Ascii.eqb (byteAt s (i + 1)) backslash &&
                  isU (byteAt s (i + 2))).
Qed.

Lemma skipSeparator_bounds (s : bytes) (i : nat) : i <= skipSeparator s i <= S i.
Proof.
  unfold skipSeparator.
  destruct ((i <? List.length s) &&
            (Ascii.eqb (byteAt s i) " " || Ascii.eqb (byteAt s i) tab)); [|lia].
  destruct ((i + 6 <? List.length s) && Ascii.eqb (byteAt s (i + 1)) "U" &&
            Ascii.eqb (byteAt s (i + 2)) "+"); lia.
Qed.

Lemma codePointsStep_advances (s : bytes) (i : nat) :
  i < List.length s -> i < snd (codePointsStep s i).
Proof.
  intros _. unfold codePointsStep.
  destruct (codePointUnit s i); cbn [snd]; [|lia].
  pose proof (skipSeparator_bounds s (i + 6)). lia.
Qed.

Lemma codePointsStep_copies (s : bytes) (i : nat) :
  i < List.length s -> snd (fst (codePointsStep s i)) = false ->
  codePointsStep s i = ([byteAt s i], false, S i).
Proof.
  intros _. unfold codePointsStep.
  destruct (codePointUnit s i); cbn [fst snd]; [discriminate|reflexivity].
Qed.

Lemma escapesStep_advances (s : bytes) (i : nat) :
  i < List.length s -> i < snd (escapesStep s i).
Proof.
  intros _. unfold escapesStep.
  destruct (Ascii.eqb (byteAt s i) backslash); cbn [snd]; [|lia].
  destruct (doubleEscapeUnit s i); cbn [snd]; [lia|].
  destruct (singleEscapeUnit s i); cbn [snd]; lia.
Qed.

Lemma escapesStep_copies (s : bytes) (i : nat) :
  i < List.length s -> snd (fst (escapesStep s i)) = false ->
  escapesStep s i = ([byteAt s i], false, S i).
Proof.
  intros _. unfold escapesStep.
  destruct (Ascii.eqb (byteAt s i) backslash); cbn [fst snd]; [|reflexivity].
  destruct (doubleEscapeUnit s i); cbn [fst snd]; [discriminate|].
  destruct (singleEscapeUnit s i); cbn [fst snd]; [discriminate|reflexivity].
Qed.

(** Returning [s] when nothing changed is returning the builder: both
    decoders return what their loop wrote. *)
Lemma decodeUnicodeCodePoints_loop (s : bytes) :
  decodeUnicodeCodePoints s = fst (decodeFrom s (codePointsStep s) 0).
Proof.
  unfold decodeUnicodeCodePoints.
  rewrite (decodeLoop_fuel s _ (codePointsStep_advances s)) by lia.
  pose proof (decodeFrom_unchanged s _ (codePointsStep_advances s)
                (codePointsStep_copies s) 0) as H.
  destruct (decodeFrom s (codePointsStep s) 0) as [buf changed]. cbn [fst snd] in *.
  destruct changed; [reflexivity|]. cbn [negb]. now rewrite H.
Qed.

Lemma decodeUnicodeEscapes_loop (s : bytes) :
  decodeUnicodeEscapes s = fst (decodeFrom s (escapesStep s) 0).
Proof.
  unfold decodeUnicodeEscapes.
  rewrite (decodeLoop_fuel s _ (escapesStep_advances s)) by lia.
  pose proof (decodeFrom_unchanged s _ (escapesStep_advances s)
                (escapesStep_copies s) 0) as H.
  destruct (decodeFrom s (escapesStep s) 0) as [buf changed]. cbn [fst snd] in *.
  destruct changed; [reflexivity|]. cbn [negb]. now rewrite H.
Qed.

(** ** Claims on the order and the conflicts of the matches *)

(** C8: the matches one scan returns are ordered by strictly
    increasing start and pairwise disjoint: of two returned matches the
    earlier one has a non-empty span that ends at or before the start
    of the later one, so no position lies in both half-open spans.
    This holds whatever the overlap test of the filter is. *)
Theorem matches_ordered_disjoint (ovl : startEnd -> startEnd -> bool) (data : bytes)
    (i j : nat) (a b : encodingMatch) :
  i < j ->
  nth_error (findEncodingMatches ovl data) i = Some a ->
  nth_error (findEncodingMatches ovl data) j = Some b ->
  mstart a < mstart b /\
  mstart a < mend a /\ mend a <= mstart b /\ mstart b < mend b /\
  forall p, ~ (mstart a <= p < mend a /\ mstart b <= p < mend b).
Proof.
  intros Hij Ha Hb.
  pose proof (findEncodingMatches_chain ovl data) as Hc.
  pose proof (ChainFrom_pairwise _ _ _ _ _ _ Hc Hij Ha Hb) as Hab.
  pose proof (ChainFrom_nth _ _ _ _ Hc Ha) as [_ Hane].
  pose proof (ChainFrom_nth _ _ _ _ Hc Hb) as [_ Hbne].
  repeat split; try lia.
Qed.

Lemma matches_ordered_disjoint_witness :
  let data := str "%41%42 bG9uZ2VyLWVuY29kZWQtc2VjcmV0LXRlc3Q=" in
  let a := mkMatch (mkEncoding percentKind 4) (mkStartEnd 0 6) in
  let b := mkMatch (mkEncoding base64Kind 1) (mkStartEnd 7 43) in
  mstart a < mstart b /\
  mstart a < mend a /\ mend a <= mstart b /\ mstart b < mend b /\
  forall p, ~ (mstart a <= p < mend a /\ mstart b <= p < mend b).
Proof.
  intros data a b.
  apply (matches_ordered_disjoint overlaps data 0 1 a b).
  - lia.
  - vm_compute. reflexivity.
  - vm_compute. reflexivity.
Defined.

(** C9: a candidate of the scanner that overlaps the candidate just
    before or just after it in the candidate list, when that neighbour
    has a strictly higher precedence, is not in the output, whatever
    the overlap test is; and the input
    [secret%3D%22longvalue1234567%22] yields exactly one match, of
    kind Percent, over bytes 6 to 31: the alphanumeric run it encloses
    is not reported. *)
Theorem higher_precedence_wins :
  (forall (ovl : startEnd -> startEnd -> bool) (data : bytes) (i : nat)
          (m o : encodingMatch),
      nth_error (scanMatches data) i = Some m ->
      nth_error (scanMatches data) (i + 1) = Some o \/
      (0 < i /\ nth_error (scanMatches data) (i - 1) = Some o) ->
      ovl (span m) (span o) = true ->
      (precedence (enc o) > precedence (enc m))%Z ->
      ~ In m (findEncodingMatches ovl data)) /\
  (forall ovl : startEnd -> startEnd -> bool,
      findEncodingMatches ovl (str "secret%3D%22longvalue1234567%22")
      = [mkMatch (mkEncoding percentKind 4) (mkStartEnd 6 31)]).
Proof.
  split.
  - intros ovl data i m o Hm Ho Hov Hprec Hin.
    assert (Hlen : 2 <= List.length (scanMatches data)).
    { destruct Ho as [Ho|[Hi Ho]].
      - apply nth_error_lt in Ho. lia.
      - apply nth_error_lt in Hm. lia. }
    assert (Hout : forall k, nth_error (scanMatches data) k = Some o ->
              outrankedBy ovl (scanMatches data) m k = true).
    { intros k Hk. unfold outrankedBy. rewrite Hk, Hov. cbn.
      apply Z.gtb_lt. lia. }
    unfold findEncodingMatches in Hin.
    destruct (List.length data =? 0); [contradiction|]. cbv zeta in Hin.
    replace (List.length (scanMatches data) <=? 1) with false in Hin
      by (symmetry; apply Nat.leb_gt; lia).
    apply filterLoop_In in Hin. destruct Hin as (k & Hk & H1 & H2).
    cbn [Nat.add] in H1, H2.
    assert (k = i) as ->.
    { pose proof (scanFrom_chain data 0) as Hc. rewrite <- scanMatches_scanFrom in Hc.
      destruct (Nat.lt_trichotomy k i) as [Hlt|[Heq|Hgt]]; [|exact Heq|].
      - pose proof (ChainFrom_pairwise _ _ _ _ _ _ Hc Hlt Hk Hm).
        pose proof (ChainFrom_nth _ _ _ _ Hc Hm). lia.
      - pose proof (ChainFrom_pairwise _ _ _ _ _ _ Hc Hgt Hm Hk).
        pose proof (ChainFrom_nth _ _ _ _ Hc Hm). lia. }
    destruct Ho as [Ho|[Hi Ho]].
    + rewrite (Hout _ Ho) in H2.
      replace (i + 1 <? List.length (scanMatches data)) with true in H2
        by (symmetry; apply Nat.ltb_lt; apply nth_error_lt in Ho; lia).
      discriminate.
    + rewrite (Hout _ Ho) in H1.
      replace (0 <? i) with true in H1 by (symmetry; now apply Nat.ltb_lt).
      discriminate.
  - intros ovl. rewrite findEncodingMatches_single; vm_compute; [reflexivity|lia].
Qed.

Lemma higher_precedence_wins_witness :
  ~ In (mkMatch (mkEncoding base64Kind 1) (mkStartEnd 0 17))
       (findEncodingMatches overlapsClosed (str "aBcDeFgHiJkLmNoPq%20")).
Proof.
  apply (proj1 higher_precedence_wins overlapsClosed (str "aBcDeFgHiJkLmNoPq%20") 0
           (mkMatch (mkEncoding base64Kind 1) (mkStartEnd 0 17))
           (mkMatch (mkEncoding percentKind 4) (mkStartEnd 17 20))).
  - vm_compute. reflexivity.
  - left. vm_compute. reflexivity.
  - vm_compute. reflexivity.
  - vm_compute. reflexivity.
Defined.

(** ** The Unicode decoder: failing units and dispatch *)

Lemma unit_out_of_range (s : bytes) (i : nat) :
  List.length s <= i ->
  codePointAt s i = false /\ singleEscapeAt s i = false /\ doubleEscapeAt s i = false.
Proof.
  intros Hi. unfold codePointAt, singleEscapeAt, doubleEscapeAt, hexQuad.
  replace (i + 2 + 4 <=? List.length s) with false by (symmetry; apply Nat.leb_gt; lia).
  replace (i + 3 + 4 <=? List.length s) with false by (symmetry; apply Nat.leb_gt; lia).
  cbn [andb]. now rewrite !andb_false_r.
Qed.

Lemma noValidUnit_spec (s : bytes) (i : nat) :
  noValidUnit s = true ->
  codePointAt s i = false /\ singleEscapeAt s i = false /\ doubleEscapeAt s i = false.
Proof.
  intros H. destruct (Nat.lt_ge_cases i (List.length s)) as [Hi|Hi].
  - unfold noValidUnit in H. rewrite forallb_forall in H.
    specialize (H i ltac:(apply in_seq; lia)).
    apply negb_true_iff in H. apply orb_false_elim in H. destruct H as [H H3].
    apply orb_false_elim in H. tauto.
  - now apply unit_out_of_range.
Qed.

Lemma decodeFrom_all_copied (s : bytes) (step : nat -> bytes * bool * nat) :
  (forall i, i < List.length s -> i < snd (step i)) ->
  (forall i, i < List.length s -> step i = ([byteAt s i], false, S i)) ->
  fst (decodeFrom s step 0) = s.
Proof.
  intros Hadv Hcopy.
  rewrite (decodeFrom_copy s step Hadv 0 (List.length s)) by (auto; lia).
  rewrite decodeFrom_end by (cbn; lia). cbn [skipn fst].
  now rewrite firstn_all, app_nil_r.
Qed.

(** The claim C6 as it is stated fails: in [\u0041\uZZZZ] the four
    characters of the second unit do not parse, and yet the first unit
    is decoded while the second is left in place. *)
Lemma decode_partial_counterexample :
  let s := str "\u0041\uZZZZ" in
  parseHex4 s 8 = None /\
  decodeUnicode s = str "A\uZZZZ" /\
  decodeUnicode s <> s.
Proof.
  cbv zeta. split; [reflexivity|]. split; [reflexivity|].
  vm_compute. discriminate.
Qed.

(** *** [strings.Contains] is substring search *)

Lemma hasPrefix_spec (s prefix : bytes) :
  hasPrefix s prefix = true <-> exists rest, s = prefix ++ rest.
Proof.
  revert s. induction prefix as [|c prefix IH]; intros s; cbn.
  - split; [intros _; now exists s|intros _; now destruct s].
  - destruct s as [|d s].
    + split; [discriminate|]. intros [rest H]. discriminate.
    + cbn [hasPrefix]. rewrite andb_true_iff, Ascii.eqb_eq, IH. split.
      * intros [-> [rest ->]]. now exists rest.
      * intros [rest H]. inversion H; subst. split; [reflexivity|now exists rest].
Qed.

Lemma contains_spec (s substr : bytes) :
  contains s substr = true <-> exists a b, s = a ++ substr ++ b.
Proof.
  induction s as [|c s IH]; cbn [contains]; rewrite orb_true_iff, hasPrefix_spec.
  - split.
    + intros [[b H]|H]; [|discriminate]. now exists [], b.
    + intros (a & b & H). left. destruct a; [now exists b|discriminate].
  - rewrite IH. split.
    + intros [[b H]|(a & b & H)]; [now exists [], b|].
      exists (c :: a), b. now rewrite H.
    + intros (a & b & H). destruct a as [|x a]; [left; now exists b|].
      right. inversion H; subst. now exists a, b.
Qed.

(** *** Backslash escapes under the code-point routine *)

Lemma byteAt_app (s1 s2 : bytes) (k : nat) :
  byteAt (s1 ++ s2) (List.length s1 + k) = byteAt s2 k.
Proof. unfold byteAt. apply app_nth2_plus. Qed.

Lemma byteAt_app_l (s1 s2 : bytes) (k : nat) :
  k < List.length s1 -> byteAt (s1 ++ s2) k = byteAt s1 k.
Proof. intros H. unfold byteAt. now apply app_nth1. Qed.

Lemma byteAt_middle (s1 esc s2 : bytes) (k : nat) :
  k < List.length esc ->
  byteAt (s1 ++ esc ++ s2) (List.length s1 + k) = byteAt esc k.
Proof. intros H. now rewrite byteAt_app, byteAt_app_l. Qed.

Lemma hex_not_plus (c : ascii) : isHexChar c = true -> Ascii.eqb c "+" = false.
Proof. by_byte c. Qed.

Lemma hex_not_backslash (c : ascii) : isHexChar c = true -> Ascii.eqb c backslash = false.
Proof. by_byte c. Qed.

(** The shape of an escape text. *)
Lemma isEscapeText_inv (esc : bytes) :
  isEscapeText esc = true ->
  exists b u h1 h2 h3 h4,
    isU u = true /\ isHexChar h1 = true /\ isHexChar h2 = true /\
    isHexChar h3 = true /\ isHexChar h4 = true /\
    (esc = [backslash; u; h1; h2; h3; h4] \/
     (esc = [backslash; b; u; h1; h2; h3; h4] /\ b = backslash)).
Proof.
  unfold isEscapeText. intros H. apply orb_prop in H. destruct H as [H|H];
    apply andb_prop in H; destruct H as [Hl H]; apply Nat.eqb_eq in Hl.
  - destruct esc as [|c0 [|c1 [|c2 [|c3 [|c4 [|c5 [|c6 r]]]]]]]; try discriminate.
    unfold singleEscapeAt, hexQuad, byteAt in H. cbn in H. split_andb.
    match goal with Hb : Ascii.eqb c0 backslash = true |- _ => apply Ascii.eqb_eq in Hb end.
    subst c0. exists backslash, c1, c2, c3, c4, c5. auto 10.
  - destruct esc as [|c0 [|c1 [|c2 [|c3 [|c4 [|c5 [|c6 [|c7 r]]]]]]]]; try discriminate.
    unfold doubleEscapeAt, hexQuad, byteAt in H. cbn in H. split_andb.
    repeat match goal with Hb : Ascii.eqb _ backslash = true |- _ =>
      apply Ascii.eqb_eq in Hb end.
    subst c0. exists c1, c2, c3, c4, c5, c6. auto 10.
Qed.

(** Inside the text of an escape no [U+] starts. *)
Lemma escape_no_codePoint (esc : bytes) (k : nat) :
  isEscapeText esc = true ->
  Ascii.eqb (byteAt esc k) "U" && Ascii.eqb (byteAt esc (k + 1)) "+" = false.
Proof.
  intros H. apply isEscapeText_inv in H.
  destruct H as (b & u & h1 & h2 & h3 & h4 & Hu & H1 & H2 & H3 & H4 & [->|[-> ->]]);
    pose proof (hex_not_U _ H1); pose proof (hex_not_U _ H2);
    pose proof (hex_not_U _ H3); pose proof (hex_not_U _ H4);
    pose proof (hex_not_plus _ H1);
    do 8 (destruct k as [|k];
          [unfold byteAt; cbn [Nat.add nth];
           repeat match goal with Hx : Ascii.eqb _ _ = false |- _ => rewrite Hx end;
           cbn; try reflexivity; apply andb_false_r|]);
    unfold byteAt; cbn [Nat.add nth]; now destruct k.
Qed.

Lemma escape_first_byte (esc : bytes) :
  isEscapeText esc = true -> byteAt esc 0 = backslash /\ 6 <= List.length esc.
Proof.
  intros H. apply isEscapeText_inv in H.
  destruct H as (b & u & h1 & h2 & h3 & h4 & _ & _ & _ & _ & _ & [->|[-> ->]]);
    split; try reflexivity; cbn; lia.
Qed.

(** The code-point routine never moves its cursor over a backslash. *)
Lemma codePointsStep_stops_at_backslash (s : bytes) (p i : nat) :
  byteAt s p = backslash -> i < p -> snd (codePointsStep s i) <= p.
Proof.
  intros Hp Hi. unfold codePointsStep. rewrite codePointUnit_spec.
  destruct (codePointAt s i) eqn:Hc; cbn [snd]; [|lia].
  unfold codePointAt, hexQuad in Hc. split_andb.
  assert (Hne : forall k c, byteAt s (i + k) = c -> Ascii.eqb c backslash = false ->
                  p <> i + k).
  { intros k c Hk Hcb ->. rewrite Hp in Hk. subst c. discriminate. }
  assert (p <> i).
  { rewrite <- (Nat.add_0_r i). apply (Hne 0 "U"); [|reflexivity].
    rewrite Nat.add_0_r. now apply Ascii.eqb_eq. }
  assert (p <> i + 1).
  { apply (Hne 1 "+"); [|reflexivity]. now apply Ascii.eqb_eq. }
  assert (p <> i + 2) by (apply (Hne 2 _ eq_refl), hex_not_backslash; assumption).
  assert (p <> i + 3).
  { apply (Hne 3 _ eq_refl), hex_not_backslash.
    now replace (i + 3) with (i + 2 + 1) by lia. }
  assert (p <> i + 4).
  { apply (Hne 4 _ eq_refl), hex_not_backslash.
    now replace (i + 4) with (i + 2 + 2) by lia. }
  assert (p <> i + 5).
  { apply (Hne 5 _ eq_refl), hex_not_backslash.
    now replace (i + 5) with (i + 2 + 3) by lia. }
  destruct (Nat.eq_dec p (i + 6)) as [->|].
  - unfold skipSeparator. rewrite Hp. cbn. rewrite andb_false_r. lia.
  - pose proof (skipSeparator_bounds s (i + 6)). lia.
Qed.

Lemma escape_survives_codePoints (s1 esc s2 : bytes) :
  isEscapeText esc = true ->
  exists pre post, decodeUnicodeCodePoints (s1 ++ esc ++ s2) = pre ++ esc ++ post.
Proof.
  intros He. set (s := s1 ++ esc ++ s2). set (p := List.length s1).
  destruct (escape_first_byte esc He) as [Hb Hlen].
  assert (Hp : byteAt s p = backslash).
  { unfold s, p. rewrite <- (Nat.add_0_r (List.length s1)), byteAt_middle by lia.
    exact Hb. }
  assert (Hn : p + List.length esc <= List.length s).
  { unfold s, p. rewrite !length_app. lia. }
  rewrite decodeUnicodeCodePoints_loop.
  destruct (decodeFrom_through s _ (codePointsStep_advances s) p
              (fun i Hi _ => codePointsStep_stops_at_backslash s p i Hp Hi) 0 ltac:(lia))
    as [pre Hpre].
  rewrite Hpre.
  rewrite (decodeFrom_copy s _ (codePointsStep_advances s) p (List.length esc) Hn).
  - exists pre, (fst (decodeFrom s (codePointsStep s) (p + List.length esc))).
    f_equal. f_equal. unfold s, p.
    rewrite skipn_app, skipn_all, Nat.sub_diag. cbn [skipn app].
    rewrite firstn_app, firstn_all, Nat.sub_diag. cbn [firstn]. now rewrite app_nil_r.
  - intros k Hk. unfold codePointsStep. rewrite codePointUnit_spec.
    unfold codePointAt.
    unfold s at 1, p. rewrite byteAt_middle by exact Hk. fold p. fold s.
    destruct (Ascii.eqb (byteAt esc k) "U") eqn:HU; [|reflexivity].
    pose proof (escape_no_codePoint esc k He) as Hno.
    rewrite HU in Hno. cbn [andb] in Hno.
    assert (Hk1 : k + 1 < List.length esc).
    { destruct (Nat.eq_dec (k + 1) (List.length esc)) as [E|]; [|lia].
      exfalso. clear - He HU E. apply isEscapeText_inv in He.
      destruct He as (b & u & h1 & h2 & h3 & h4 & Hu & H1 & H2 & H3 & H4 & [->|[-> ->]]);
        cbn in E; [replace k with 5 in HU by lia|replace k with 6 in HU by lia];
        unfold byteAt in HU; cbn in HU; rewrite (hex_not_U _ H4) in HU; discriminate. }
    unfold s at 1, p. rewrite <- Nat.add_assoc, byteAt_middle by exact Hk1.
    rewrite Hno. reflexivity.
Qed.

(** ** The Unicode decoder on valid units *)

Lemma isCodePointText_inv (g : bytes) :
  isCodePointText g = true ->
  exists h1 h2 h3 h4,
    isHexChar h1 = true /\ isHexChar h2 = true /\
    isHexChar h3 = true /\ isHexChar h4 = true /\
    g = ["U"; "+"; h1; h2; h3; h4].
Proof.
  unfold isCodePointText. intros H. apply andb_prop in H. destruct H as [Hl H].
  apply Nat.eqb_eq in Hl.
  destruct g as [|c0 [|c1 [|c2 [|c3 [|c4 [|c5 [|c6 r]]]]]]]; try discriminate.
  unfold codePointAt, hexQuad, byteAt in H. cbn in H. split_andb.
  repeat match goal with Hb : Ascii.eqb _ _ = true |- _ => apply Ascii.eqb_eq in Hb end.
  subst. exists c2, c3, c4, c5. auto 10.
Qed.

Ltac leb_true :=
  match goal with
  | |- context [?a <=? ?b] =>
      replace (a <=? b) with true by (symmetry; apply Nat.leb_le; lia)
  end.

Lemma byteAt_unit (pre t rest : bytes) (k : nat) :
  k < List.length t ->
  byteAt (pre ++ t ++ rest) (List.length pre + k) = nth k t zero.
Proof. intros H. rewrite byteAt_middle by exact H. reflexivity. Qed.

(** A single-backslash escape under the cursor of the escape routine. *)
Lemma escapesStep_single (pre rest : bytes) (u h1 h2 h3 h4 : ascii) :
  isU u = true -> isHexChar h1 = true -> isHexChar h2 = true ->
  isHexChar h3 = true -> isHexChar h4 = true ->
  let t := [backslash; u; h1; h2; h3; h4] in
  escapesStep (pre ++ t ++ rest) (List.length pre)
  = (encodeRune (unitValue t), true, List.length pre + 6).
Proof.
  intros Hu H1 H2 H3 H4 t.
  pose proof (fun k => byteAt_unit pre t rest k) as B.
  pose proof (B 0 ltac:(cbn; lia)) as B0. rewrite Nat.add_0_r in B0.
  assert (Hlen : List.length (pre ++ t ++ rest) = List.length pre + 6 + List.length rest).
  { rewrite !length_app. cbn. lia. }
  unfold escapesStep. rewrite B0. change (Ascii.eqb (nth 0 t zero) backslash) with true.
  cbv iota.
  rewrite doubleEscapeUnit_spec, singleEscapeUnit_spec
    by (rewrite B0; reflexivity).
  unfold doubleEscapeAt, singleEscapeAt, hexQuad, quadValue, unitValue.
  rewrite <- !Nat.add_assoc. cbn [Nat.add]. rewrite B0, !B by (cbn; lia).
  rewrite Hlen. cbn [nth t List.length Nat.sub].
  replace (Ascii.eqb u backslash) with false by (clear - Hu; by_byte u).
  rewrite Hu, H1, H2, H3, H4.
  change (Ascii.eqb backslash backslash) with true. cbn [andb].
  leb_true. reflexivity.
Qed.

(** A double-backslash escape under the cursor of the escape routine. *)
Lemma escapesStep_double (pre rest : bytes) (u h1 h2 h3 h4 : ascii) :
  isU u = true -> isHexChar h1 = true -> isHexChar h2 = true ->
  isHexChar h3 = true -> isHexChar h4 = true ->
  let t := [backslash; backslash; u; h1; h2; h3; h4] in
  escapesStep (pre ++ t ++ rest) (List.length pre)
  = (encodeRune (unitValue t), true, List.length pre + 7).
Proof.
  intros Hu H1 H2 H3 H4 t.
  pose proof (fun k => byteAt_unit pre t rest k) as B.
  pose proof (B 0 ltac:(cbn; lia)) as B0. rewrite Nat.add_0_r in B0.
  assert (Hlen : List.length (pre ++ t ++ rest) = List.length pre + 7 + List.length rest).
  { rewrite !length_app. cbn. lia. }
  unfold escapesStep. rewrite B0. change (Ascii.eqb (nth 0 t zero) backslash) with true.
  cbv iota.
  rewrite doubleEscapeUnit_spec by (rewrite B0; reflexivity).
  unfold doubleEscapeAt, hexQuad, quadValue, unitValue.
  rewrite <- !Nat.add_assoc. cbn [Nat.add]. rewrite B0, !B by (cbn; lia).
  rewrite Hlen. cbn [nth t List.length Nat.sub].
  rewrite Hu, H1, H2, H3, H4.
  change (Ascii.eqb backslash backslash) with true. cbn [andb].
  leb_true. reflexivity.
Qed.

Lemma escapes_sequence (ts : list bytes) :
  Forall (fun t => isEscapeText t = true) ts ->
  forall pre,
    fst (decodeFrom (pre ++ List.concat ts) (escapesStep (pre ++ List.concat ts)) (List.length pre))
    = List.concat (map (fun t => encodeRune (unitValue t)) ts).
Proof.
  induction 1 as [|t ts Ht Hts IH]; intros pre.
  - cbn [List.concat map]. rewrite decodeFrom_end; [reflexivity|].
    rewrite length_app. cbn. lia.
  - cbn [List.concat map].
    rewrite decodeFrom_step
      by (try apply escapesStep_advances; rewrite !length_app;
          destruct (escape_first_byte t Ht); lia).
    apply isEscapeText_inv in Ht.
    destruct Ht as (b & u & h1 & h2 & h3 & h4 & Hu & H1 & H2 & H3 & H4 & [->|[-> ->]]).
    + rewrite escapesStep_single by assumption. cbn [fst snd]. f_equal.
      specialize (IH (pre ++ [backslash; u; h1; h2; h3; h4])).
      rewrite length_app in IH. cbn [List.length] in IH.
      rewrite <- app_assoc in IH. exact IH.
    + rewrite escapesStep_double by assumption. cbn [fst snd]. f_equal.
      specialize (IH (pre ++ [backslash; backslash; u; h1; h2; h3; h4])).
      rewrite length_app in IH. cbn [List.length] in IH.
      rewrite <- app_assoc in IH. exact IH.
Qed.

(** A code point under the cursor of the code-point routine. *)
Lemma codePointsStep_group (pre rest : bytes) (h1 h2 h3 h4 : ascii) :
  isHexChar h1 = true -> isHexChar h2 = true ->
  isHexChar h3 = true -> isHexChar h4 = true ->
  let g := ["U"; "+"; h1; h2; h3; h4] in
  let s := pre ++ g ++ rest in
  codePointsStep s (List.length pre)
  = (encodeRune (unitValue g), true, skipSeparator s (List.length pre + 6)).
Proof.
  intros H1 H2 H3 H4 g s.
  pose proof (fun k => byteAt_unit pre g rest k) as B. fold s in B.
  pose proof (B 0 ltac:(cbn; lia)) as B0. rewrite Nat.add_0_r in B0.
  assert (Hlen : List.length s = List.length pre + 6 + List.length rest).
  { unfold s. rewrite !length_app. cbn. lia. }
  unfold codePointsStep. rewrite codePointUnit_spec.
  unfold codePointAt, hexQuad, quadValue, unitValue.
  rewrite <- !Nat.add_assoc. cbn [Nat.add]. rewrite B0, !B by (cbn; lia).
  rewrite Hlen. cbn [nth g List.length Nat.sub].
  rewrite H1, H2, H3, H4.
  change (Ascii.eqb "U" "U") with true. change (Ascii.eqb "+" "+") with true.
  cbn [andb]. leb_true. reflexivity.
Qed.

Lemma ws_not_U (c : ascii) : isWhitespace c = true -> Ascii.eqb c "U" = false.
Proof. by_byte c. Qed.

(** At whitespace the code-point routine copies the byte. *)
Lemma codePointsStep_ws (s : bytes) (x : nat) :
  isWhitespace (byteAt s x) = true -> codePointsStep s x = ([byteAt s x], false, S x).
Proof.
  intros W. unfold codePointsStep. rewrite codePointUnit_spec. unfold codePointAt.
  now rewrite (ws_not_U _ W).
Qed.

(** After a group: one space or tab before the next group is stepped
    over, nothing else is. *)
Lemma skipSeparator_after_group (front sep tail : bytes) (k1 k2 k3 k4 : ascii) :
  forallb isWhitespace sep = true ->
  skipSeparator (front ++ sep ++ ["U"; "+"; k1; k2; k3; k4] ++ tail) (List.length front)
  = List.length front + (if droppedSeparator sep then 1 else 0).
Proof.
  intros Hws. unfold skipSeparator.
  set (s := front ++ sep ++ ["U"; "+"; k1; k2; k3; k4] ++ tail).
  assert (B : forall k, byteAt s (List.length front + k)
                        = byteAt (sep ++ ["U"; "+"; k1; k2; k3; k4] ++ tail) k).
  { intros k. unfold s. apply byteAt_app. }
  pose proof (B 0) as B0. rewrite Nat.add_0_r in B0.
  assert (Hn : List.length s = List.length front + List.length sep + 6 + List.length tail).
  { unfold s. rewrite !length_app. cbn. lia. }
  rewrite B0, !B, Hn.
  destruct sep as [|c [|c2 sep]].
  - cbn. rewrite andb_false_r. lia.
  - cbn [droppedSeparator]. unfold byteAt. cbn [app nth List.length].
    replace (List.length front <? List.length front + 1 + 6 + List.length tail)
      with true by (symmetry; apply Nat.ltb_lt; lia).
    replace (List.length front + 6 <? List.length front + 1 + 6 + List.length tail)
      with true by (symmetry; apply Nat.ltb_lt; lia).
    change (Ascii.eqb "U" "U") with true. change (Ascii.eqb "+" "+") with true.
    cbn [andb]. destruct (Ascii.eqb c " " || Ascii.eqb c tab); lia.
  - cbn [droppedSeparator]. unfold byteAt. cbn [app nth].
    cbn [forallb] in Hws. split_andb.
    match goal with W : isWhitespace c2 = true |- _ => rewrite (ws_not_U _ W) end.
    rewrite andb_false_r. cbn [andb].
    match goal with |- (if ?b then _ else _) = _ => destruct b end; lia.
Qed.

Lemma codePoints_sequence (rest : list (bytes * bytes)) :
  Forall (fun sg => forallb isWhitespace (fst sg) = true /\
                    isCodePointText (snd sg) = true) rest ->
  forall g pre, isCodePointText g = true ->
    let s := pre ++ g ++ List.concat (map (fun sg => fst sg ++ snd sg) rest) in
    fst (decodeFrom s (codePointsStep s) (List.length pre))
    = encodeRune (unitValue g) ++
      List.concat (map (fun sg => keptSeparator (fst sg) ++ encodeRune (unitValue (snd sg)))
                       rest).
Proof.
  induction 1 as [|[sep g'] rest [Hsep Hg'] Hrest IH]; intros g pre Hg s;
    apply isCodePointText_inv in Hg;
    destruct Hg as (h1 & h2 & h3 & h4 & H1 & H2 & H3 & H4 & ->); subst s.
  - cbn [map List.concat].
    rewrite decodeFrom_step
      by (try apply codePointsStep_advances; rewrite !length_app; cbn; lia).
    rewrite codePointsStep_group by assumption. cbn [fst snd].
    rewrite decodeFrom_end; [reflexivity|].
    rewrite !length_app. cbn [List.length].
    pose proof (skipSeparator_bounds (pre ++ ["U"; "+"; h1; h2; h3; h4] ++ [])
                  (List.length pre + 6)). lia.
  - cbn [map List.concat fst snd] in *.
    rewrite decodeFrom_step
      by (try apply codePointsStep_advances; rewrite !length_app; cbn; lia).
    rewrite codePointsStep_group by assumption. cbn [fst snd]. f_equal.
    pose proof (isCodePointText_inv g' Hg') as (k1 & k2 & k3 & k4 & _ & _ & _ & _ & Eg').
    set (g := ["U"; "+"; h1; h2; h3; h4]) in *.
    set (tail := List.concat (map (fun sg => fst sg ++ snd sg) rest)) in *.
    set (front := pre ++ g).
    assert (Hfront : List.length front = List.length pre + 6)
      by (unfold front; rewrite length_app; reflexivity).
    assert (Es : pre ++ g ++ (sep ++ g') ++ tail = front ++ sep ++ g' ++ tail)
      by (unfold front; now rewrite <- !app_assoc).
    rewrite Es, <- Hfront.
    assert (Hskip : skipSeparator (front ++ sep ++ g' ++ tail) (List.length front)
                    = List.length front + (if droppedSeparator sep then 1 else 0)).
    { rewrite Eg'. now apply skipSeparator_after_group. }
    rewrite Hskip.
    specialize (IH g' (front ++ sep) Hg'). cbv zeta in IH.
    rewrite <- app_assoc, length_app in IH.
    unfold keptSeparator. destruct (droppedSeparator sep) eqn:Hd.
    + destruct sep as [|c [|c2 sep]]; try discriminate.
      cbn [List.length app] in IH |- *. exact IH.
    + rewrite Nat.add_0_r.
      rewrite (decodeFrom_copy _ _ (codePointsStep_advances _) (List.length front)
                 (List.length sep)).
      * rewrite IH, skipn_app, skipn_all, Nat.sub_diag. cbn [skipn app].
        rewrite firstn_app, firstn_all, Nat.sub_diag. cbn [firstn].
        now rewrite app_nil_r, <- app_assoc.
      * rewrite !length_app. lia.
      * intros k Hk. apply codePointsStep_ws.
        rewrite byteAt_app, byteAt_app_l by exact Hk.
        rewrite forallb_forall in Hsep. apply Hsep. apply nth_In. exact Hk.
Qed.

Lemma contains_needs_byte (s : bytes) (c d : ascii) :
  ~ In d s -> contains s [c; d] = false.
Proof.
  intros Hd. destruct (contains s [c; d]) eqn:E; [|reflexivity].
  apply contains_spec in E. destruct E as (a & b & ->).
  exfalso. apply Hd. apply in_or_app. right. cbn. auto.
Qed.

Lemma escape_no_plus (t : bytes) : isEscapeText t = true -> ~ In "+" t.
Proof.
  intros H. apply isEscapeText_inv in H.
  destruct H as (b & u & h1 & h2 & h3 & h4 & Hu & H1 & H2 & H3 & H4 & [->|[-> ->]]);
    apply hex_not_plus in H1, H2, H3, H4;
    assert (Hup : Ascii.eqb u "+" = false) by (clear - Hu; by_byte u);
    cbn; intros Hin;
    repeat (destruct Hin as [Hin|Hin];
            [try discriminate; subst;
             repeat match goal with Hx : Ascii.eqb "+" "+" = false |- _ =>
               discriminate Hx end|]);
    exact Hin.
Qed.

Lemma escape_has_marker (t rest : bytes) :
  isEscapeText t = true ->
  contains (t ++ rest) (str "\u") || contains (t ++ rest) (str "\U") = true.
Proof.
  intros H. apply isEscapeText_inv in H.
  destruct H as (b & u & h1 & h2 & h3 & h4 & Hu & _ & _ & _ & _ & [->|[-> ->]]);
    unfold isU in Hu; apply orb_prop in Hu;
    destruct Hu as [Hu|Hu]; apply Ascii.eqb_eq in Hu; subst u;
    apply orb_true_iff; [left|right|left|right]; apply contains_spec.
  - now exists [], ([h1; h2; h3; h4] ++ rest).
  - now exists [], ([h1; h2; h3; h4] ++ rest).
  - now exists [backslash], ([h1; h2; h3; h4] ++ rest).
  - now exists [backslash], ([h1; h2; h3; h4] ++ rest).
Qed.

(** C10: the decoder chooses its routine by the content of its input.
    On an input that contains [U+] it is the code-point routine alone;
    every backslash escape of that input is then found as it was in
    the output.  The escape routine runs when the input holds no [U+]
    and holds [\u] or [\U]; an input with none of the three comes
    back unchanged. *)
Theorem decode_dispatch_on_content :
  (forall s, contains s (str "U+") = true ->
     decodeUnicode s = decodeUnicodeCodePoints s) /\
  (forall s1 esc s2, isEscapeText esc = true ->
     contains (s1 ++ esc ++ s2) (str "U+") = true ->
     exists pre post, decodeUnicode (s1 ++ esc ++ s2) = pre ++ esc ++ post) /\
  (forall s, contains s (str "U+") = false ->
     contains s (str "\u") = true \/ contains s (str "\U") = true ->
     decodeUnicode s = decodeUnicodeEscapes s) /\
  (forall s, contains s (str "U+") = false ->
     contains s (str "\u") = false -> contains s (str "\U") = false ->
     decodeUnicode s = s) /\
  decodeUnicode (str "U+0041 \u0042\\U0043") = str "A \u0042\\U0043".
Proof.
  repeat split.
  - intros s H. unfold decodeUnicode. now rewrite H.
  - intros s1 esc s2 He H. unfold decodeUnicode. rewrite H.
    now apply escape_survives_codePoints.
  - intros s H [H1|H1]; unfold decodeUnicode; rewrite H, H1; [reflexivity|].
    now rewrite orb_true_r.
  - intros s H H1 H2. unfold decodeUnicode. now rewrite H, H1, H2.
Qed.

Lemma decode_dispatch_on_content_witness :
  (decodeUnicode (str "x=U+0041") = decodeUnicodeCodePoints (str "x=U+0041")) /\
  (exists pre post,
     decodeUnicode (str "U+0041 " ++ str "\u0042" ++ str "!") = pre ++ str "\u0042" ++ post) /\
  (decodeUnicode (str "\\U0043") = decodeUnicodeEscapes (str "\\U0043")) /\
  (decodeUnicode (str "plain text") = str "plain text").
Proof.
  destruct decode_dispatch_on_content as (H1 & H2 & H3 & H4 & _).
  split; [|split; [|split]].
  - apply (H1 (str "x=U+0041")). vm_compute. reflexivity.
  - apply (H2 (str "U+0041 ") (str "\u0042") (str "!")); vm_compute; reflexivity.
  - apply (H3 (str "\\U0043")); [vm_compute; reflexivity|].
    right. vm_compute. reflexivity.
  - apply (H4 (str "plain text")); vm_compute; reflexivity.
Defined.

(** ** Claims on hex and base64 runs *)

(** C1, as the code has it.  A run is what the scanner reads from its
    cursor up to the first byte outside the base64 alphabet.  A run of
    32 bytes or more, all hex digits, is a Hex match over the run
    alone, whatever follows it ('=' included).  A text of exactly 32
    hex digits is one Hex match; one of exactly 31 hex digits is one
    Base64 match; one of exactly 16 base64-alphabet bytes is one Base64
    match.  A text of 15 base64-alphabet bytes or fewer has no match,
    unless it is [U+] and four hex digits, which is one Unicode match. *)
Theorem run_classification :
  (forall data i e,
     cursorReaches data i = true -> isRun data i e = true ->
     allBetween isHexChar data i e = true -> 32 <= e - i ->
     In (hexMatch i e) (findEncodingMatches overlaps data)) /\
  (forall ovl data,
     List.length data = 32 -> forallb isHexChar data = true ->
     findEncodingMatches ovl data = [hexMatch 0 32]) /\
  (forall ovl data,
     List.length data = 31 -> forallb isHexChar data = true ->
     findEncodingMatches ovl data = [base64Match 0 31]) /\
  (forall ovl data,
     List.length data = 16 -> forallb isB64Char data = true ->
     findEncodingMatches ovl data = [base64Match 0 16]) /\
  (forall ovl data,
     List.length data <= 15 -> forallb isB64Char data = true ->
     findEncodingMatches ovl data
     = if isCodePointText data then [unicodeMatch 0 6] else []).
Proof.
  split; [|split; [|split; [|split]]].
  - intros data i e Hr Hrun Hhex Hlen.
    pose proof (isRun_inv data i e Hrun) as (Hie & Hen & _).
    apply (emitted_at_cursor data i); [exact Hr|lia|].
    rewrite (scanStep_run data i e Hrun) by (apply (long_run_not_codePoint data i e); auto; lia).
    rewrite Hhex. replace (32 <=? e - i) with true by (symmetry; now apply Nat.leb_le).
    reflexivity.
  - intros ovl data Hlen Hhex.
    rewrite whole_text_matches
      by (try (now apply forallb_hex_b64); intros ->; discriminate).
    unfold isCodePointText. rewrite Hlen, Hhex. reflexivity.
  - intros ovl data Hlen Hhex.
    rewrite whole_text_matches
      by (try (now apply forallb_hex_b64); intros ->; discriminate).
    unfold isCodePointText. rewrite Hlen, Hhex. reflexivity.
  - intros ovl data Hlen Hall.
    rewrite whole_text_matches by (try assumption; intros ->; discriminate).
    unfold isCodePointText. rewrite Hlen. cbn [Nat.eqb andb Nat.leb].
    now rewrite andb_false_r.
  - intros ovl data Hlen Hall.
    destruct data as [|c data]; [reflexivity|].
    rewrite whole_text_matches by (try assumption; discriminate).
    destruct (isCodePointText (c :: data)); [reflexivity|].
    replace (32 <=? List.length (c :: data)) with false
      by (symmetry; apply Nat.leb_gt; lia).
    replace (16 <=? List.length (c :: data)) with false
      by (symmetry; apply Nat.leb_gt; lia).
    now rewrite andb_false_r.
Qed.

Lemma run_classification_witness :
  In (hexMatch 4 36)
     (findEncodingMatches overlaps (str "key:466973684D617048756E6B7921212136==")) /\
  findEncodingMatches overlapsClosed (str "aabbccdd00112233aabbccdd00112233")
  = [hexMatch 0 32] /\
  findEncodingMatches overlapsClosed (str "aabbccdd00112233aabbccdd0011223")
  = [base64Match 0 31] /\
  findEncodingMatches overlapsClosed (str "aBcDeFgHiJkLmNoP") = [base64Match 0 16] /\
  findEncodingMatches overlapsClosed (str "aBcDeFgHiJkLmNo")
  = (if isCodePointText (str "aBcDeFgHiJkLmNo") then [unicodeMatch 0 6] else []).
Proof.
  destruct run_classification as (H1 & H2 & H3 & H4 & H5).
  split; [|split; [|split; [|split]]].
  - apply H1; vm_compute; reflexivity.
  - apply H2; vm_compute; reflexivity.
  - apply H3; vm_compute; reflexivity.
  - apply H4; vm_compute; reflexivity.
  - apply H5; vm_compute; [lia|reflexivity].
Defined.

(** The claim C1 as it is stated fails on its last part: [U+0041] is a
    run of six base64-alphabet bytes on its own and it yields a match,
    of kind Unicode. *)
Lemma short_run_counterexample :
  let data := str "U+0041" in
  forallb isB64Char data = true /\ List.length data <= 15 /\
  findEncodingMatches overlaps data = [unicodeMatch 0 6] /\
  findEncodingMatches overlaps data <> [].
Proof.
  cbv zeta. split; [reflexivity|]. split; [cbn; lia|]. split; [reflexivity|].
  vm_compute. discriminate.
Qed.

(** C2, as the code has it: the threshold of 16 counts the run without
    its padding.  A run of 16 bytes or more that is not an all-hex run
    of 32 or more is a Base64 match over the run and the '=' consumed
    after it (two at most); every Base64 match is such a run with its
    padding; and 14 base64-alphabet bytes followed by [==] yield no
    match, where 16 followed by [==] yield one of 18 bytes. *)
Theorem base64_run_threshold :
  (forall data i e,
     cursorReaches data i = true -> isRun data i e = true -> 16 <= e - i ->
     allBetween isHexChar data i e && (32 <=? e - i) = false ->
     In (base64Match i (e + padCount data e)) (findEncodingMatches overlaps data)) /\
  (forall ovl data m,
     In m (findEncodingMatches ovl data) -> mkind m = base64Kind ->
     exists e, isRun data (mstart m) e = true /\ 16 <= e - mstart m /\
       mend m = e + padCount data e) /\
  (forall ovl, findEncodingMatches ovl (str "aBcDeFgHiJkLmN==") = []) /\
  (forall ovl, findEncodingMatches ovl (str "aBcDeFgHiJkLmNoP==") = [base64Match 0 18]).
Proof.
  split; [|split; [|split]].
  - intros data i e Hr Hrun Hlen Hnothex.
    pose proof (isRun_inv data i e Hrun) as (Hie & Hen & _).
    apply (emitted_at_cursor data i); [exact Hr|lia|].
    rewrite (scanStep_run data i e Hrun) by (apply (long_run_not_codePoint data i e); auto; lia).
    rewrite Hnothex. replace (16 <=? e - i) with true by (symmetry; now apply Nat.leb_le).
    reflexivity.
  - intros ovl data m Hin. apply findEncodingMatches_incl in Hin. revert m Hin.
    apply (scanMatches_forall data (fun m => mkind m = base64Kind ->
             exists e, isRun data (mstart m) e = true /\ 16 <= e - mstart m /\
               mend m = e + padCount data e)).
    intros i m i' Hi Hs Hk.
    destruct (run_matches_sound data i m i' Hi Hs) as [Hb _].
    destruct (Hb Hk) as (e & Hrun & Hlen & ->). exists e. auto.
  - intros ovl. rewrite findEncodingMatches_single; vm_compute; [reflexivity|lia].
  - intros ovl. rewrite findEncodingMatches_single; vm_compute; [reflexivity|lia].
Qed.

Lemma base64_run_threshold_witness :
  let data := str "token: bG9uZ2VyLWVuY29kZWQtc2VjcmV0LXRlc3Q=" in
  In (base64Match 7 (42 + padCount data 42)) (findEncodingMatches overlaps data) /\
  exists e, isRun (str "aBcDeFgHiJkLmNoP===") (mstart (base64Match 0 18)) e = true /\
    16 <= e - mstart (base64Match 0 18) /\
    mend (base64Match 0 18) = e + padCount (str "aBcDeFgHiJkLmNoP===") e.
Proof.
  destruct base64_run_threshold as (H1 & H2 & _).
  split.
  - apply (H1 (str "token: bG9uZ2VyLWVuY29kZWQtc2VjcmV0LXRlc3Q=") 7 42);
      vm_compute; first [reflexivity | lia].
  - apply (H2 overlaps); vm_compute; [left|]; reflexivity.
Defined.

(** The claim C2 as it is stated fails: 14 base64-alphabet bytes with
    [==] after them are 16 bytes with the padding, and no match. *)
Lemma padded_run_counterexample :
  let data := str "aBcDeFgHiJkLmN==" in
  isRun data 0 14 = true /\ padCount data 14 = 2 /\ 16 <= 14 + padCount data 14 /\
  findEncodingMatches overlaps data = [] /\
  ~ exists m, In m (findEncodingMatches overlaps data) /\ mkind m = base64Kind.
Proof.
  cbv zeta. split; [reflexivity|]. split; [reflexivity|]. split; [cbn; lia|].
  split; [reflexivity|]. intros (m & Hin & _). vm_compute in Hin. exact Hin.
Qed.

(** ** Claims on Percent and Unicode matches *)

(** C3: a Percent match begins at '%' and two hex digits; it ends at
    the end of a triplet, holds no newline, and no triplet begins
    after its end on the same line: it runs to the last triplet of its
    line, whatever lies between the triplets.  Every triplet of the
    text lies in a Percent match, so a triplet of a later line is in a
    match of its own line; a triplet under the cursor starts one. *)
Theorem percent_span_greedy :
  (forall ovl data m,
     In m (findEncodingMatches ovl data) -> mkind m = percentKind ->
     isPercentTriplet data (mstart m) = true /\
     mstart m + 3 <= mend m <= List.length data /\
     isPercentTriplet data (mend m - 3) = true /\
     (forall x, mstart m <= x < mend m -> byteAt data x <> newline) /\
     (forall p, mend m <= p ->
        (forall x, mend m <= x <= p -> byteAt data x <> newline) ->
        isPercentTriplet data p = false)) /\
  (forall data p,
     isPercentTriplet data p = true ->
     exists m, In m (findEncodingMatches overlaps data) /\ mkind m = percentKind /\
       mstart m <= p /\ p + 3 <= mend m) /\
  (forall data i,
     cursorReaches data i = true -> isPercentTriplet data i = true ->
     exists e, In (percentMatch i e) (findEncodingMatches overlaps data)) /\
  findEncodingMatches overlaps (str "%20stuff%3D") = [percentMatch 0 11] /\
  findEncodingMatches overlaps (str "%20hello" ++ [newline] ++ str "%3D")
  = [percentMatch 0 3; percentMatch 9 12].
Proof.
  split; [|split; [|split; [|split; reflexivity]]].
  - intros ovl data m Hin. apply findEncodingMatches_incl in Hin. revert m Hin.
    apply (scanMatches_forall data (fun m => mkind m = percentKind -> _)).
    intros i m i' Hi Hs Hk.
    destruct (step_kinds data i m i' Hi Hs) as [Hpc _].
    destruct (Hpc Hk) as (Ht & -> & _). cbn [mstart mend percentMatch span start end_].
    destruct (percent_match_shape data i Ht) as (Hbd & Hend & Hnl & Hlast).
    repeat split; auto; try lia.
    intros p Hp Hline. destruct (isPercentTriplet data p) eqn:T; [|reflexivity].
    exfalso. assert (p + 3 <= percentScan data (List.length data - (i + 3)) (i + 3) (i + 3)).
    { apply Hlast; auto; try lia. intros x Hx.
      destruct (Nat.lt_ge_cases x
                  (percentScan data (List.length data - (i + 3)) (i + 3) (i + 3)));
        [apply Hnl|apply Hline]; lia. }
    lia.
  - intros data p Ht. rewrite findEncodingMatches_overlaps.
    now apply percent_covered.
  - intros data i Hr Ht.
    exists (percentScan data (List.length data - (i + 3)) (i + 3) (i + 3)).
    apply (emitted_at_cursor data i); auto.
    + apply isPercentTriplet_bound in Ht. lia.
    + unfold scanStep, tryPercent. rewrite Ht. reflexivity.
Qed.

Lemma percent_span_greedy_witness :
  let data := str "a=%20b c%3Dd" ++ [newline] ++ str "x%41" in
  (isPercentTriplet data (mstart (percentMatch 2 11)) = true /\
   mstart (percentMatch 2 11) + 3 <= mend (percentMatch 2 11) <= List.length data /\
   isPercentTriplet data (mend (percentMatch 2 11) - 3) = true /\
   (forall x, mstart (percentMatch 2 11) <= x < mend (percentMatch 2 11) ->
      byteAt data x <> newline) /\
   (forall p, mend (percentMatch 2 11) <= p ->
      (forall x, mend (percentMatch 2 11) <= x <= p -> byteAt data x <> newline) ->
      isPercentTriplet data p = false)) /\
  (exists m, In m (findEncodingMatches overlaps data) /\ mkind m = percentKind /\
     mstart m <= 14 /\ 14 + 3 <= mend m) /\
  (exists e, In (percentMatch 2 e) (findEncodingMatches overlaps data)).
Proof.
  intros data. destruct percent_span_greedy as (H1 & H2 & H3 & _).
  split; [|split].
  - apply (H1 overlaps data (percentMatch 2 11)); vm_compute; auto.
  - apply (H2 data 14). vm_compute. reflexivity.
  - apply (H3 data 2); vm_compute; reflexivity.
Defined.

(** C4: a Unicode match that begins at 'U' is a sequence of [U+XXXX]
    groups, each followed by whitespace or by the end of the text,
    with whitespace alone between two groups; it ends at the end of
    the last such group, and no further group could be appended.  A
    group under the cursor that is followed by whitespace or by the
    end of the text starts such a match; a group followed by another
    byte starts none. *)
Theorem codepoint_match_rule :
  (forall ovl data m,
     In m (findEncodingMatches ovl data) -> mkind m = unicodeKind ->
     byteAt data (mstart m) = "U" ->
     CodePointSpan data (mstart m) (mend m) /\ spanMaximal data (mend m) /\
     wsOrEnd data (mstart m + 6) = true /\ wsOrEnd data (mend m) = true) /\
  (forall data i,
     cursorReaches data i = true ->
     isCodePoint data i = true -> wsOrEnd data (i + 6) = true ->
     exists e, In (unicodeMatch i e) (findEncodingMatches overlaps data)) /\
  (forall ovl data i m,
     isCodePoint data i = true -> wsOrEnd data (i + 6) = false ->
     In m (findEncodingMatches ovl data) -> mkind m = unicodeKind -> mstart m <> i) /\
  (forall ovl, findEncodingMatches ovl (str "U+0041X") = []) /\
  (forall ovl, findEncodingMatches ovl (str "U+0041") = [unicodeMatch 0 6]) /\
  (forall ovl, findEncodingMatches ovl (str "U+0048 U+0069") = [unicodeMatch 0 13]) /\
  (forall ovl, findEncodingMatches ovl (str "U+0048 U+0069X") = [unicodeMatch 0 6]).
Proof.
  assert (Hsound : forall ovl data m,
     In m (findEncodingMatches ovl data) -> mkind m = unicodeKind ->
     byteAt data (mstart m) = "U" ->
     CodePointSpan data (mstart m) (mend m) /\ spanMaximal data (mend m) /\
     wsOrEnd data (mstart m + 6) = true /\ wsOrEnd data (mend m) = true).
  { intros ovl data m Hin. apply findEncodingMatches_incl in Hin. revert m Hin.
    apply (scanMatches_forall data (fun m => mkind m = unicodeKind ->
             byteAt data (mstart m) = "U" -> _)).
    intros i m i' Hi Hs Hk HU.
    destruct (step_kinds data i m i' Hi Hs) as [_ Huc].
    destruct (Huc Hk) as [(Hc & Hw & -> & _)|(Hb & _ & [(_ & _ & ->)|(_ & _ & ->)])];
      cbn [mstart mend unicodeMatch span start end_] in *;
      try (rewrite Hb in HU; discriminate).
    pose proof (isCodePoint_bound data i Hc).
    destruct (codePointLoop_spec data (List.length data) (i + 6) i ltac:(lia) ltac:(lia)
                (SpanFirst data i Hc Hw)) as [Hspan Hmax].
    destruct (CodePointSpan_ends data _ _ Hspan) as (_ & _ & _ & _ & Hend).
    auto. }
  split; [exact Hsound|]. split; [|split; [|split; [|split; [|split]]]].
  - intros data i Hr Hc Hw.
    exists (codePointLoop data (List.length data) (i + 6) (i + 6)).
    apply (emitted_at_cursor data i); auto.
    + apply isCodePoint_bound in Hc. lia.
    + assert (Hp : isPercentTriplet data i = false).
      { unfold isCodePoint in Hc. split_andb.
        match goal with Hu : Ascii.eqb (byteAt data i) "U" = true |- _ =>
          apply Ascii.eqb_eq in Hu; unfold isPercentTriplet; rewrite Hu end.
        reflexivity. }
      unfold scanStep, tryPercent, tryCodePoint. rewrite Hp, Hc, Hw. reflexivity.
  - intros ovl data i m Hc Hw Hin Hk Hst. subst i.
    assert (HU : byteAt data (mstart m) = "U").
    { unfold isCodePoint in Hc. split_andb. now apply Ascii.eqb_eq. }
    destruct (Hsound ovl data m Hin Hk HU) as (_ & _ & Hw' & _). congruence.
  - intros ovl. rewrite findEncodingMatches_single; vm_compute; [reflexivity|lia].
  - intros ovl. rewrite findEncodingMatches_single; vm_compute; [reflexivity|lia].
  - intros ovl. rewrite findEncodingMatches_single; vm_compute; [reflexivity|lia].
  - intros ovl. rewrite findEncodingMatches_single; vm_compute; [reflexivity|lia].
Qed.

Lemma codepoint_match_rule_witness :
  let data := str "id U+0048  U+0069 U+006AX" in
  (CodePointSpan data (mstart (unicodeMatch 3 17)) (mend (unicodeMatch 3 17)) /\
   spanMaximal data (mend (unicodeMatch 3 17)) /\
   wsOrEnd data (mstart (unicodeMatch 3 17) + 6) = true /\
   wsOrEnd data (mend (unicodeMatch 3 17)) = true) /\
  (exists e, In (unicodeMatch 3 e) (findEncodingMatches overlaps data)) /\
  mstart (unicodeMatch 3 17) <> 18.
Proof.
  intros data. destruct codepoint_match_rule as (H1 & H2 & H3 & _).
  split; [|split].
  - apply (H1 overlaps data (unicodeMatch 3 17)); vm_compute; auto.
  - apply (H2 data 3); vm_compute; reflexivity.
  - apply (H3 overlaps data 18 (unicodeMatch 3 17)); vm_compute; auto.
Defined.

(** C5 and the input on which the code departs from it.  An escape
    under the cursor, [\uXXXX] or [\\uXXXX] with [u] or [U], starts a
    Unicode match at its first backslash, and the match runs over the
    escapes that follow one another up to the first position where no
    escape starts -- except for a double-backslash escape whose last
    hex digit is the last byte of the text: the test for it is
    [i+7 < n], it fails there, and the match starts at the second
    backslash.  The loop that merges further escapes accepts the same
    escape at the end of the text (its test is [j+6 < n]), and so does
    the decoder. *)
Theorem double_escape_at_end_of_text :
  (forall data i,
     cursorReaches data i = true -> 0 < escapeLenAt data i ->
     ~ (doubleEscapeAt data i = true /\ i + 7 = List.length data) ->
     exists e, In (unicodeMatch i e) (findEncodingMatches overlaps data) /\
       EscapeSeq data i e /\ escapeLenAt data e = 0) /\
  (forall ovl, findEncodingMatches ovl (str "\\u0041") = [unicodeMatch 1 7]) /\
  doubleEscapeAt (str "\\u0041") 0 = true /\
  (forall ovl, findEncodingMatches ovl (str "\\u0041 ") = [unicodeMatch 0 7]) /\
  (forall ovl, findEncodingMatches ovl (str "\u0041") = [unicodeMatch 0 6]) /\
  (forall ovl, findEncodingMatches ovl (str "\u0041\\u0042") = [unicodeMatch 0 13]) /\
  decodeUnicode (str "\\u0041") = str "A".
Proof.
  split; [|split; [|split; [|split; [|split; [|split]]]]].
  - intros data i Hr Hlen Hnot.
    destruct (scanStep_escape data i Hlen Hnot) as (e & Hs & Hseq & Hmax).
    exists e. split; [|auto].
    apply (emitted_at_cursor data i); auto.
    + pose proof (escapeLenAt_bound data i Hlen). lia.
    + now rewrite Hs.
  - intros ovl. rewrite findEncodingMatches_single; vm_compute; [reflexivity|lia].
  - reflexivity.
  - intros ovl. rewrite findEncodingMatches_single; vm_compute; [reflexivity|lia].
  - intros ovl. rewrite findEncodingMatches_single; vm_compute; [reflexivity|lia].
  - intros ovl. rewrite findEncodingMatches_single; vm_compute; [reflexivity|lia].
  - reflexivity.
Qed.

Lemma double_escape_at_end_of_text_witness :
  let data := str "secret=\\u0068\U0069\\u0021 x" in
  exists e, In (unicodeMatch 7 e) (findEncodingMatches overlaps data) /\
    EscapeSeq data 7 e /\ escapeLenAt data e = 0.
Proof.
  intros data. apply (proj1 double_escape_at_end_of_text data 7).
  - vm_compute. reflexivity.
  - vm_compute. lia.
  - vm_compute. intros [_ H]. discriminate H.
Defined.

(** * Further properties of the code *)

(** ** The classifier tables *)

(** X1: the tables [init] fills are consistent with one another.  A
    byte is in [isB64Char] exactly when it is in [isHexChar] or in
    [isB64NotHex], never in both; whitespace, '%', '=' and the
    backslash are outside the base64 alphabet, and a hex digit is
    never 'U', '+' or 'u': the tests of the scanner's branches exclude
    one another. *)
Theorem tables_partition (c : ascii) :
  isB64Char c = isHexChar c || isB64NotHex c /\
  isHexChar c && isB64NotHex c = false /\
  isWhitespace c && isB64Char c = false /\
  isB64Char c && (Ascii.eqb c "%" || Ascii.eqb c "=" || Ascii.eqb c backslash ||
                  Ascii.eqb c newline) = false /\
  isHexChar c && (Ascii.eqb c "U" || Ascii.eqb c "+" || Ascii.eqb c "u") = false.
Proof.
  destruct c as [[] [] [] [] [] [] [] []]; vm_compute; repeat split; reflexivity.
Qed.

(** ** Combined kinds *)

Lemma kinds_eq (e : Z) :
  kinds e =
  (if (Z.land e 1 =? 0)%Z then [] else [Z.land e 1]) ++
  (if (Z.land e 2 =? 0)%Z then [] else [Z.land e 2]) ++
  (if (Z.land e 4 =? 0)%Z then [] else [Z.land e 4]) ++
  (if (Z.land e 8 =? 0)%Z then [] else [Z.land e 8]).
Proof.
  unfold kinds. cbn [encodingNames List.length kindsLoop Z.of_nat].
  change (2 ^ 0)%Z with 1%Z. change (2 ^ Z.pos (Pos.of_succ_nat 0))%Z with 2%Z.
  change (2 ^ Z.pos (Pos.of_succ_nat 1))%Z with 4%Z.
  change (2 ^ Z.pos (Pos.of_succ_nat 2))%Z with 8%Z.
  destruct (Z.land e 1 =? 0)%Z, (Z.land e 2 =? 0)%Z, (Z.land e 4 =? 0)%Z,
    (Z.land e 8 =? 0)%Z; reflexivity.
Qed.

Lemma land_flag (e : Z) (k : nat) :
  Z.land e (2 ^ Z.of_nat k) = (if Z.testbit e (Z.of_nat k) then 2 ^ Z.of_nat k else 0)%Z.
Proof.
  apply Z.bits_inj'. intros j Hj. rewrite Z.land_spec.
  destruct (Z.eq_dec j (Z.of_nat k)) as [->|Hne].
  - rewrite Z.pow2_bits_true by lia. rewrite andb_true_r.
    destruct (Z.testbit e (Z.of_nat k)).
    + now rewrite Z.pow2_bits_true by lia.
    + now rewrite Z.bits_0.
  - rewrite Z.pow2_bits_false by lia. rewrite andb_false_r.
    destruct (Z.testbit e (Z.of_nat k)).
    + now rewrite Z.pow2_bits_false by lia.
    + now rewrite Z.bits_0.
Qed.

Lemma orKinds_bit (ks : list encodingKind) (k : encodingKind) :
  Z.land (orKinds ks) (kindFlag k) = (if existsb (fun x => (kindFlag x =? kindFlag k)%Z) ks
                                      then kindFlag k else 0)%Z.
Proof.
  induction ks as [|x ks IH]; cbn [orKinds fold_right existsb].
  - now rewrite Z.land_0_l.
  - fold (orKinds ks). rewrite Z.land_lor_distr_l, IH.
    destruct x, k; cbn [kindFlag Z.eqb Pos.eqb orb Z.land Pos.land];
      destruct (existsb _ ks); reflexivity.
Qed.

(** X2: [kinds] takes a combined kind apart.  Whatever the integer,
    the list holds only flags of single kinds, in increasing order and
    without repetition, and or-ing them gives the four low bits of the
    integer back.  For kinds or'd together it holds the flag of a kind
    exactly when that kind was among them; in particular the kinds of
    one flag are that flag alone, and those of 0 are none. *)
Theorem kinds_decompose :
  (forall e f, In f (kinds e) ->
     (f = 1 \/ f = 2 \/ f = 4 \/ f = 8)%Z /\ Z.land e f = f) /\
  (forall e, fold_right Z.lor 0%Z (kinds e) = Z.land e 15) /\
  (forall e, StronglySorted Z.lt (kinds e)) /\
  (forall ks k, In (kindFlag k) (kinds (orKinds ks)) <-> In k ks) /\
  (forall k, kinds (kindFlag k) = [kindFlag k]) /\
  kinds 0 = [].
Proof.
  split; [|split; [|split; [|split; [|split]]]].
  - intros e f. rewrite kinds_eq.
    pose proof (land_flag e 0) as H0. pose proof (land_flag e 1) as H1.
    pose proof (land_flag e 2) as H2. pose proof (land_flag e 3) as H3.
    change (2 ^ Z.of_nat 0)%Z with 1%Z in H0. change (2 ^ Z.of_nat 1)%Z with 2%Z in H1.
    change (2 ^ Z.of_nat 2)%Z with 4%Z in H2. change (2 ^ Z.of_nat 3)%Z with 8%Z in H3.
    intros Hin. repeat (apply in_app_or in Hin; destruct Hin as [Hin|Hin]);
      match type of Hin with
      | In _ (if (Z.land e ?c =? 0)%Z then _ else _) =>
          destruct (Z.land e c =? 0)%Z eqn:E; [contradiction|];
          destruct Hin as [<-|[]]; apply Z.eqb_neq in E
      end.
    + rewrite H0 in *. destruct (Z.testbit e (Z.of_nat 0)); [|congruence].
      rewrite <- H0 at 2. auto.
    + rewrite H1 in *. destruct (Z.testbit e (Z.of_nat 1)); [|congruence].
      rewrite <- H1 at 2. auto.
    + rewrite H2 in *. destruct (Z.testbit e (Z.of_nat 2)); [|congruence].
      rewrite <- H2 at 2. auto.
    + rewrite H3 in *. destruct (Z.testbit e (Z.of_nat 3)); [|congruence].
      rewrite <- H3 at 2. auto 10.
  - intros e. rewrite kinds_eq.
    assert (H : Z.land e 15 = Z.lor (Z.land e 1) (Z.lor (Z.land e 2)
                                 (Z.lor (Z.land e 4) (Z.land e 8)))).
    { rewrite <- !Z.land_lor_distr_r. reflexivity. }
    rewrite H.
    destruct (Z.land e 1 =? 0)%Z eqn:E1; [apply Z.eqb_eq in E1; rewrite E1|];
      (destruct (Z.land e 2 =? 0)%Z eqn:E2; [apply Z.eqb_eq in E2; rewrite E2|]);
      (destruct (Z.land e 4 =? 0)%Z eqn:E4; [apply Z.eqb_eq in E4; rewrite E4|]);
      (destruct (Z.land e 8 =? 0)%Z eqn:E8; [apply Z.eqb_eq in E8; rewrite E8|]);
      cbn [app fold_right]; rewrite ?Z.lor_0_r, ?Z.lor_0_l; reflexivity.
  - intros e. rewrite kinds_eq.
    pose proof (land_flag e 0) as H0. pose proof (land_flag e 1) as H1.
    pose proof (land_flag e 2) as H2. pose proof (land_flag e 3) as H3.
    change (2 ^ Z.of_nat 0)%Z with 1%Z in H0. change (2 ^ Z.of_nat 1)%Z with 2%Z in H1.
    change (2 ^ Z.of_nat 2)%Z with 4%Z in H2. change (2 ^ Z.of_nat 3)%Z with 8%Z in H3.
    rewrite H0, H1, H2, H3.
    destruct (Z.testbit e (Z.of_nat 0)), (Z.testbit e (Z.of_nat 1)),
      (Z.testbit e (Z.of_nat 2)), (Z.testbit e (Z.of_nat 3)); cbn;
      repeat constructor; lia.
  - intros ks k. rewrite kinds_eq.
    pose proof (orKinds_bit ks percentKind) as B1.
    pose proof (orKinds_bit ks unicodeKind) as B2.
    pose proof (orKinds_bit ks hexKind) as B4.
    pose proof (orKinds_bit ks base64Kind) as B8.
    cbn [kindFlag] in B1, B2, B4, B8. rewrite B1, B2, B4, B8.
    assert (Hex : forall x, existsb (fun y => (kindFlag y =? kindFlag x)%Z) ks = true
                            <-> In x ks).
    { intros x. rewrite existsb_exists. split.
      - intros (y & Hy & E). apply Z.eqb_eq in E.
        replace x with y; [exact Hy|]. destruct x, y; cbn in E; congruence.
      - intros Hx. exists x. split; [exact Hx|apply Z.eqb_refl]. }
    pose proof (Hex percentKind) as X1. pose proof (Hex unicodeKind) as X2.
    pose proof (Hex hexKind) as X4. pose proof (Hex base64Kind) as X8.
    cbn [kindFlag] in X1, X2, X4, X8.
    destruct (existsb (fun y => (kindFlag y =? 1)%Z) ks),
      (existsb (fun y => (kindFlag y =? 2)%Z) ks),
      (existsb (fun y => (kindFlag y =? 4)%Z) ks),
      (existsb (fun y => (kindFlag y =? 8)%Z) ks);
      destruct k; cbn; intuition (try discriminate; try congruence).
  - intros k. destruct k; reflexivity.
  - reflexivity.
Qed.

Lemma kinds_decompose_witness :
  ((2 = 1 \/ 2 = 2 \/ 2 = 4 \/ 2 = 8)%Z /\ Z.land 10 2 = 2%Z) /\
  (In (kindFlag hexKind) (kinds (orKinds [percentKind; hexKind])) <->
   In hexKind [percentKind; hexKind]).
Proof.
  destruct kinds_decompose as (H1 & _ & _ & H4 & _).
  split.
  - apply (H1 10%Z 2%Z). vm_compute. auto.
  - apply H4.
Defined.

(** ** Further properties of the scanner *)

Lemma step_enc_in_table (data : bytes) (i : nat) (m : encodingMatch) (i' : nat) :
  scanStep data i = (Some m, i') -> In (enc m) encodings.
Proof.
  intros Hs. pose proof (scanStep_inv data i _ _ Hs) as Hc.
  remember (Some m) as om eqn:Hom in Hc.
  destruct Hc as [Hp|Hp Hcp Hw|Hb H7 Hd|Hb Hd H5 Hsg
                 |j allHex eqCount e Hp Hcp Hb Hr Hq|];
    try (inversion Hom; subst m; cbn; tauto); try discriminate.
  destruct (allHex && (32 <=? j - i)); [inversion Hom; subst m; cbn; tauto|].
  destruct (16 <=? j - i); [inversion Hom; subst m; cbn; tauto|discriminate].
Qed.

Lemma firstn_plus {A : Type} (a b : nat) (l : list A) :
  firstn (a + b) l = firstn a l ++ firstn b (skipn a l).
Proof.
  revert l. induction a as [|a IH]; intros l; [reflexivity|].
  destruct l as [|x l]; cbn [Nat.add firstn skipn app].
  - now rewrite firstn_nil.
  - now rewrite IH.
Qed.

Lemma slice_length (data : bytes) (m : encodingMatch) :
  mend m <= List.length data -> List.length (slice data m) = mend m - mstart m.
Proof.
  intros H. unfold slice. rewrite length_firstn, length_skipn. lia.
Qed.

Lemma slice_byteAt (data : bytes) (m : encodingMatch) (k : nat) :
  k < mend m - mstart m ->
  byteAt (slice data m) k = byteAt data (mstart m + k).
Proof.
  intros Hk. unfold slice, byteAt.
  rewrite nth_firstn. replace (k <? mend m - mstart m) with true
    by (symmetry; now apply Nat.ltb_lt).
  apply nth_skipn.
Qed.

(** X3: every match the scanner returns is a valid, non-empty slice of
    the text it was given: [0 <= start < end <= len(data)], so that
    [data[start:end]] is defined and has [end - start] bytes; and its
    encoding is an entry of the table [encodings], the precedence
    being the one of its kind. *)
Theorem match_in_bounds (ovl : startEnd -> startEnd -> bool) (data : bytes)
    (m : encodingMatch) :
  In m (findEncodingMatches ovl data) ->
  mstart m < mend m /\ mend m <= List.length data /\
  List.length (slice data m) = mend m - mstart m /\
  In (enc m) encodings /\
  precedence (enc m) = match mkind m with
                       | percentKind => 4
                       | unicodeKind => 3
                       | hexKind => 2
                       | base64Kind => 1
                       end%Z.
Proof.
  intros Hin. apply findEncodingMatches_incl in Hin. revert m Hin.
  apply (scanMatches_forall data (fun m => _)).
  intros i m i' Hi Hs.
  pose proof (scanStep_bounds data i Hi) as [_ Hm]. rewrite Hs in Hm.
  destruct (Hm m eq_refl) as (Hst & Hen & Hlt).
  pose proof (step_enc_in_table data i m i' Hs) as Henc.
  split; [lia|]. split; [lia|]. split; [apply slice_length; lia|]. split; [exact Henc|].
  unfold mkind. cbn in Henc.
  destruct Henc as [<-|[<-|[<-|[<-|[]]]]]; reflexivity.
Qed.

Lemma match_in_bounds_witness :
  let data := str "id=%41%42 466973684D617048756E6B7921212136" in
  let m := percentMatch 3 9 in
  mstart m < mend m /\ mend m <= List.length data /\
  List.length (slice data m) = mend m - mstart m /\
  In (enc m) encodings /\
  precedence (enc m) = match mkind m with
                       | percentKind => 4
                       | unicodeKind => 3
                       | hexKind => 2
                       | base64Kind => 1
                       end%Z.
Proof.
  intros data m. apply (match_in_bounds overlaps data m). vm_compute. auto.
Defined.

Section QuietText.

Variable data : bytes.

Local Abbreviation n := (List.length data).

Hypothesis quiet : quietText data = true.

Lemma quiet_at (p : nat) :
  p < n ->
  isPercentTriplet data p = false /\ isCodePoint data p = false /\
  escapeLenAt data p = 0 /\
  (p + 16 <= n -> allBetween isB64Char data p (p + 16) = false).
Proof.
  intros Hp. unfold quietText in quiet. rewrite forallb_forall in quiet.
  specialize (quiet p ltac:(apply in_seq; lia)). split_andb.
  repeat match goal with
    | H : negb _ = true |- _ => apply negb_true_iff in H
    | H : (_ =? _) = true |- _ => apply Nat.eqb_eq in H
    end.
  repeat split; auto. intros H16.
  match goal with H : _ && _ = false |- _ =>
    replace (p + 16 <=? n) with true in H by (symmetry; now apply Nat.leb_le);
    exact H end.
Qed.

Lemma quiet_step (i : nat) (m : encodingMatch) (i' : nat) :
  i < n -> scanStep data i = (Some m, i') -> False.
Proof.
  intros Hi Hs. destruct (quiet_at i Hi) as (Hp & Hc & He & Hr).
  assert (Hd : doubleEscapeAt data i = false /\ singleEscapeAt data i = false).
  { unfold escapeLenAt in He.
    destruct (doubleEscapeAt data i); [discriminate|].
    destruct (singleEscapeAt data i); [discriminate|]. auto. }
  destruct Hd as [Hd Hsg].
  pose proof (scanStep_inv data i _ _ Hs) as Hcase.
  remember (Some m) as om eqn:Hom in Hcase.
  destruct Hcase as [Hp'|Hp' Hcp Hw|Hb H7 Hd'|Hb Hd' H5 Hsg'
                    |j allHex eqCount e Hp' Hcp Hb Hrun Hq|]; try congruence.
  - pose proof (doubleEscape_test data i) as T.
    replace (i + 6 <? n) with true in T by (symmetry; apply Nat.ltb_lt; lia).
    cbn [andb] in T. congruence.
  - pose proof (singleEscape_test data i) as T.
    replace (i + 5 <? n) with true in T by (symmetry; apply Nat.ltb_lt; lia).
    cbn [andb] in T. congruence.
  - clear Hom Hrun Hq. destruct (run_exists data i Hi Hb) as [r Hr'].
    rewrite (scanStep_run data i r Hr' Hcp) in Hs.
    pose proof (isRun_inv data i r Hr') as (Hir & Hrn & Hall & _).
    assert (Hshort : r - i < 16).
    { destruct (Nat.lt_ge_cases (r - i) 16) as [|Hge]; [assumption|exfalso].
      assert (H16 : allBetween isB64Char data i (i + 16) = true).
      { apply allBetween_spec. intros x Hx. rewrite allBetween_spec in Hall.
        apply Hall. lia. }
      rewrite Hr in H16 by lia. discriminate. }
    replace (32 <=? r - i) with false in Hs by (symmetry; apply Nat.leb_gt; lia).
    replace (16 <=? r - i) with false in Hs by (symmetry; apply Nat.leb_gt; lia).
    rewrite andb_false_r in Hs. discriminate.
Qed.

Lemma quiet_scanMatches : scanMatches data = [].
Proof.
  rewrite scanMatches_scanFrom.
  apply (scanFrom_ind data (fun _ l => l = [])).
  - reflexivity.
  - intros i m i' Hi Hs _. exfalso. exact (quiet_step i m i' Hi Hs).
  - auto.
Qed.

End QuietText.

(** X4: no false positives.  A text in which no percent triplet, no
    [U+XXXX] group and no backslash escape begins, and which has no
    sixteen base64-alphabet bytes in a row, yields no match, whatever
    the overlap test of the filter; the empty text is such a text. *)
Theorem quiet_text_no_match (ovl : startEnd -> startEnd -> bool) (data : bytes) :
  quietText data = true -> findEncodingMatches ovl data = [].
Proof.
  intros Hq. rewrite findEncodingMatches_single; rewrite quiet_scanMatches by exact Hq.
  - reflexivity.
  - cbn. lia.
Qed.

Lemma quiet_text_no_match_witness :
  findEncodingMatches overlapsClosed (str "func main() { fmt.Println(x, y, z) } // 100% U+1F") = [].
Proof.
  apply (quiet_text_no_match overlapsClosed). vm_compute. reflexivity.
Defined.

(** X5: what the hex and base64 decoders are handed.  The text of a
    Hex match is at least 32 bytes, all hex digits, and the byte after
    it, if any, is outside the base64 alphabet.  The text of a Base64
    match is at least 16 base64-alphabet bytes followed by nothing, by
    [=] or by [==], and nothing else. *)
Theorem run_match_text (ovl : startEnd -> startEnd -> bool) (data : bytes)
    (m : encodingMatch) :
  In m (findEncodingMatches ovl data) ->
  (mkind m = hexKind ->
     32 <= List.length (slice data m) /\ forallb isHexChar (slice data m) = true /\
     (mend m < List.length data -> isB64Char (byteAt data (mend m)) = false)) /\
  (mkind m = base64Kind ->
     exists run pad,
       slice data m = run ++ pad /\ 16 <= List.length run /\
       forallb isB64Char run = true /\
       (pad = [] \/ pad = ["="] \/ pad = ["="; "="])).
Proof.
  intros Hin. apply findEncodingMatches_incl in Hin. revert m Hin.
  apply (scanMatches_forall data (fun m => _)).
  intros i m i' Hi Hs.
  destruct (run_matches_sound data i m i' Hi Hs) as [Hb64 Hhex].
  split; intros Hk.
  - destruct (Hhex Hk) as (e & Hrun & Hlen & Hall & ->).
    pose proof (isRun_inv data i e Hrun) as (Hie & Hen & _ & Hmax).
    assert (Hsl : List.length (slice data (hexMatch i e)) = e - i)
      by (apply slice_length; exact Hen).
    split; [rewrite Hsl; exact Hlen|]. split; [|exact Hmax].
    rewrite <- allBetween_whole, Hsl. apply allBetween_spec. intros x Hx.
    rewrite slice_byteAt by (cbn; lia). cbn [mstart hexMatch span start].
    rewrite allBetween_spec in Hall. apply Hall. lia.
  - destruct (Hb64 Hk) as (e & Hrun & Hlen & ->).
    pose proof (isRun_inv data i e Hrun) as (Hie & Hen & Hall & _).
    exists (firstn (e - i) (skipn i data)), (firstn (padCount data e) (skipn e data)).
    assert (Hrl : List.length (firstn (e - i) (skipn i data)) = e - i)
      by (rewrite length_firstn, length_skipn; lia).
    split; [|split; [lia|split]].
    + unfold slice. cbn [mstart mend base64Match span start end_].
      replace (e + padCount data e - i) with ((e - i) + padCount data e) by lia.
      rewrite firstn_plus. f_equal.
      rewrite skipn_skipn. now replace (e - i + i) with e by lia.
    + rewrite <- allBetween_whole, Hrl. apply allBetween_spec. intros x Hx.
      unfold byteAt. rewrite nth_firstn.
      replace (x <? e - i) with true by (symmetry; apply Nat.ltb_lt; lia).
      rewrite nth_skipn. rewrite allBetween_spec in Hall. apply Hall. lia.
    + unfold padCount.
      destruct ((e <? List.length data) && Ascii.eqb (byteAt data e) "=") eqn:E1;
        [|now left].
      apply andb_prop in E1. destruct E1 as [L1 B1].
      apply Nat.ltb_lt in L1. apply Ascii.eqb_eq in B1.
      rewrite (skipn_byteAt data e L1), B1.
      destruct ((S e <? List.length data) && Ascii.eqb (byteAt data (S e)) "=") eqn:E2.
      * apply andb_prop in E2. destruct E2 as [L2 B2].
        apply Nat.ltb_lt in L2. apply Ascii.eqb_eq in B2.
        rewrite (skipn_byteAt data (S e) L2), B2. right. right. reflexivity.
      * right. left. reflexivity.
Qed.

Lemma run_match_text_witness :
  let data := str "k: 466973684D617048756E6B7921212136; t: bG9uZ2VyLWVuY29kZWQtc2VjcmV0== ok" in
  (mkind (hexMatch 3 35) = hexKind ->
     32 <= List.length (slice data (hexMatch 3 35)) /\
     forallb isHexChar (slice data (hexMatch 3 35)) = true /\
     (mend (hexMatch 3 35) < List.length data ->
      isB64Char (byteAt data (mend (hexMatch 3 35))) = false)) /\
  (mkind (base64Match 40 70) = base64Kind ->
     exists run pad,
       slice data (base64Match 40 70) = run ++ pad /\ 16 <= List.length run /\
       forallb isB64Char run = true /\
       (pad = [] \/ pad = ["="] \/ pad = ["="; "="])).
Proof.
  intros data. split.
  - apply (run_match_text overlaps data (hexMatch 3 35)). vm_compute. auto.
  - apply (run_match_text overlaps data (base64Match 40 70)). vm_compute. auto.
Defined.

Lemma single_not_double (data : bytes) (i : nat) :
  singleEscapeAt data i = true -> doubleEscapeAt data i = false.
Proof.
  unfold singleEscapeAt, doubleEscapeAt. intros H. split_andb.
  destruct (Ascii.eqb (byteAt data (i + 1)) backslash) eqn:E.
  - apply Ascii.eqb_eq in E.
    match goal with Hu : isU _ = true |- _ => rewrite E in Hu; vm_compute in Hu;
      discriminate Hu end.
  - now rewrite andb_false_r.
Qed.

(** X6: a Unicode match begins at [U] or at a backslash.  One that
    begins at a backslash is made of escapes only, [\uXXXX] or
    [\\uXXXX] one after the other with nothing between them, and it
    ends where no further escape starts. *)
Theorem escape_match_sound (ovl : startEnd -> startEnd -> bool) (data : bytes)
    (m : encodingMatch) :
  In m (findEncodingMatches ovl data) -> mkind m = unicodeKind ->
  byteAt data (mstart m) = "U" \/
  (byteAt data (mstart m) = backslash /\
   EscapeSeq data (mstart m) (mend m) /\ escapeLenAt data (mend m) = 0).
Proof.
  intros Hin. apply findEncodingMatches_incl in Hin. revert m Hin.
  apply (scanMatches_forall data (fun m => mkind m = unicodeKind -> _)).
  intros i m i' Hi Hs Hk.
  destruct (step_kinds data i m i' Hi Hs) as [_ Hu].
  destruct (Hu Hk) as [(Hcp & _ & -> & _)|(Hb & _ & [(H7 & Hd & ->)|(H5 & Hsg & ->)])];
    cbn [mstart mend unicodeMatch span start end_].
  - left. unfold isCodePoint in Hcp. split_andb.
    match goal with Hx : Ascii.eqb (byteAt data i) _ = true |- _ =>
      now apply Ascii.eqb_eq in Hx end.
  - right. split; [exact Hb|].
    pose proof (doubleEscape_test data i) as T.
    replace (i + 6 <? List.length data) with true in T
      by (symmetry; apply Nat.ltb_lt; lia).
    cbn [andb] in T. rewrite Hd in T.
    assert (L : escapeLenAt data i = 7) by (unfold escapeLenAt; now rewrite <- T).
    pose proof (EscapeOne data i ltac:(lia)) as Hone. rewrite L in Hone.
    apply escapeLoop_spec; [lia|exact Hone].
  - right. split; [exact Hb|].
    pose proof (singleEscape_test data i) as T.
    replace (i + 5 <? List.length data) with true in T
      by (symmetry; apply Nat.ltb_lt; lia).
    cbn [andb] in T. rewrite Hsg in T. symmetry in T.
    assert (L : escapeLenAt data i = 6)
      by (unfold escapeLenAt; now rewrite (single_not_double data i T), T).
    pose proof (EscapeOne data i ltac:(lia)) as Hone. rewrite L in Hone.
    apply escapeLoop_spec; [lia|exact Hone].
Qed.

Lemma escape_match_sound_witness :
  let data := str "name=\u0048\\u0069\u21! U+0041" in
  byteAt data (mstart (unicodeMatch 5 18)) = "U" \/
  (byteAt data (mstart (unicodeMatch 5 18)) = backslash /\
   EscapeSeq data (mstart (unicodeMatch 5 18)) (mend (unicodeMatch 5 18)) /\
   escapeLenAt data (mend (unicodeMatch 5 18)) = 0).
Proof.
  intros data. apply (escape_match_sound overlaps data (unicodeMatch 5 18)).
  - vm_compute. auto.
  - reflexivity.
Defined.

Section FilterMore.

Variable ovl : startEnd -> startEnd -> bool.

(** A candidate that no entry of [all] outranks is appended. *)
Lemma filterLoop_keeps (all : list encodingMatch) (m : encodingMatch) :
  (forall j, outrankedBy ovl all m j = false) ->
  forall rest i, In m rest -> In m (filterLoop ovl all i rest []).
Proof.
  intros Hno. induction rest as [|x rest IH]; intros i Hin; [contradiction|].
  cbn [filterLoop]. destruct Hin as [->|Hin].
  - rewrite !Hno, !andb_false_r, filterLoop_acc. cbn. now left.
  - specialize (IH (S i) Hin).
    destruct ((0 <? i) && outrankedBy ovl all x (i - 1)); [exact IH|].
    destruct ((i + 1 <? List.length all) && outrankedBy ovl all x (i + 1)); [exact IH|].
    rewrite filterLoop_acc. apply in_or_app. now right.
Qed.

(** With a test that reports no overlap between two distinct entries
    of [all], the loop appends every entry. *)
Lemma filterLoop_id (all : list encodingMatch) :
  (forall j k a b, j <> k -> nth_error all j = Some a -> nth_error all k = Some b ->
     ovl (span a) (span b) = false) ->
  forall rest i, (forall k, nth_error rest k = nth_error all (i + k)) ->
  filterLoop ovl all i rest [] = rest.
Proof.
  intros Hno. induction rest as [|m rest IH]; intros i Hnth; [reflexivity|].
  cbn [filterLoop].
  assert (Hm : nth_error all i = Some m).
  { specialize (Hnth 0). rewrite Nat.add_0_r in Hnth. now rewrite <- Hnth. }
  assert (Hout : forall k, i <> k -> outrankedBy ovl all m k = false).
  { intros k Hk. unfold outrankedBy. destruct (nth_error all k) as [o|] eqn:Ho; [|reflexivity].
    now rewrite (Hno i k m o Hk Hm Ho). }
  assert (Hrest : filterLoop ovl all (S i) rest [] = rest).
  { apply IH. intros k. specialize (Hnth (S k)). cbn in Hnth. rewrite Hnth. f_equal. lia. }
  rewrite (Hout (i + 1)) by lia. rewrite andb_false_r.
  destruct (0 <? i) eqn:E0; cbn [andb].
  - apply Nat.ltb_lt in E0. rewrite (Hout (i - 1)) by lia.
    rewrite filterLoop_acc, Hrest. reflexivity.
  - rewrite filterLoop_acc, Hrest. reflexivity.
Qed.

End FilterMore.

Lemma candidates_in_table (data : bytes) (m : encodingMatch) :
  In m (scanMatches data) -> In (enc m) encodings.
Proof.
  revert m. apply (scanMatches_forall data (fun m => In (enc m) encodings)).
  intros i m i' _ Hs. exact (step_enc_in_table data i m i' Hs).
Qed.

(** X7: the conflict filter never drops a Percent candidate, whatever
    the overlap test is: no entry of the table has a precedence above
    4.  So, for any overlap test, every percent triplet of the text
    lies inside a Percent match of the output. *)
Theorem percent_never_dropped (ovl : startEnd -> startEnd -> bool) (data : bytes) :
  (forall m, In m (scanMatches data) -> mkind m = percentKind ->
     In m (findEncodingMatches ovl data)) /\
  (forall p, isPercentTriplet data p = true ->
     exists m, In m (findEncodingMatches ovl data) /\ mkind m = percentKind /\
       mstart m <= p /\ p + 3 <= mend m).
Proof.
  assert (Hkeep : forall m, In m (scanMatches data) -> mkind m = percentKind ->
            In m (findEncodingMatches ovl data)).
  { intros m Hin Hk. unfold findEncodingMatches.
    destruct (List.length data =? 0) eqn:E.
    - apply Nat.eqb_eq in E. unfold scanMatches in Hin. rewrite E in Hin. exact Hin.
    - cbv zeta. destruct (List.length (scanMatches data) <=? 1); [exact Hin|].
      apply filterLoop_keeps; [|exact Hin].
      intros j. unfold outrankedBy.
      destruct (nth_error (scanMatches data) j) as [o|] eqn:Ho; [|reflexivity].
      apply nth_error_In in Ho. apply candidates_in_table in Ho.
      pose proof (candidates_in_table data m Hin) as Hm.
      unfold mkind in Hk. cbn in Ho, Hm.
      destruct Hm as [Hm|[Hm|[Hm|[Hm|[]]]]]; rewrite <- Hm in Hk |- *;
        try discriminate Hk.
      destruct Ho as [<-|[<-|[<-|[<-|[]]]]]; cbn; now rewrite andb_false_r. }
  split; [exact Hkeep|].
  intros p Ht. destruct (percent_covered data p Ht) as (m & Hin & Hk & Hb).
  exists m. auto.
Qed.

Lemma percent_never_dropped_witness :
  let data := str "secret%3D%22longvalue1234567%22" in
  In (percentMatch 6 31) (findEncodingMatches overlapsClosed data) /\
  exists m, In m (findEncodingMatches overlapsClosed data) /\ mkind m = percentKind /\
    mstart m <= 9 /\ 9 + 3 <= mend m.
Proof.
  intros data. destruct (percent_never_dropped overlapsClosed data) as [H1 H2]. split.
  - apply (H1 (percentMatch 6 31)); vm_compute; auto.
  - apply (H2 9). vm_compute. reflexivity.
Defined.

(** X8: the conflict filter changes nothing unless the overlap test
    reports an overlap between two spans that share no position.  For
    every test that answers [true] only on spans whose half-open
    intervals intersect, [findEncodingMatches] returns the candidates
    of the scanner, all of them and in their order: the candidates of
    one scan never intersect. *)
Theorem filter_is_identity (ovl : startEnd -> startEnd -> bool) (data : bytes) :
  (forall a b, ovl a b = true ->
     Nat.max (start a) (start b) < Nat.min (end_ a) (end_ b)) ->
  findEncodingMatches ovl data = scanMatches data.
Proof.
  intros Hsound. unfold findEncodingMatches.
  destruct (List.length data =? 0) eqn:E.
  - apply Nat.eqb_eq in E. unfold scanMatches. now rewrite E.
  - cbv zeta. destruct (List.length (scanMatches data) <=? 1); [reflexivity|].
    apply filterLoop_id; [|intros k; reflexivity].
    intros j k a b Hjk Ha Hb.
    destruct (ovl (span a) (span b)) eqn:Ho; [exfalso|reflexivity].
    apply Hsound in Ho.
    assert (Hc : ChainFrom 0 (scanMatches data))
      by (rewrite scanMatches_scanFrom; apply scanFrom_chain).
    destruct (Nat.lt_ge_cases j k) as [Hlt|Hge].
    + pose proof (ChainFrom_pairwise 0 _ j k a b Hc Hlt Ha Hb) as Hd.
      unfold mend, mstart in Hd. lia.
    + assert (Hkj : k < j) by lia.
      pose proof (ChainFrom_pairwise 0 _ k j b a Hc Hkj Hb Ha) as Hd.
      unfold mend, mstart in Hd. lia.
Qed.

Lemma filter_is_identity_witness :
  let strict := fun a b : startEnd =>
    (start a <=? start b) && (start b <? end_ a) && (start b <? end_ b) in
  let data := str "%41%42 bG9uZ2VyLWVuY29kZWQtc2VjcmV0LXRlc3Q=" in
  findEncodingMatches strict data = scanMatches data.
Proof.
  intros strict data. apply (filter_is_identity strict data).
  intros a b H. unfold strict in H.
  apply andb_prop in H. destruct H as [H H3]. apply andb_prop in H. destruct H as [H1 H2].
  apply Nat.leb_le in H1. apply Nat.ltb_lt in H2. apply Nat.ltb_lt in H3. lia.
Defined.

(** ** Further properties of the decoder *)

Lemma ltb_shift (p a b : nat) : (p + a <? p + b) = (a <? b).
Proof.
  destruct (a <? b) eqn:E; [apply Nat.ltb_lt in E; apply Nat.ltb_lt
                           |apply Nat.ltb_ge in E; apply Nat.ltb_ge]; lia.
Qed.

Lemma leb_shift (p a b : nat) : (p + a <=? p + b) = (a <=? b).
Proof.
  destruct (a <=? b) eqn:E; [apply Nat.leb_le in E; apply Nat.leb_le
                            |apply Nat.leb_gt in E; apply Nat.leb_gt]; lia.
Qed.

Section Shift.

Variables pre rest : bytes.

Local Abbreviation p := (List.length pre).

Lemma hexQuad_shift (k : nat) : hexQuad (pre ++ rest) (p + k) = hexQuad rest k.
Proof.
  unfold hexQuad. rewrite length_app, <- !Nat.add_assoc, leb_shift, !byteAt_app.
  reflexivity.
Qed.

Lemma quadValue_shift (k : nat) : quadValue (pre ++ rest) (p + k) = quadValue rest k.
Proof. unfold quadValue. rewrite <- !Nat.add_assoc, !byteAt_app. reflexivity. Qed.

Lemma codePointAt_shift (i : nat) : codePointAt (pre ++ rest) (p + i) = codePointAt rest i.
Proof.
  unfold codePointAt. rewrite <- !Nat.add_assoc, hexQuad_shift, !byteAt_app. reflexivity.
Qed.

Lemma singleEscapeAt_shift (i : nat) :
  singleEscapeAt (pre ++ rest) (p + i) = singleEscapeAt rest i.
Proof.
  unfold singleEscapeAt. rewrite <- !Nat.add_assoc, hexQuad_shift, !byteAt_app. reflexivity.
Qed.

Lemma doubleEscapeAt_shift (i : nat) :
  doubleEscapeAt (pre ++ rest) (p + i) = doubleEscapeAt rest i.
Proof.
  unfold doubleEscapeAt. rewrite <- !Nat.add_assoc, hexQuad_shift, !byteAt_app. reflexivity.
Qed.

Lemma skipSeparator_shift (i : nat) :
  skipSeparator (pre ++ rest) (p + i) = p + skipSeparator rest i.
Proof.
  unfold skipSeparator.
  rewrite length_app, <- !Nat.add_assoc, !ltb_shift, !byteAt_app.
  destruct ((i <? List.length rest) &&
            (Ascii.eqb (byteAt rest i) " " || Ascii.eqb (byteAt rest i) tab)); [|reflexivity].
  destruct ((i + 6 <? List.length rest) && Ascii.eqb (byteAt rest (i + 1)) "U" &&
            Ascii.eqb (byteAt rest (i + 2)) "+"); lia.
Qed.

Lemma codePointsStep_shift (i : nat) :
  codePointsStep (pre ++ rest) (p + i)
  = (fst (fst (codePointsStep rest i)), snd (fst (codePointsStep rest i)),
     p + snd (codePointsStep rest i)).
Proof.
  unfold codePointsStep. rewrite !codePointUnit_spec, codePointAt_shift.
  destruct (codePointAt rest i); cbn [fst snd].
  - rewrite <- !Nat.add_assoc, quadValue_shift, skipSeparator_shift. reflexivity.
  - rewrite byteAt_app. f_equal. lia.
Qed.

Lemma escapesStep_shift (i : nat) :
  escapesStep (pre ++ rest) (p + i)
  = (fst (fst (escapesStep rest i)), snd (fst (escapesStep rest i)),
     p + snd (escapesStep rest i)).
Proof.
  unfold escapesStep. rewrite byteAt_app.
  destruct (Ascii.eqb (byteAt rest i) backslash) eqn:Hb; cbn [fst snd].
  - rewrite !doubleEscapeUnit_spec, !singleEscapeUnit_spec
      by (try rewrite byteAt_app; exact Hb).
    rewrite doubleEscapeAt_shift, singleEscapeAt_shift.
    destruct (doubleEscapeAt rest i); cbn [fst snd].
    + rewrite <- !Nat.add_assoc, quadValue_shift. reflexivity.
    + destruct (singleEscapeAt rest i); cbn [fst snd].
      * rewrite <- !Nat.add_assoc, quadValue_shift. reflexivity.
      * f_equal. lia.
  - f_equal. lia.
Qed.

(** The loop on [pre ++ rest] from a cursor behind [pre] is the loop
    on [rest], for two iterations that agree up to the shift. *)
Lemma decodeFrom_shift (f g : nat -> bytes * bool * nat) :
  (forall j, j < List.length (pre ++ rest) -> j < snd (f j)) ->
  (forall i, i < List.length rest -> i < snd (g i)) ->
  (forall i, f (p + i) = (fst (fst (g i)), snd (fst (g i)), p + snd (g i))) ->
  forall i, decodeFrom (pre ++ rest) f (p + i) = decodeFrom rest g i.
Proof.
  intros Hf Hg Hfg i. remember (List.length rest - i) as d eqn:Hd. revert i Hd.
  induction d as [d IH] using lt_wf_ind. intros i Hd.
  destruct (Nat.lt_ge_cases i (List.length rest)) as [Hi|Hi].
  - rewrite (decodeFrom_step _ f Hf) by (rewrite length_app; lia).
    rewrite (decodeFrom_step _ g Hg) by exact Hi.
    rewrite Hfg. cbn [fst snd]. pose proof (Hg i Hi).
    rewrite (IH (List.length rest - snd (g i))) by (auto; lia). reflexivity.
  - rewrite !decodeFrom_end by (try rewrite length_app; lia). reflexivity.
Qed.

Lemma codePoints_shift (i : nat) :
  decodeFrom (pre ++ rest) (codePointsStep (pre ++ rest)) (p + i)
  = decodeFrom rest (codePointsStep rest) i.
Proof.
  apply decodeFrom_shift.
  - apply codePointsStep_advances.
  - apply codePointsStep_advances.
  - apply codePointsStep_shift.
Qed.

Lemma escapes_shift (i : nat) :
  decodeFrom (pre ++ rest) (escapesStep (pre ++ rest)) (p + i)
  = decodeFrom rest (escapesStep rest) i.
Proof.
  apply decodeFrom_shift.
  - apply escapesStep_advances.
  - apply escapesStep_advances.
  - apply escapesStep_shift.
Qed.

End Shift.

(** *** The laws of the two routines, by the head of their input *)

Lemma codePoints_copy_head (c : ascii) (t : bytes) :
  codePointAt (c :: t) 0 = false ->
  decodeFrom (c :: t) (codePointsStep (c :: t)) 0
  = (c :: fst (decodeFrom t (codePointsStep t) 0), snd (decodeFrom t (codePointsStep t) 0)).
Proof.
  intros H.
  rewrite (decodeFrom_step _ _ (codePointsStep_advances (c :: t))) by (cbn; lia).
  assert (Hst : codePointsStep (c :: t) 0 = ([c], false, 1))
    by (unfold codePointsStep; now rewrite codePointUnit_spec, H).
  rewrite Hst. cbn [fst snd].
  pose proof (codePoints_shift [c] t 0) as Hs.
  change ([c] ++ t) with (c :: t) in Hs. change (List.length [c] + 0) with 1 in Hs.
  rewrite Hs. reflexivity.
Qed.

Lemma escapes_copy_head (c : ascii) (t : bytes) :
  singleEscapeAt (c :: t) 0 = false -> doubleEscapeAt (c :: t) 0 = false ->
  decodeFrom (c :: t) (escapesStep (c :: t)) 0
  = (c :: fst (decodeFrom t (escapesStep t) 0), snd (decodeFrom t (escapesStep t) 0)).
Proof.
  intros H1 H2.
  rewrite (decodeFrom_step _ _ (escapesStep_advances (c :: t))) by (cbn; lia).
  assert (Hst : escapesStep (c :: t) 0 = ([c], false, 1)).
  { unfold escapesStep. destruct (Ascii.eqb (byteAt (c :: t) 0) backslash) eqn:Hb;
      [|reflexivity].
    rewrite doubleEscapeUnit_spec, singleEscapeUnit_spec, H1, H2 by exact Hb. reflexivity. }
  rewrite Hst. cbn [fst snd].
  pose proof (escapes_shift [c] t 0) as Hs.
  change ([c] ++ t) with (c :: t) in Hs. change (List.length [c] + 0) with 1 in Hs.
  rewrite Hs. reflexivity.
Qed.

Lemma hasPrefix_two (t : bytes) (a b : ascii) :
  2 <= List.length t ->
  hasPrefix t [a; b] = Ascii.eqb (byteAt t 0) a && Ascii.eqb (byteAt t 1) b.
Proof.
  destruct t as [|x [|y t]]; cbn [List.length]; try lia. intros _.
  cbn. replace (hasPrefix t []) with true by (now destruct t).
  rewrite andb_true_r, (Ascii.eqb_sym a x), (Ascii.eqb_sym b y). reflexivity.
Qed.

Lemma skipSeparator_head (t : bytes) :
  skipn (skipSeparator t 0) t = dropSeparator t.
Proof.
  unfold skipSeparator, dropSeparator, sepDropped. destruct t as [|c t']; [reflexivity|].
  cbn [tl].
  change (byteAt (c :: t') 0) with c.
  change (byteAt (c :: t') (0 + 1)) with (byteAt t' 0).
  change (byteAt (c :: t') (0 + 2)) with (byteAt t' 1).
  change (0 <? List.length (c :: t')) with true. cbn [andb].
  change (0 + 6 <? List.length (c :: t')) with (6 <=? List.length t').
  destruct (Ascii.eqb c " " || Ascii.eqb c tab); cbn [andb]; [|reflexivity].
  destruct (6 <=? List.length t') eqn:E; cbn [andb]; [|reflexivity].
  apply Nat.leb_le in E. change (str "U+") with ["U"; "+"]%char.
  rewrite hasPrefix_two by lia.
  destruct (Ascii.eqb (byteAt t' 0) "U" && Ascii.eqb (byteAt t' 1) "+"); reflexivity.
Qed.

Lemma skipSeparator_head_bound (t : bytes) : skipSeparator t 0 <= List.length t.
Proof.
  unfold skipSeparator.
  destruct ((0 <? List.length t) &&
            (Ascii.eqb (byteAt t 0) " " || Ascii.eqb (byteAt t 0) tab)); [|lia].
  destruct (0 + 6 <? List.length t) eqn:E; cbn [andb]; [|lia].
  apply Nat.ltb_lt in E.
  destruct (Ascii.eqb (byteAt t (0 + 1)) "U" && Ascii.eqb (byteAt t (0 + 2)) "+"); lia.
Qed.

Lemma codePoints_group_head (g t : bytes) :
  isCodePointText g = true ->
  decodeFrom (g ++ t) (codePointsStep (g ++ t)) 0
  = (encodeRune (unitValue g) ++
       fst (decodeFrom (dropSeparator t) (codePointsStep (dropSeparator t)) 0), true).
Proof.
  intros Hg. destruct (isCodePointText_inv g Hg) as (h1 & h2 & h3 & h4 & H1 & H2 & H3 & H4 & ->).
  rewrite (decodeFrom_step _ _ (codePointsStep_advances _)) by (cbn; lia).
  pose proof (codePointsStep_group [] t h1 h2 h3 h4 H1 H2 H3 H4) as Hst.
  cbv zeta in Hst. change ([] ++ ?x) with x in Hst.
  change (List.length (@nil ascii)) with 0 in Hst. rewrite Hst. cbn [fst snd orb].
  f_equal. f_equal.
  pose proof (skipSeparator_shift ["U"; "+"; h1; h2; h3; h4]%char t 0) as Hsk.
  change (List.length ["U"; "+"; h1; h2; h3; h4]%char + 0) with (0 + 6) in Hsk.
  rewrite Hsk. rewrite <- skipSeparator_head.
  pose proof (skipSeparator_head_bound t) as Hb.
  set (k := skipSeparator t 0) in *.
  pose proof (codePoints_shift (["U"; "+"; h1; h2; h3; h4]%char ++ firstn k t) (skipn k t) 0)
    as Hs.
  rewrite <- app_assoc, firstn_skipn, length_app, length_firstn in Hs.
  replace (List.length ["U"; "+"; h1; h2; h3; h4]%char + Nat.min k (List.length t) + 0)
    with (List.length ["U"; "+"; h1; h2; h3; h4]%char + k) in Hs by (cbn; lia).
  rewrite Hs. reflexivity.
Qed.

Lemma escapes_unit_head (e t : bytes) :
  isEscapeText e = true ->
  decodeFrom (e ++ t) (escapesStep (e ++ t)) 0
  = (encodeRune (unitValue e) ++ fst (decodeFrom t (escapesStep t) 0), true).
Proof.
  intros He.
  destruct (isEscapeText_inv e He)
    as (b & u & h1 & h2 & h3 & h4 & Hu & H1 & H2 & H3 & H4 & [->|[-> ->]]).
  - rewrite (decodeFrom_step _ _ (escapesStep_advances _)) by (cbn; lia).
    pose proof (escapesStep_single [] t u h1 h2 h3 h4 Hu H1 H2 H3 H4) as Hst.
    cbv zeta in Hst. change ([] ++ ?x) with x in Hst.
    change (List.length (@nil ascii)) with 0 in Hst. rewrite Hst. cbn [fst snd orb].
    pose proof (escapes_shift [backslash; u; h1; h2; h3; h4] t 0) as Hs.
    change (List.length [backslash; u; h1; h2; h3; h4] + 0) with (0 + 6) in Hs.
    rewrite Hs. reflexivity.
  - rewrite (decodeFrom_step _ _ (escapesStep_advances _)) by (cbn; lia).
    pose proof (escapesStep_double [] t u h1 h2 h3 h4 Hu H1 H2 H3 H4) as Hst.
    cbv zeta in Hst. change ([] ++ ?x) with x in Hst.
    change (List.length (@nil ascii)) with 0 in Hst. rewrite Hst. cbn [fst snd orb].
    pose proof (escapes_shift [backslash; backslash; u; h1; h2; h3; h4] t 0) as Hs.
    change (List.length [backslash; backslash; u; h1; h2; h3; h4] + 0) with (0 + 7) in Hs.
    rewrite Hs. reflexivity.
Qed.

Lemma quadValue_range (s : bytes) (k : nat) :
  hexQuad s k = true -> (0 <= quadValue s k < 65536)%Z.
Proof.
  unfold hexQuad, quadValue. intros H. split_andb.
  repeat match goal with
    | Hx : isHexChar _ = true |- _ => apply hexMap_range in Hx
    end.
  lia.
Qed.

Lemma encodeRune_length (r : Z) :
  (0 <= r < 65536)%Z -> 1 <= List.length (encodeRune r) <= 3.
Proof.
  intros Hr. unfold encodeRune. rewrite Z.mod_small by lia.
  destruct (r <=? 127)%Z; [cbn; lia|].
  destruct (r <=? 2047)%Z; [cbn; lia|].
  destruct ((1114111 <? r)%Z || ((55296 <=? r)%Z && (r <=? 57343)%Z)); [cbn; lia|].
  destruct (r <=? 65535)%Z eqn:E; [cbn; lia|].
  apply Z.leb_gt in E. lia.
Qed.

(** X9: [parseHex4] succeeds exactly when four hex digits stand at
    [offset] inside [s]; it reads no byte beyond the end of [s]; its
    result is the value of the four digits in base 16, a number from 0
    to 65535, which [utf8.EncodeRune] writes in one to three bytes, so
    the four-byte buffer of the decoders is never exceeded. *)
Theorem parseHex4_value (s : bytes) (offset : nat) :
  (parseHex4 s offset = None <-> hexQuad s offset = false) /\
  (forall v, parseHex4 s offset = Some v ->
     offset + 4 <= List.length s /\
     v = (4096 * hexMap (byteAt s offset) + 256 * hexMap (byteAt s (offset + 1)) +
          16 * hexMap (byteAt s (offset + 2)) + hexMap (byteAt s (offset + 3)))%Z /\
     (0 <= v < 65536)%Z /\
     1 <= List.length (encodeRune v) <= 3).
Proof.
  rewrite parseHex4_spec. destruct (hexQuad s offset) eqn:Q.
  - split; [split; discriminate|].
    intros v Hv. inversion Hv; subst v.
    pose proof (quadValue_range s offset Q) as Hr.
    split; [now apply hexQuad_bound|]. split; [reflexivity|]. split; [exact Hr|].
    now apply encodeRune_length.
  - split; [split; reflexivity|]. discriminate.
Qed.

Lemma parseHex4_value_witness :
  let s := str "x=20AC;" in
  2 + 4 <= List.length s /\
  8364%Z = (4096 * hexMap (byteAt s 2) + 256 * hexMap (byteAt s (2 + 1)) +
            16 * hexMap (byteAt s (2 + 2)) + hexMap (byteAt s (2 + 3)))%Z /\
  (0 <= 8364 < 65536)%Z /\
  1 <= List.length (encodeRune 8364) <= 3.
Proof.
  intros s. destruct (parseHex4_value s 2) as [_ H]. apply (H 8364%Z).
  vm_compute. reflexivity.
Defined.

Section DecodeLength.

Variable s : bytes.
Variable step : nat -> bytes * bool * nat.

Local Abbreviation n := (List.length s).

Hypothesis step_advances : forall i, i < n -> i < snd (step i).

(** An iteration stays inside the text, writes no more bytes than it
    consumes, and writes three bytes fewer when it sets [changed]. *)
Hypothesis step_shrinks :
  forall i, i < n ->
    snd (step i) <= n /\
    List.length (fst (fst (step i))) <= snd (step i) - i /\
    (snd (fst (step i)) = true -> List.length (fst (fst (step i))) + 3 <= snd (step i) - i).

Lemma decodeFrom_length (i : nat) :
  i <= n ->
  List.length (fst (decodeFrom s step i)) <= n - i /\
  (snd (decodeFrom s step i) = true ->
   List.length (fst (decodeFrom s step i)) + 3 <= n - i).
Proof.
  remember (n - i) as d eqn:Hd. revert i Hd.
  induction d as [d IH] using lt_wf_ind. intros i Hd Hi.
  destruct (Nat.lt_ge_cases i n) as [Hlt|Hge].
  - rewrite (decodeFrom_step s step step_advances i Hlt). cbn [fst snd].
    pose proof (step_advances i Hlt) as Hadv.
    destruct (step_shrinks i Hlt) as (Hin & Hlen & Hset).
    destruct (IH (n - snd (step i)) ltac:(lia) (snd (step i)) eq_refl Hin) as [L1 L2].
    rewrite length_app. split; [lia|].
    intros Hch. apply orb_prop in Hch. destruct Hch as [Hch|Hch].
    + specialize (Hset Hch). lia.
    + specialize (L2 Hch). lia.
  - rewrite decodeFrom_end by exact Hge. cbn. split; [lia|discriminate].
Qed.

End DecodeLength.

Lemma codePointsStep_shrinks (s : bytes) (i : nat) :
  i < List.length s ->
  snd (codePointsStep s i) <= List.length s /\
  List.length (fst (fst (codePointsStep s i))) <= snd (codePointsStep s i) - i /\
  (snd (fst (codePointsStep s i)) = true ->
   List.length (fst (fst (codePointsStep s i))) + 3 <= snd (codePointsStep s i) - i).
Proof.
  intros Hi. unfold codePointsStep. rewrite codePointUnit_spec.
  destruct (codePointAt s i) eqn:C; cbn [fst snd].
  - unfold codePointAt in C. split_andb.
    match goal with Hq : hexQuad _ _ = true |- _ =>
      pose proof (hexQuad_bound _ _ Hq) as Hb;
      pose proof (encodeRune_length _ (quadValue_range _ _ Hq)) as Hl end.
    pose proof (skipSeparator_bounds s (i + 6)) as Hsk.
    assert (Hin : skipSeparator s (i + 6) <= List.length s).
    { unfold skipSeparator.
      destruct ((i + 6 <? List.length s) &&
                (Ascii.eqb (byteAt s (i + 6)) " " || Ascii.eqb (byteAt s (i + 6)) tab));
        [|lia].
      destruct (i + 6 + 6 <? List.length s) eqn:E; cbn [andb]; [|lia].
      apply Nat.ltb_lt in E.
      destruct (Ascii.eqb (byteAt s (i + 6 + 1)) "U" &&
                Ascii.eqb (byteAt s (i + 6 + 2)) "+"); lia. }
    repeat split; try lia.
  - split; [lia|split; [cbn [List.length]; lia|intros Hx; discriminate Hx]].
Qed.

Lemma escapesStep_shrinks (s : bytes) (i : nat) :
  i < List.length s ->
  snd (escapesStep s i) <= List.length s /\
  List.length (fst (fst (escapesStep s i))) <= snd (escapesStep s i) - i /\
  (snd (fst (escapesStep s i)) = true ->
   List.length (fst (fst (escapesStep s i))) + 3 <= snd (escapesStep s i) - i).
Proof.
  intros Hi. unfold escapesStep.
  destruct (Ascii.eqb (byteAt s i) backslash) eqn:Hb; cbn [fst snd];
    [|split; [lia|split; [cbn [List.length]; lia|intros Hx; discriminate Hx]]].
  rewrite doubleEscapeUnit_spec, singleEscapeUnit_spec by exact Hb.
  destruct (doubleEscapeAt s i) eqn:D; cbn [fst snd].
  - unfold doubleEscapeAt in D. split_andb.
    match goal with Hq : hexQuad _ _ = true |- _ =>
      pose proof (hexQuad_bound _ _ Hq);
      pose proof (encodeRune_length _ (quadValue_range _ _ Hq)) end.
    repeat split; lia.
  - destruct (singleEscapeAt s i) eqn:S1; cbn [fst snd].
    + unfold singleEscapeAt in S1. split_andb.
      match goal with Hq : hexQuad _ _ = true |- _ =>
        pose proof (hexQuad_bound _ _ Hq);
        pose proof (encodeRune_length _ (quadValue_range _ _ Hq)) end.
      repeat split; lia.
    + split; [lia|split; [cbn [List.length]; lia|intros Hx; discriminate Hx]].
Qed.

Lemma contains_skip_head (c a b : ascii) (s : bytes) :
  c <> a -> contains (c :: s) [a; b] = contains s [a; b].
Proof.
  intros H. cbn [contains hasPrefix].
  replace (Ascii.eqb a c) with false; [reflexivity|].
  symmetry. apply Ascii.eqb_neq. congruence.
Qed.

Lemma decodeUnicode_copy_head (c : ascii) (s : bytes) :
  c <> "U"%char -> c <> backslash -> decodeUnicode (c :: s) = c :: decodeUnicode s.
Proof.
  intros HU HB. unfold decodeUnicode.
  change (str "U+") with ["U"; "+"]%char.
  change (str "\u") with [backslash; "u"]%char.
  change (str "\U") with [backslash; "U"]%char.
  rewrite !contains_skip_head by assumption.
  destruct (contains s ["U"; "+"]%char).
  - rewrite !decodeUnicodeCodePoints_loop, codePoints_copy_head; [reflexivity|].
    unfold codePointAt. change (byteAt (c :: s) 0) with c.
    replace (Ascii.eqb c "U") with false; [reflexivity|].
    symmetry. now apply Ascii.eqb_neq.
  - destruct (contains s [backslash; "u"]%char || contains s [backslash; "U"]%char);
      [|reflexivity].
    assert (Hc : Ascii.eqb c backslash = false) by now apply Ascii.eqb_neq.
    rewrite !decodeUnicodeEscapes_loop, escapes_copy_head; [reflexivity| |].
    + unfold singleEscapeAt. change (byteAt (c :: s) 0) with c. now rewrite Hc.
    + unfold doubleEscapeAt. change (byteAt (c :: s) 0) with c. now rewrite Hc.
Qed.

(** X10: what stands before the first [U] and the first backslash of
    a text is returned as it is, and the rest is decoded as if it were
    the whole input: the decoder looks at no byte before the unit it
    is decoding. *)
Theorem decode_copies_prefix (pre rest : bytes) :
  forallb (fun c => negb (Ascii.eqb c "U") && negb (Ascii.eqb c backslash)) pre = true ->
  decodeUnicode (pre ++ rest) = pre ++ decodeUnicode rest.
Proof.
  induction pre as [|c pre IH]; intros H; [reflexivity|].
  cbn [forallb] in H. apply andb_prop in H. destruct H as [Hc Hpre].
  apply andb_prop in Hc. destruct Hc as [HU HB].
  apply negb_true_iff, Ascii.eqb_neq in HU. apply negb_true_iff, Ascii.eqb_neq in HB.
  cbn [app]. rewrite decodeUnicode_copy_head by assumption.
  now rewrite IH.
Qed.

Lemma decode_copies_prefix_witness :
  decodeUnicode (str "name = " ++ str "\u0048\\u0069!")
  = str "name = " ++ decodeUnicode (str "\u0048\\u0069!").
Proof.
  apply (decode_copies_prefix (str "name = ") (str "\u0048\\u0069!")).
  vm_compute. reflexivity.
Defined.

(** ** The decoder on any input *)

Lemma noUnitBefore_spec (unitAt : bytes -> nat -> bool) (s : bytes) (k : nat) :
  noUnitBefore unitAt s k = true <-> forall i, i < k -> unitAt s i = false.
Proof.
  unfold noUnitBefore. rewrite forallb_forall. split.
  - intros H i Hi. apply negb_true_iff. apply H. apply in_seq. lia.
  - intros H i Hi. apply in_seq in Hi. apply negb_true_iff. apply H. lia.
Qed.

(** While [changed] stays unset the cursor stands at every position. *)
Lemma decodeFrom_unchanged_all (s : bytes) (step : nat -> bytes * bool * nat) :
  (forall i, i < List.length s -> i < snd (step i)) ->
  (forall i, i < List.length s -> snd (fst (step i)) = false ->
     step i = ([byteAt s i], false, S i)) ->
  forall i, snd (decodeFrom s step i) = false ->
  forall k, i <= k < List.length s -> snd (fst (step k)) = false.
Proof.
  intros Hadv Hcopy i. remember (List.length s - i) as d eqn:Hd. revert i Hd.
  induction d as [d IH] using lt_wf_ind. intros i Hd Hch k Hk.
  rewrite (decodeFrom_step s step Hadv i) in Hch by lia. cbn [snd] in Hch.
  apply orb_false_elim in Hch. destruct Hch as [Hset Hrest].
  destruct (Nat.eq_dec k i) as [->|Hne]; [exact Hset|].
  rewrite (Hcopy i ltac:(lia) Hset) in Hrest. cbn [snd] in Hrest.
  apply (IH (List.length s - S i) ltac:(lia) (S i) eq_refl Hrest). lia.
Qed.

Lemma codePointsStep_no_unit (s : bytes) (i : nat) :
  codePointAt s i = false -> codePointsStep s i = ([byteAt s i], false, S i).
Proof. intros H. unfold codePointsStep. now rewrite codePointUnit_spec, H. Qed.

Lemma codePointsStep_unit (s : bytes) (i : nat) :
  codePointAt s i = true -> snd (fst (codePointsStep s i)) = true.
Proof. intros H. unfold codePointsStep. now rewrite codePointUnit_spec, H. Qed.

Lemma escapeUnitAt_backslash (s : bytes) (i : nat) :
  escapeUnitAt s i = true -> Ascii.eqb (byteAt s i) backslash = true.
Proof.
  unfold escapeUnitAt, singleEscapeAt, doubleEscapeAt.
  destruct (Ascii.eqb (byteAt s i) backslash); [reflexivity|]. cbn [andb orb]. auto.
Qed.

Lemma escapesStep_no_unit (s : bytes) (i : nat) :
  escapeUnitAt s i = false -> escapesStep s i = ([byteAt s i], false, S i).
Proof.
  intros H. apply orb_false_elim in H. destruct H as [H1 H2]. unfold escapesStep.
  destruct (Ascii.eqb (byteAt s i) backslash) eqn:Hb; [|reflexivity].
  now rewrite doubleEscapeUnit_spec, singleEscapeUnit_spec, H1, H2 by exact Hb.
Qed.

Lemma escapesStep_unit (s : bytes) (i : nat) :
  escapeUnitAt s i = true -> snd (fst (escapesStep s i)) = true.
Proof.
  intros H. pose proof (escapeUnitAt_backslash s i H) as Hb.
  unfold escapesStep. rewrite Hb, doubleEscapeUnit_spec, singleEscapeUnit_spec by exact Hb.
  unfold escapeUnitAt in H.
  destruct (doubleEscapeAt s i); [reflexivity|].
  destruct (singleEscapeAt s i); [reflexivity|discriminate].
Qed.

(** A routine returns its input when no unit of its style starts in
    it, and a text at least three bytes shorter otherwise. *)
Lemma routine_cases (s : bytes) (step : nat -> bytes * bool * nat)
    (unitAt : bytes -> nat -> bool) :
  (forall i, i < List.length s -> i < snd (step i)) ->
  (forall i, i < List.length s -> snd (fst (step i)) = false ->
     step i = ([byteAt s i], false, S i)) ->
  (forall i, i < List.length s ->
     snd (step i) <= List.length s /\
     List.length (fst (fst (step i))) <= snd (step i) - i /\
     (snd (fst (step i)) = true ->
      List.length (fst (fst (step i))) + 3 <= snd (step i) - i)) ->
  (forall i, unitAt s i = false -> step i = ([byteAt s i], false, S i)) ->
  (forall i, unitAt s i = true -> snd (fst (step i)) = true) ->
  (noUnitBefore unitAt s (List.length s) = true /\ fst (decodeFrom s step 0) = s) \/
  (noUnitBefore unitAt s (List.length s) = false /\
   List.length (fst (decodeFrom s step 0)) + 3 <= List.length s).
Proof.
  intros Hadv Hcopy Hshr Hno Hunit.
  destruct (noUnitBefore unitAt s (List.length s)) eqn:N.
  - left. split; [reflexivity|]. apply decodeFrom_all_copied; [exact Hadv|].
    intros i Hi. apply Hno. rewrite noUnitBefore_spec in N. now apply N.
  - right. split; [reflexivity|].
    destruct (snd (decodeFrom s step 0)) eqn:Hch.
    + destruct (decodeFrom_length s step Hadv Hshr 0 ltac:(lia)) as [_ H].
      specialize (H Hch). lia.
    + exfalso. assert (N' : noUnitBefore unitAt s (List.length s) = true).
      { apply noUnitBefore_spec. intros i Hi.
        destruct (unitAt s i) eqn:U; [|reflexivity].
        pose proof (Hunit i U) as H1.
        pose proof (decodeFrom_unchanged_all s step Hadv Hcopy 0 Hch i ltac:(lia)) as H2.
        congruence. }
      congruence.
Qed.

Lemma codePoints_cases (s : bytes) :
  (noUnitBefore codePointAt s (List.length s) = true /\ decodeUnicodeCodePoints s = s) \/
  (noUnitBefore codePointAt s (List.length s) = false /\
   List.length (decodeUnicodeCodePoints s) + 3 <= List.length s).
Proof.
  rewrite decodeUnicodeCodePoints_loop.
  apply routine_cases;
    [apply codePointsStep_advances|apply codePointsStep_copies|apply codePointsStep_shrinks
    |apply codePointsStep_no_unit|apply codePointsStep_unit].
Qed.

Lemma escapes_cases (s : bytes) :
  (noUnitBefore escapeUnitAt s (List.length s) = true /\ decodeUnicodeEscapes s = s) \/
  (noUnitBefore escapeUnitAt s (List.length s) = false /\
   List.length (decodeUnicodeEscapes s) + 3 <= List.length s).
Proof.
  rewrite decodeUnicodeEscapes_loop.
  apply routine_cases;
    [apply escapesStep_advances|apply escapesStep_copies|apply escapesStep_shrinks
    |apply escapesStep_no_unit|apply escapesStep_unit].
Qed.

Lemma contains_at (s : bytes) (i : nat) (a b : ascii) :
  i + 1 < List.length s -> byteAt s i = a -> byteAt s (i + 1) = b ->
  contains s [a; b] = true.
Proof.
  intros Hi Ha Hb. apply contains_spec.
  exists (firstn i s), (skipn (S (S i)) s).
  rewrite <- (firstn_skipn i s) at 1. f_equal.
  rewrite (skipn_byteAt s i) by lia. rewrite (skipn_byteAt s (S i)) by lia.
  rewrite Ha. replace (S i) with (i + 1) by lia. rewrite Hb.
  now replace (S (i + 1)) with (S (S i)) by lia.
Qed.

Lemma isU_cases (c : ascii) : isU c = true -> c = "u"%char \/ c = "U"%char.
Proof.
  unfold isU. intros H. apply orb_prop in H.
  destruct H as [H|H]; apply Ascii.eqb_eq in H; auto.
Qed.

(** An escape that parses shows [\u] or [\U] to [strings.Contains]. *)
Lemma escape_unit_marker (s : bytes) (i : nat) :
  escapeUnitAt s i = true ->
  contains s (str "\u") || contains s (str "\U") = true.
Proof.
  change (str "\u") with [backslash; "u"]%char.
  change (str "\U") with [backslash; "U"]%char.
  unfold escapeUnitAt. intros H. apply orb_prop in H. destruct H as [H|H].
  - unfold singleEscapeAt in H. split_andb.
    match goal with Hq : hexQuad _ _ = true |- _ => apply hexQuad_bound in Hq end.
    match goal with Hx : Ascii.eqb _ backslash = true |- _ => apply Ascii.eqb_eq in Hx end.
    match goal with Hu : isU _ = true |- _ => apply isU_cases in Hu; destruct Hu as [Hu|Hu] end;
      apply orb_true_iff; [left|right]; apply (contains_at s i); auto; lia.
  - unfold doubleEscapeAt in H. split_andb.
    match goal with Hq : hexQuad _ _ = true |- _ => apply hexQuad_bound in Hq end.
    repeat match goal with
      | Hx : Ascii.eqb _ backslash = true |- _ => apply Ascii.eqb_eq in Hx
      end.
    match goal with Hu : isU _ = true |- _ => apply isU_cases in Hu; destruct Hu as [Hu|Hu] end;
      apply orb_true_iff; [left|right]; apply (contains_at s (i + 1)); auto; try lia;
      now replace (i + 1 + 1) with (i + 2) by lia.
Qed.

(** The escape routine returns a text without [\u] and [\U] as it is,
    so that [decodeUnicode] is one of its two routines on every input. *)
Lemma decodeUnicode_dispatch (s : bytes) :
  decodeUnicode s
  = if contains s (str "U+") then decodeUnicodeCodePoints s else decodeUnicodeEscapes s.
Proof.
  unfold decodeUnicode. destruct (contains s (str "U+")); [reflexivity|].
  destruct (contains s (str "\u") || contains s (str "\U")) eqn:M; [reflexivity|].
  destruct (escapes_cases s) as [[_ H]|[N _]]; [now rewrite H|exfalso].
  assert (N' : noUnitBefore escapeUnitAt s (List.length s) = true).
  { apply noUnitBefore_spec. intros i _.
    destruct (escapeUnitAt s i) eqn:U; [|reflexivity].
    pose proof (escape_unit_marker s i U). congruence. }
  congruence.
Qed.

Lemma decodeUnicode_cases (s : bytes) :
  (noRoutineUnit s = true /\ decodeUnicode s = s) \/
  (noRoutineUnit s = false /\ List.length (decodeUnicode s) + 3 <= List.length s).
Proof.
  rewrite decodeUnicode_dispatch. unfold noRoutineUnit, routineUnitAt.
  destruct (contains s (str "U+")); [apply codePoints_cases|apply escapes_cases].
Qed.

(** *** One valid unit among bytes that are copied *)

Lemma codePoints_sandwich (pre g post : bytes) :
  isCodePointText g = true ->
  noUnitBefore codePointAt (pre ++ g ++ post) (List.length pre) = true ->
  noUnitBefore codePointAt (dropSeparator post) (List.length (dropSeparator post)) = true ->
  decodeUnicodeCodePoints (pre ++ g ++ post)
  = pre ++ encodeRune (unitValue g) ++ dropSeparator post.
Proof.
  intros Hg Hpre Hpost. rewrite decodeUnicodeCodePoints_loop.
  rewrite noUnitBefore_spec in Hpre.
  rewrite (decodeFrom_copy _ _ (codePointsStep_advances _) 0 (List.length pre))
    by (try (rewrite length_app; lia); intros k Hk; apply codePointsStep_no_unit;
        now apply Hpre).
  cbn [skipn]. rewrite firstn_app, firstn_all, Nat.sub_diag. cbn [firstn].
  rewrite app_nil_r. f_equal.
  pose proof (codePoints_shift pre (g ++ post) 0) as Hs. rewrite Nat.add_0_r in Hs.
  cbn [Nat.add]. rewrite Hs, codePoints_group_head by exact Hg. cbn [fst]. f_equal.
  destruct (codePoints_cases (dropSeparator post)) as [[_ H]|[N _]]; [|congruence].
  now rewrite <- decodeUnicodeCodePoints_loop.
Qed.

Lemma escapes_sandwich (pre e post : bytes) :
  isEscapeText e = true ->
  noUnitBefore escapeUnitAt (pre ++ e ++ post) (List.length pre) = true ->
  noUnitBefore escapeUnitAt post (List.length post) = true ->
  decodeUnicodeEscapes (pre ++ e ++ post) = pre ++ encodeRune (unitValue e) ++ post.
Proof.
  intros He Hpre Hpost. rewrite decodeUnicodeEscapes_loop.
  rewrite noUnitBefore_spec in Hpre.
  rewrite (decodeFrom_copy _ _ (escapesStep_advances _) 0 (List.length pre))
    by (try (rewrite length_app; lia); intros k Hk; apply escapesStep_no_unit;
        now apply Hpre).
  cbn [skipn]. rewrite firstn_app, firstn_all, Nat.sub_diag. cbn [firstn].
  rewrite app_nil_r. f_equal.
  pose proof (escapes_shift pre (e ++ post) 0) as Hs. rewrite Nat.add_0_r in Hs.
  cbn [Nat.add]. rewrite Hs, escapes_unit_head by exact He. cbn [fst]. f_equal.
  destruct (escapes_cases post) as [[_ H]|[N _]]; [|congruence].
  now rewrite <- decodeUnicodeEscapes_loop.
Qed.

(** *** Every text read as units and other bytes *)

Lemma escapeText_at_head (s : bytes) :
  0 < escapeLenAt s 0 -> isEscapeText (firstn (escapeLenAt s 0) s) = true.
Proof.
  unfold escapeLenAt. destruct (doubleEscapeAt s 0) eqn:D.
  - intros _. pose proof D as D'. unfold doubleEscapeAt in D'. split_andb.
    match goal with Hq : hexQuad _ _ = true |- _ => pose proof (hexQuad_bound _ _ Hq) as Hb end.
    destruct s as [|b0 [|b1 [|b2 [|b3 [|b4 [|b5 [|b6 r]]]]]]];
      cbn [List.length] in Hb; try lia.
    cbn [firstn]. unfold isEscapeText. apply orb_true_iff. right.
    cbn [List.length Nat.eqb andb].
    unfold doubleEscapeAt, hexQuad, byteAt in D |- *. cbn in D |- *. exact D.
  - destruct (singleEscapeAt s 0) eqn:S1; [|lia].
    intros _. pose proof S1 as S'. unfold singleEscapeAt in S'. split_andb.
    match goal with Hq : hexQuad _ _ = true |- _ => pose proof (hexQuad_bound _ _ Hq) as Hb end.
    destruct s as [|b0 [|b1 [|b2 [|b3 [|b4 [|b5 r]]]]]];
      cbn [List.length] in Hb; try lia.
    cbn [firstn]. unfold isEscapeText. apply orb_true_iff. left.
    cbn [List.length Nat.eqb andb].
    unfold singleEscapeAt, hexQuad, byteAt in S1 |- *. cbn in S1 |- *. exact S1.
Qed.

Lemma codePointText_at_head (s : bytes) :
  codePointAt s 0 = true -> isCodePointText (firstn 6 s) = true.
Proof.
  intros C. pose proof C as C'. unfold codePointAt in C'. split_andb.
  match goal with Hq : hexQuad _ _ = true |- _ => pose proof (hexQuad_bound _ _ Hq) as Hb end.
  destruct s as [|b0 [|b1 [|b2 [|b3 [|b4 [|b5 r]]]]]];
    cbn [List.length] in Hb; try lia.
  cbn [firstn]. unfold isCodePointText. cbn [List.length Nat.eqb andb].
  unfold codePointAt, hexQuad, byteAt in C |- *. cbn in C |- *. exact C.
Qed.

Lemma escapePieces_exist (s : bytes) :
  exists ps, render ps = s /\ escapePieces ps = true.
Proof.
  remember (List.length s) as d eqn:Hd. revert s Hd.
  induction d as [d IH] using lt_wf_ind. intros s Hd.
  destruct s as [|c r]; [now exists []|].
  destruct (escapeUnitAt (c :: r) 0) eqn:U.
  - assert (HL : 0 < escapeLenAt (c :: r) 0).
    { unfold escapeLenAt. unfold escapeUnitAt in U.
      destruct (doubleEscapeAt (c :: r) 0); [lia|].
      destruct (singleEscapeAt (c :: r) 0); [lia|discriminate]. }
    pose proof (escapeText_at_head _ HL) as Ht.
    pose proof (escapeLenAt_bound (c :: r) 0 HL) as Hb.
    set (L := escapeLenAt (c :: r) 0) in *.
    destruct (IH (List.length (skipn L (c :: r)))
                ltac:(rewrite length_skipn; lia) (skipn L (c :: r)) eq_refl)
      as (ps & Hr & Hp).
    exists (Encoded (firstn L (c :: r)) :: ps). split.
    + cbn [render]. rewrite Hr. apply firstn_skipn.
    + cbn [escapePieces]. now rewrite Ht, Hp.
  - destruct (IH (List.length r) ltac:(cbn in Hd; lia) r eq_refl) as (ps & Hr & Hp).
    exists (Other c :: ps). split.
    + cbn [render]. now rewrite Hr.
    + cbn [escapePieces]. now rewrite Hr, U, Hp.
Qed.

Lemma codePointPieces_exist (s : bytes) :
  exists ps, render ps = s /\ codePointPieces ps = true.
Proof.
  remember (List.length s) as d eqn:Hd. revert s Hd.
  induction d as [d IH] using lt_wf_ind. intros s Hd.
  destruct s as [|c r]; [now exists []|].
  destruct (codePointAt (c :: r) 0) eqn:U.
  - pose proof (codePointText_at_head _ U) as Hg.
    assert (Hb : 6 <= List.length (c :: r)).
    { unfold codePointAt in U. split_andb.
      match goal with Hq : hexQuad _ _ = true |- _ => apply hexQuad_bound in Hq; lia end. }
    destruct (sepDropped (skipn 6 (c :: r))) eqn:SD.
    + destruct (skipn 6 (c :: r)) as [|x rest] eqn:Hsk; [discriminate|].
      assert (Hlen : List.length rest < d).
      { pose proof (length_skipn 6 (c :: r)) as Hl. rewrite Hsk in Hl.
        cbn [List.length] in Hl |- *. cbn [List.length] in Hd. lia. }
      destruct (IH (List.length rest) Hlen rest eq_refl) as (ps & Hr & Hp).
      exists (EncodedSep (firstn 6 (c :: r)) x :: ps). split.
      * cbn [render]. rewrite Hr, <- Hsk. apply firstn_skipn.
      * cbn [codePointPieces]. now rewrite Hr, Hg, SD, Hp.
    + destruct (IH (List.length (skipn 6 (c :: r)))
                  ltac:(rewrite length_skipn; lia) (skipn 6 (c :: r)) eq_refl)
        as (ps & Hr & Hp).
      exists (Encoded (firstn 6 (c :: r)) :: ps). split.
      * cbn [render]. rewrite Hr. apply firstn_skipn.
      * cbn [codePointPieces]. now rewrite Hr, Hg, SD, Hp.
  - destruct (IH (List.length r) ltac:(cbn in Hd; lia) r eq_refl) as (ps & Hr & Hp).
    exists (Other c :: ps). split.
    + cbn [render]. now rewrite Hr.
    + cbn [codePointPieces]. now rewrite Hr, U, Hp.
Qed.

Lemma escapePieces_sound (ps : list piece) :
  escapePieces ps = true -> decodeUnicodeEscapes (render ps) = decoded ps.
Proof.
  induction ps as [|[c|t|t c] ps IH]; cbn [escapePieces render decoded]; intros H.
  - reflexivity.
  - apply andb_prop in H. destruct H as [U Hp]. apply negb_true_iff in U.
    apply orb_false_elim in U. destruct U as [U1 U2].
    rewrite decodeUnicodeEscapes_loop, escapes_copy_head by assumption. cbn [fst].
    now rewrite <- decodeUnicodeEscapes_loop, IH.
  - apply andb_prop in H. destruct H as [Ht Hp].
    rewrite decodeUnicodeEscapes_loop, escapes_unit_head by assumption. cbn [fst].
    now rewrite <- decodeUnicodeEscapes_loop, IH.
  - discriminate.
Qed.

Lemma codePointPieces_sound (ps : list piece) :
  codePointPieces ps = true -> decodeUnicodeCodePoints (render ps) = decoded ps.
Proof.
  induction ps as [|[c|t|t c] ps IH]; cbn [codePointPieces render decoded]; intros H.
  - reflexivity.
  - apply andb_prop in H. destruct H as [U Hp]. apply negb_true_iff in U.
    rewrite decodeUnicodeCodePoints_loop, codePoints_copy_head by assumption. cbn [fst].
    now rewrite <- decodeUnicodeCodePoints_loop, IH.
  - apply andb_prop in H. destruct H as [H Hp]. apply andb_prop in H.
    destruct H as [Ht SD]. apply negb_true_iff in SD.
    rewrite decodeUnicodeCodePoints_loop, codePoints_group_head by assumption. cbn [fst].
    unfold dropSeparator. rewrite SD.
    now rewrite <- decodeUnicodeCodePoints_loop, IH.
  - apply andb_prop in H. destruct H as [H Hp]. apply andb_prop in H.
    destruct H as [Ht SD].
    rewrite decodeUnicodeCodePoints_loop, codePoints_group_head by assumption. cbn [fst].
    unfold dropSeparator. rewrite SD. cbn [tl].
    now rewrite <- decodeUnicodeCodePoints_loop, IH.
Qed.

(** *** Texts made of valid units of one style *)

Lemma escape_texts_decode (ts : list bytes) :
  ts <> [] -> Forall (fun t => isEscapeText t = true) ts ->
  decodeUnicode (List.concat ts)
  = List.concat (map (fun t => encodeRune (unitValue t)) ts).
Proof.
  intros Hne Hts. unfold decodeUnicode.
  assert (Hplus : ~ In "+"%char (List.concat ts)).
  { intros Hin. apply in_concat in Hin. destruct Hin as (t & Ht & Hin).
    rewrite Forall_forall in Hts. exact (escape_no_plus t (Hts t Ht) Hin). }
  change (str "U+") with ["U"; "+"]%char.
  rewrite (contains_needs_byte _ "U" "+" Hplus).
  destruct ts as [|t ts]; [contradiction|].
  cbn [List.concat]. rewrite escape_has_marker by (now inversion Hts).
  rewrite decodeUnicodeEscapes_loop.
  exact (escapes_sequence (t :: ts) Hts []).
Qed.

Lemma codePoint_texts_decode (g : bytes) (rest : list (bytes * bytes)) :
  isCodePointText g = true ->
  Forall (fun sg => forallb isWhitespace (fst sg) = true /\
                    isCodePointText (snd sg) = true) rest ->
  decodeUnicode (g ++ List.concat (map (fun sg => fst sg ++ snd sg) rest))
  = encodeRune (unitValue g) ++
    List.concat (map (fun sg => keptSeparator (fst sg) ++ encodeRune (unitValue (snd sg)))
                     rest).
Proof.
  intros Hg Hrest. unfold decodeUnicode.
  replace (contains _ (str "U+")) with true.
  - rewrite decodeUnicodeCodePoints_loop.
    exact (codePoints_sequence rest Hrest g [] Hg).
  - symmetry. apply contains_spec.
    apply isCodePointText_inv in Hg.
    destruct Hg as (h1 & h2 & h3 & h4 & _ & _ & _ & _ & ->).
    now exists [], ([h1; h2; h3; h4] ++ List.concat (map (fun sg => fst sg ++ snd sg) rest)).
Qed.

(** ** Claims on what the decoder decodes *)

(** C6, as the code has it.  [decodeUnicode] runs one routine on its
    input: the code-point routine when the input contains [U+], the
    escape routine otherwise.  The input comes back unchanged, byte
    for byte, exactly when no unit of that routine's style parses in
    it: no [U+] followed by four hex digits in the first case, no
    backslash escape followed by four hex digits in the second.
    Otherwise the output is at least three bytes shorter than the
    input, whether or not other units fail to parse.  And there is
    partial decode: a valid unit of the routine's style that stands
    between two texts in which no such unit starts is replaced by its
    UTF-8 encoding, and the two texts, the failing units and the units
    of the other style in them included, are left in place (behind a
    code-point group, up to the separator that the routine drops). *)
Theorem decode_unchanged_iff_no_unit :
  (forall s, decodeUnicode s = s <-> noRoutineUnit s = true) /\
  (forall s, noRoutineUnit s = false ->
     List.length (decodeUnicode s) + 3 <= List.length s) /\
  (forall pre e post, isEscapeText e = true ->
     contains (pre ++ e ++ post) (str "U+") = false ->
     noUnitBefore escapeUnitAt (pre ++ e ++ post) (List.length pre) = true ->
     noUnitBefore escapeUnitAt post (List.length post) = true ->
     decodeUnicode (pre ++ e ++ post) = pre ++ encodeRune (unitValue e) ++ post) /\
  (forall pre g post, isCodePointText g = true ->
     noUnitBefore codePointAt (pre ++ g ++ post) (List.length pre) = true ->
     noUnitBefore codePointAt (dropSeparator post) (List.length (dropSeparator post)) = true ->
     decodeUnicode (pre ++ g ++ post) = pre ++ encodeRune (unitValue g) ++ dropSeparator post) /\
  decodeUnicode (str "\u0041\uZZZZ") = str "A\uZZZZ" /\
  decodeUnicode (str "U+ZZZZ \u0041") = str "U+ZZZZ \u0041" /\
  decodeUnicode (str "\uZZZZ U+0041 \u0042") = str "\uZZZZ A \u0042".
Proof.
  split; [|split; [|split; [|split; [|repeat split]]]].
  - intros s. destruct (decodeUnicode_cases s) as [[N H]|[N H]]; rewrite N.
    + tauto.
    + split; [|discriminate]. intros Heq. rewrite Heq in H. lia.
  - intros s N. destruct (decodeUnicode_cases s) as [[N' _]|[_ H]]; [congruence|exact H].
  - intros pre e post He Hc Hpre Hpost.
    rewrite decodeUnicode_dispatch, Hc. now apply escapes_sandwich.
  - intros pre g post Hg Hpre Hpost. rewrite decodeUnicode_dispatch.
    replace (contains (pre ++ g ++ post) (str "U+")) with true.
    + now apply codePoints_sandwich.
    + symmetry. apply contains_spec. apply isCodePointText_inv in Hg.
      destruct Hg as (h1 & h2 & h3 & h4 & _ & _ & _ & _ & ->).
      exists pre, ([h1; h2; h3; h4] ++ post). reflexivity.
Qed.

Lemma decode_unchanged_iff_no_unit_witness :
  (decodeUnicode (str "key=\uZZZZ \\u12G4 U+00X1")
   = str "key=\uZZZZ \\u12G4 U+00X1") /\
  List.length (decodeUnicode (str "\uZZZZ\u0041")) + 3
  <= List.length (str "\uZZZZ\u0041") /\
  decodeUnicode (str "a=\uZZZZ" ++ str "\\u00e9" ++ str "\u12")
  = str "a=\uZZZZ" ++ encodeRune (unitValue (str "\\u00e9")) ++ str "\u12" /\
  decodeUnicode (str "\u0041 U+ZZZZ " ++ str "U+20AC" ++ str " U+00G0")
  = str "\u0041 U+ZZZZ " ++ encodeRune (unitValue (str "U+20AC")) ++
    dropSeparator (str " U+00G0").
Proof.
  destruct decode_unchanged_iff_no_unit as (H1 & H2 & H3 & H4 & _).
  split; [|split; [|split]].
  - apply H1. vm_compute. reflexivity.
  - apply H2. vm_compute. reflexivity.
  - apply H3; vm_compute; reflexivity.
  - apply H4; vm_compute; reflexivity.
Defined.

(** The claim C7 as it is stated fails: every unit of [U+0041 \u0042]
    is valid, and yet the escape is not replaced by its code point:
    the input contains [U+], so the code-point routine alone runs. *)
Lemma decode_other_style_counterexample :
  let s := str "U+0041 \u0042" in
  codePointAt s 0 = true /\ singleEscapeAt s 7 = true /\
  decodeUnicode s = str "A \u0042" /\
  decodeUnicode s <> str "A B".
Proof.
  cbv zeta. split; [reflexivity|]. split; [reflexivity|]. split; [reflexivity|].
  vm_compute. discriminate.
Qed.

(** C7, as the code has it.  [decodeUnicode] is one of its two
    routines on every input: the code-point routine when the input
    contains [U+], the escape routine otherwise.  Every input reads,
    from left to right, as valid units of that routine's style and
    other bytes, and the output is that reading with each unit
    replaced by the UTF-8 encoding ([utf8.EncodeRune]) of the code
    point its four hex digits denote and every other byte kept --
    the units of the other style and the units that fail to parse are
    such bytes -- except for the space or tab that the code-point
    routine drops behind a group when [U+] and at least four more
    bytes follow.  In particular a sequence of escapes of either form
    becomes the sequence of their code points, and so does a sequence
    of groups with whitespace or nothing between them (a separator of
    exactly one space or one tab is dropped, any other is kept).  The
    examples of the specification follow, with one escape for each
    length of encoding. *)
Theorem decode_replaces_units :
  (forall s, decodeUnicode s
     = if contains s (str "U+") then decodeUnicodeCodePoints s else decodeUnicodeEscapes s) /\
  (forall s, exists ps,
     render ps = s /\
     (if contains s (str "U+") then codePointPieces ps else escapePieces ps) = true /\
     decodeUnicode s = decoded ps) /\
  (forall ps, codePointPieces ps = true -> decodeUnicodeCodePoints (render ps) = decoded ps) /\
  (forall ps, escapePieces ps = true -> decodeUnicodeEscapes (render ps) = decoded ps) /\
  (forall ts : list bytes, ts <> [] ->
     Forall (fun t => isEscapeText t = true) ts ->
     decodeUnicode (List.concat ts)
     = List.concat (map (fun t => encodeRune (unitValue t)) ts)) /\
  (forall (g : bytes) (rest : list (bytes * bytes)),
     isCodePointText g = true ->
     Forall (fun sg => forallb isWhitespace (fst sg) = true /\
                       isCodePointText (snd sg) = true) rest ->
     decodeUnicode (g ++ List.concat (map (fun sg => fst sg ++ snd sg) rest))
     = encodeRune (unitValue g) ++
       List.concat (map (fun sg => keptSeparator (fst sg) ++ encodeRune (unitValue (snd sg)))
                        rest)) /\
  decodeUnicode (str "\u0041\\u0042") = str "AB" /\
  decodeUnicode (str "U+0041 U+0042") = str "AB" /\
  decodeUnicode (str "U+ZZZZ") = str "U+ZZZZ" /\
  decodeUnicode (str "\uZZZZ") = str "\uZZZZ" /\
  decodeUnicode (str "\u00e9") = ["195"; "169"]%char /\
  decodeUnicode (str "\u20AC") = ["226"; "130"; "172"]%char /\
  decodeUnicode (str "key=U+0041") = str "key=A" /\
  decodeUnicode (str "U+0041 \u0042") = str "A \u0042".
Proof.
  split; [exact decodeUnicode_dispatch|].
  split; [|split; [exact codePointPieces_sound|split; [exact escapePieces_sound|]]].
  - intros s. rewrite decodeUnicode_dispatch.
    destruct (contains s (str "U+")).
    + destruct (codePointPieces_exist s) as (ps & Hr & Hp). exists ps.
      split; [exact Hr|]. split; [exact Hp|]. rewrite <- Hr at 1.
      now apply codePointPieces_sound.
    + destruct (escapePieces_exist s) as (ps & Hr & Hp). exists ps.
      split; [exact Hr|]. split; [exact Hp|]. rewrite <- Hr at 1.
      now apply escapePieces_sound.
  - split; [exact escape_texts_decode|split; [exact codePoint_texts_decode|repeat split]].
Qed.

Lemma decode_replaces_units_witness :
  decodeUnicodeCodePoints
    (render [Other "k"; Other "="; EncodedSep (str "U+0068") " ";
             EncodedSep (str "U+0069") " "; Other "U"; Other "+"; Other "Z"; Other "Z"; Other "Z"; Other "Z";
             Other " "; Other backslash; Other "u"; Other "0"; Other "0"; Other "4";
             Other "1"]%char)
  = decoded [Other "k"; Other "="; EncodedSep (str "U+0068") " ";
             EncodedSep (str "U+0069") " "; Other "U"; Other "+"; Other "Z"; Other "Z"; Other "Z"; Other "Z";
             Other " "; Other backslash; Other "u"; Other "0"; Other "0"; Other "4";
             Other "1"]%char /\
  decodeUnicodeEscapes
    (render [Other "k"; Other "="; Encoded (str "\u0068"); Encoded (str "\\U0069");
             Other backslash; Other "u"; Other "Z"; Other "Z"; Other "Z"; Other "Z"]%char)
  = decoded [Other "k"; Other "="; Encoded (str "\u0068"); Encoded (str "\\U0069");
             Other backslash; Other "u"; Other "Z"; Other "Z"; Other "Z"; Other "Z"]%char /\
  decodeUnicode (List.concat [str "\u0068"; str "\\U0069"])
  = List.concat (map (fun t => encodeRune (unitValue t)) [str "\u0068"; str "\\U0069"]) /\
  decodeUnicode (str "U+0068" ++
                 List.concat (map (fun sg => fst sg ++ snd sg)
                                  [(str " ", str "U+0069"); ([], str "U+0021");
                                   (str "  ", str "U+0021")]))
  = encodeRune (unitValue (str "U+0068")) ++
    List.concat (map (fun sg => keptSeparator (fst sg) ++ encodeRune (unitValue (snd sg)))
                     [(str " ", str "U+0069"); ([], str "U+0021");
                      (str "  ", str "U+0021")]).
Proof.
  destruct decode_replaces_units as (_ & _ & H3 & H4 & H5 & H6 & _).
  split; [|split; [|split]].
  - apply H3. vm_compute. reflexivity.
  - apply H4. vm_compute. reflexivity.
  - apply H5; [discriminate|]. repeat constructor.
  - apply H6; [vm_compute; reflexivity|]. repeat constructor.
Defined.

(** ** The separator behind a group *)

(** X11: behind a decoded group the code-point routine drops one
    space or tab whenever [U+] and at least four more bytes follow it,
    whether or not those bytes are hex digits: when what follows the
    separator starts with [U+], has six bytes or more and holds no
    unit that parses, it is returned as it is, and the separator
    before it is gone.  So [U+0041 U+ZZZZ] becomes [AU+ZZZZ]. *)
Theorem separator_dropped_before_failing_group (g : bytes) (c : ascii) (t : bytes) :
  isCodePointText g = true -> Ascii.eqb c " " || Ascii.eqb c tab = true ->
  hasPrefix t (str "U+") = true -> 6 <= List.length t ->
  noUnitBefore codePointAt t (List.length t) = true ->
  decodeUnicode (g ++ c :: t) = encodeRune (unitValue g) ++ t.
Proof.
  intros Hg Hc Hp Hlen Hno.
  assert (Hdrop : dropSeparator (c :: t) = t).
  { unfold dropSeparator, sepDropped. rewrite Hc, Hp.
    now replace (6 <=? List.length t) with true by (symmetry; now apply Nat.leb_le). }
  rewrite decodeUnicode_dispatch.
  replace (contains (g ++ c :: t) (str "U+")) with true.
  - pose proof (codePoints_sandwich [] g (c :: t) Hg eq_refl) as H.
    rewrite Hdrop in H. now apply H.
  - symmetry. apply contains_spec. apply isCodePointText_inv in Hg.
    destruct Hg as (h1 & h2 & h3 & h4 & _ & _ & _ & _ & ->).
    exists [], ([h1; h2; h3; h4] ++ c :: t). reflexivity.
Qed.

Lemma separator_dropped_before_failing_group_witness :
  decodeUnicode (str "U+0041" ++ " "%char :: str "U+ZZZZ")
  = encodeRune (unitValue (str "U+0041")) ++ str "U+ZZZZ".
Proof.
  apply (separator_dropped_before_failing_group (str "U+0041") " "%char (str "U+ZZZZ"));
    vm_compute; first [reflexivity | lia].
Defined.

(** ** The scanner and the decoder together *)

Lemma isCodePoint_codePointAt (data : bytes) (i : nat) :
  isCodePoint data i = codePointAt data i.
Proof.
  unfold isCodePoint, codePointAt, hexQuad, hexAt.
  replace (i + 2 + 4 <=? List.length data) with (i + 5 <? List.length data)
    by (destruct (i + 5 <? List.length data) eqn:E; symmetry;
        [apply Nat.ltb_lt in E; apply Nat.leb_le|apply Nat.ltb_ge in E; apply Nat.leb_gt];
        lia).
  replace (i + 2 + 1) with (i + 3) by lia. replace (i + 2 + 2) with (i + 4) by lia.
  replace (i + 2 + 3) with (i + 5) by lia.
  destruct (i + 5 <? List.length data), (Ascii.eqb (byteAt data i) "U"),
    (Ascii.eqb (byteAt data (i + 1)) "+"),
    (isHexChar (byteAt data (i + 2))), (isHexChar (byteAt data (i + 3))),
    (isHexChar (byteAt data (i + 4))), (isHexChar (byteAt data (i + 5))); reflexivity.
Qed.

Lemma codePointAt_skipn (data : bytes) (j : nat) :
  j <= List.length data -> codePointAt (skipn j data) 0 = codePointAt data j.
Proof.
  intros Hj. pose proof (codePointAt_shift (firstn j data) (skipn j data) 0) as H.
  rewrite firstn_skipn, length_firstn, Nat.min_l, Nat.add_0_r in H by lia. now rewrite H.
Qed.

Lemma escapeLenAt_skipn (data : bytes) (j : nat) :
  j <= List.length data -> escapeLenAt (skipn j data) 0 = escapeLenAt data j.
Proof.
  intros Hj. unfold escapeLenAt.
  pose proof (doubleEscapeAt_shift (firstn j data) (skipn j data) 0) as H2.
  pose proof (singleEscapeAt_shift (firstn j data) (skipn j data) 0) as H1.
  rewrite firstn_skipn, length_firstn, Nat.min_l, Nat.add_0_r in H1, H2 by lia.
  now rewrite H1, H2.
Qed.

Lemma between_split (data : bytes) (i j e : nat) :
  i <= j -> j <= e ->
  firstn (e - i) (skipn i data)
  = firstn (j - i) (skipn i data) ++ firstn (e - j) (skipn j data).
Proof.
  intros Hij Hje. replace (e - i) with ((j - i) + (e - j)) by lia.
  rewrite firstn_plus, skipn_skipn. now replace (j - i + i) with j by lia.
Qed.

Lemma forallb_between (f : ascii -> bool) (data : bytes) (i e : nat) :
  e <= List.length data -> allBetween f data i e = true ->
  forallb f (firstn (e - i) (skipn i data)) = true.
Proof.
  intros He Hall. rewrite allBetween_spec in Hall.
  apply forallb_forall. intros c Hc.
  destruct (In_nth _ _ zero Hc) as (x & Hx & <-).
  rewrite length_firstn, length_skipn in Hx.
  rewrite nth_firstn. replace (x <? e - i) with true by (symmetry; apply Nat.ltb_lt; lia).
  rewrite nth_skipn. apply Hall. lia.
Qed.

(** The text of a sequence of escapes is a list of escape texts. *)
Lemma EscapeSeq_texts (data : bytes) (i e : nat) :
  EscapeSeq data i e ->
  i <= e <= List.length data /\
  exists ts, ts <> [] /\ Forall (fun t => isEscapeText t = true) ts /\
    firstn (e - i) (skipn i data) = List.concat ts.
Proof.
  assert (Hunit : forall j, 0 < escapeLenAt data j ->
            isEscapeText (firstn (escapeLenAt data j) (skipn j data)) = true).
  { intros j Hj. pose proof (escapeLenAt_bound data j Hj) as Hb.
    rewrite <- (escapeLenAt_skipn data j) by lia.
    apply escapeText_at_head. rewrite escapeLenAt_skipn by lia. exact Hj. }
  induction 1 as [i Hlen|i e Hseq IH Hlen].
  - pose proof (escapeLenAt_bound data i Hlen) as Hb. split; [lia|].
    exists [firstn (escapeLenAt data i) (skipn i data)].
    split; [discriminate|]. split; [constructor; [now apply Hunit|constructor]|].
    cbn [List.concat]. rewrite app_nil_r. f_equal. lia.
  - destruct IH as (Hie & ts & Hne & Hts & Heq).
    pose proof (escapeLenAt_bound data e Hlen) as Hb. split; [lia|].
    exists (ts ++ [firstn (escapeLenAt data e) (skipn e data)]).
    split; [now destruct ts|]. split.
    + apply Forall_app. split; [exact Hts|]. constructor; [now apply Hunit|constructor].
    + rewrite (between_split data i e) by lia. rewrite Heq, concat_app.
      cbn [List.concat]. rewrite app_nil_r. do 2 f_equal. lia.
Qed.

(** The text of a sequence of groups is a group and a list of
    whitespace runs each followed by a group. *)
Lemma CodePointSpan_texts (data : bytes) (i e : nat) :
  CodePointSpan data i e ->
  i <= e <= List.length data /\
  exists g rest, isCodePointText g = true /\
    Forall (fun sg => forallb isWhitespace (fst sg) = true /\
                      isCodePointText (snd sg) = true) rest /\
    firstn (e - i) (skipn i data)
    = g ++ List.concat (map (fun sg => fst sg ++ snd sg) rest).
Proof.
  assert (Hunit : forall j, isCodePoint data j = true ->
            isCodePointText (firstn 6 (skipn j data)) = true).
  { intros j Hj. pose proof (isCodePoint_bound data j Hj) as Hb.
    apply codePointText_at_head. rewrite codePointAt_skipn by lia.
    now rewrite <- isCodePoint_codePointAt. }
  induction 1 as [i Hc Hw|i e ws Hspan IH Hlt Hall Hc Hw].
  - pose proof (isCodePoint_bound data i Hc) as Hb. split; [lia|].
    exists (firstn 6 (skipn i data)), []. split; [now apply Hunit|].
    split; [constructor|]. cbn [map List.concat]. rewrite app_nil_r. f_equal. lia.
  - destruct IH as (Hie & g & rest & Hg & Hrest & Heq).
    pose proof (isCodePoint_bound data ws Hc) as Hb. split; [lia|].
    exists g, (rest ++ [(firstn (ws - e) (skipn e data), firstn 6 (skipn ws data))]).
    split; [exact Hg|]. split.
    + apply Forall_app. split; [exact Hrest|]. constructor; [|constructor].
      cbn [fst snd]. split; [apply forallb_between; [lia|exact Hall]|now apply Hunit].
    + rewrite (between_split data i e (ws + 6)) by lia. rewrite Heq.
      rewrite (between_split data e ws (ws + 6)) by lia.
      rewrite map_app, concat_app. cbn [map List.concat fst snd].
      replace (ws + 6 - ws) with 6 by lia.
      now rewrite app_nil_r, <- app_assoc.
Qed.

(** What a Unicode candidate spans. *)
Lemma unicode_candidate_shape (data : bytes) (i : nat) (m : encodingMatch) (i' : nat) :
  i < List.length data -> scanStep data i = (Some m, i') -> mkind m = unicodeKind ->
  CodePointSpan data (mstart m) (mend m) \/ EscapeSeq data (mstart m) (mend m).
Proof.
  intros Hi Hs Hk.
  destruct (step_kinds data i m i' Hi Hs) as [_ Hu].
  destruct (Hu Hk) as [(Hcp & Hw & -> & _)|(Hb & _ & [(H7 & Hd & ->)|(H5 & Hsg & ->)])];
    cbn [mstart mend unicodeMatch span start end_].
  - left. pose proof (isCodePoint_bound data i Hcp).
    apply (codePointLoop_spec data (List.length data) (i + 6) i); [lia|lia|].
    now apply SpanFirst.
  - right. pose proof (doubleEscape_test data i) as T.
    replace (i + 6 <? List.length data) with true in T
      by (symmetry; apply Nat.ltb_lt; lia).
    cbn [andb] in T. rewrite Hd in T.
    assert (L : escapeLenAt data i = 7) by (unfold escapeLenAt; now rewrite <- T).
    pose proof (EscapeOne data i ltac:(lia)) as Hone. rewrite L in Hone.
    apply escapeLoop_spec; [lia|exact Hone].
  - right. pose proof (singleEscape_test data i) as T.
    replace (i + 5 <? List.length data) with true in T
      by (symmetry; apply Nat.ltb_lt; lia).
    cbn [andb] in T. rewrite Hsg in T. symmetry in T.
    assert (L : escapeLenAt data i = 6)
      by (unfold escapeLenAt; now rewrite (single_not_double data i T), T).
    pose proof (EscapeOne data i ltac:(lia)) as Hone. rewrite L in Hone.
    apply escapeLoop_spec; [lia|exact Hone].
Qed.

(** X12: the scanner hands the Unicode decoder only texts that it
    decodes completely.  The text [data[start:end]] of a Unicode match
    is either a sequence of backslash escapes, and [decodeUnicode]
    turns it into the sequence of their code points in UTF-8; or a
    group [U+XXXX] followed by whitespace runs and groups in turn, and
    [decodeUnicode] turns it into the code points of the groups, with
    the whitespace between two groups kept unless it is exactly one
    space or one tab.  No unit of the match is left undecoded, for
    any overlap test of the filter. *)
Theorem unicode_match_decodes (ovl : startEnd -> startEnd -> bool) (data : bytes)
    (m : encodingMatch) :
  In m (findEncodingMatches ovl data) -> mkind m = unicodeKind ->
  (exists ts, ts <> [] /\ Forall (fun t => isEscapeText t = true) ts /\
     slice data m = List.concat ts /\
     decodeUnicode (slice data m)
     = List.concat (map (fun t => encodeRune (unitValue t)) ts)) \/
  (exists g rest, isCodePointText g = true /\
     Forall (fun sg => forallb isWhitespace (fst sg) = true /\
                       isCodePointText (snd sg) = true) rest /\
     slice data m = g ++ List.concat (map (fun sg => fst sg ++ snd sg) rest) /\
     decodeUnicode (slice data m)
     = encodeRune (unitValue g) ++
       List.concat (map (fun sg => keptSeparator (fst sg) ++ encodeRune (unitValue (snd sg)))
                        rest)).
Proof.
  intros Hin. apply findEncodingMatches_incl in Hin. revert m Hin.
  apply (scanMatches_forall data (fun m => mkind m = unicodeKind -> _)).
  intros i m i' Hi Hs Hk. unfold slice.
  destruct (unicode_candidate_shape data i m i' Hi Hs Hk) as [Hspan|Hseq].
  - right. destruct (CodePointSpan_texts data _ _ Hspan) as (_ & g & rest & Hg & Hrest & Heq).
    exists g, rest. split; [exact Hg|]. split; [exact Hrest|]. split; [exact Heq|].
    rewrite Heq. now apply codePoint_texts_decode.
  - left. destruct (EscapeSeq_texts data _ _ Hseq) as (_ & ts & Hne & Hts & Heq).
    exists ts. split; [exact Hne|]. split; [exact Hts|]. split; [exact Heq|].
    rewrite Heq. now apply escape_texts_decode.
Qed.

Lemma unicode_match_decodes_witness :
  let data := str "name=\u0048\\u0069\u21! U+0041" in
  let m := unicodeMatch 5 18 in
  (exists ts, ts <> [] /\ Forall (fun t => isEscapeText t = true) ts /\
     slice data m = List.concat ts /\
     decodeUnicode (slice data m)
     = List.concat (map (fun t => encodeRune (unitValue t)) ts)) \/
  (exists g rest, isCodePointText g = true /\
     Forall (fun sg => forallb isWhitespace (fst sg) = true /\
                       isCodePointText (snd sg) = true) rest /\
     slice data m = g ++ List.concat (map (fun sg => fst sg ++ snd sg) rest) /\
     decodeUnicode (slice data m)
     = encodeRune (unitValue g) ++
       List.concat (map (fun sg => keptSeparator (fst sg) ++ encodeRune (unitValue (snd sg)))
                        rest)).
Proof.
  intros data m. apply (unicode_match_decodes overlaps data m).
  - vm_compute. auto.
  - reflexivity.
Defined.
